(** * A shallow embedding of the Logo interpreter [logo.py]

    The development follows the three stages of the program: the [Lexer]
    (characters to tokens), the [LogoParser] (tokens to syntax trees) and the
    evaluator [run] (syntax trees to turtle commands, with chained
    [Environment]s).

    Conventions of the embedding.
    - Python objects that are mutated and shared ([FilePosition],
      [Environment]) live in a store and are named by their address; a
      reference held by a token or by a child environment is an address.
    - Python values that flow through dynamically typed positions (syntax
      nodes, numbers, [None]) are one inductive type [obj].
    - A method that reads or writes [self] is a computation over the object's
      state; exceptions and unbounded loops are results of that computation.
      Every [while True] loop and every recursive call takes a fuel argument,
      and running out of fuel is a result of its own, never a value.
    - The program text is a string of code points below 256, one [ascii]
      for each code point; [float] is IEEE binary64. *)

From Stdlib Require Import ZArith Ascii List.
From Stdlib Require Import PrimFloat SpecFloat FloatOps.
From stdpp Require Import gmap strings list pretty.

(** ** Exceptions and computations *)

(** An address in a store of objects. *)
Abbreviation loc := nat (only parsing).

(** The exceptions the program raises itself ([LogoParserError],
    [RuntimeError]) and those raised by the Python operations it uses. The
    position of a [LogoParserError] is the address of a [FilePosition], or
    [None]. *)
Inductive exn : Type :=
| LogoParserError (message : string) (position : option loc)
| RuntimeError (message : string)
| TypeError
| ValueError
| OverflowError
| AttributeError
| AssertionError.

Inductive res (A : Type) : Type :=
| Ok (a : A)
| Raise (e : exn)
| OutOfFuel.

Arguments Ok {A} a.
Arguments Raise {A} e.
Arguments OutOfFuel {A}.

(** A computation over a state [S]: the state at the point of an exception is
    kept, since what was done before the exception stays done. *)
Definition comp (S A : Type) : Type := S -> res A * S.

Definition ret {S A : Type} (a : A) : comp S A := fun s => (Ok a, s).

Definition raise {S A : Type} (e : exn) : comp S A := fun s => (Raise e, s).

Definition out_of_fuel {S A : Type} : comp S A := fun s => (OutOfFuel, s).

Definition bind {S A B : Type} (c : comp S A) (k : A -> comp S B) : comp S B :=
  fun s =>
    match c s with
    | (Ok a, s') => k a s'
    | (Raise e, s') => (Raise e, s')
    | (OutOfFuel, s') => (OutOfFuel, s')
    end.

Definition gets {S A : Type} (f : S -> A) : comp S A := fun s => (Ok (f s), s).

Definition modify {S : Type} (f : S -> S) : comp S unit := fun s => (Ok tt, f s).

Notation "'let!' x ':=' c 'in' k" := (bind c (fun x => k))
  (at level 10, x pattern, c at level 100, k at level 200, only parsing).

(** [for x in l: body(x)]. *)
Fixpoint for_each {S A : Type} (l : list A) (body : A -> comp S unit) : comp S unit :=
  match l with
  | [] => ret tt
  | x :: l' => let! _ := body x in for_each l' body
  end.

(** ** Python strings *)

Module Str.

Definition newline : ascii := "010"%char.

(** A character of the text is a code point below 256, held in an [ascii]:
    the [ascii] of code 233 is the letter U+00E9, not a byte of an encoding.
    A character above 127 is written by its code, as in ["233"%char]. The
    classes below are those of [str.isspace], [str.isnumeric],
    [str.isdecimal], [str.isalpha] and [str.isalnum] at these code points:
    beside the ASCII ones they hold the no-break space and NEL, the
    superscript digits and the vulgar fractions, and the letters of the
    upper half. *)
Definition between (lo hi n : nat) : bool := (lo <=? n) && (n <=? hi).

Definition char_isspace (c : ascii) : bool :=
  let n := nat_of_ascii c in
  between 9 13 n || between 28 32 n || (n =? 133) || (n =? 160).

Definition char_isdecimal (c : ascii) : bool := between 48 57 (nat_of_ascii c).

Definition char_isnumeric (c : ascii) : bool :=
  let n := nat_of_ascii c in
  between 48 57 n || between 178 179 n || (n =? 185) || between 188 190 n.

Definition char_isalpha (c : ascii) : bool :=
  let n := nat_of_ascii c in
  between 65 90 n || between 97 122 n || (n =? 170) || (n =? 181) || (n =? 186)
  || between 192 214 n || between 216 246 n || between 248 255 n.

Definition char_isalnum (c : ascii) : bool := char_isalpha c || char_isnumeric c.

(** [c.casefold()], as code points: the result can be longer than one
    character (the sharp s gives [ss]) and can leave the range of the text
    (the micro sign gives the Greek mu, 956). *)
Definition char_casefold (c : ascii) : list N :=
  let n := nat_of_ascii c in
  if between 65 90 n || between 192 214 n || between 216 222 n then [N.of_nat (n + 32)]
  else if n =? 181 then [956%N]
  else if n =? 223 then [115%N; 115%N]
  else [N.of_nat n].

Fixpoint all_chars (p : ascii -> bool) (s : string) : bool :=
  match s with
  | EmptyString => true
  | String c s' => p c && all_chars p s'
  end.

(** A string is truthy when it is not empty. *)
Definition truthy (s : string) : bool :=
  match s with EmptyString => false | _ => true end.

(** [str.isspace] and the like: every character is in the class and there is
    at least one character. *)
Definition isspace (s : string) : bool := truthy s && all_chars char_isspace s.
Definition isnumeric (s : string) : bool := truthy s && all_chars char_isnumeric s.
Definition isalpha (s : string) : bool := truthy s && all_chars char_isalpha s.
Definition isalnum (s : string) : bool := truthy s && all_chars char_isalnum s.

Fixpoint casefold (s : string) : list N :=
  match s with
  | EmptyString => []
  | String c s' => char_casefold c ++ casefold s'
  end.

(** The code points of a string, to compare a folded string with. *)
Fixpoint code_points (s : string) : list N :=
  match s with
  | EmptyString => []
  | String c s' => N.of_nat (nat_of_ascii c) :: code_points s'
  end.

(** [s[i:j]] for [i <= j]: the slice is clipped to the string. *)
Definition slice (s : string) (i j : nat) : string := String.substring i (j - i) s.

(** [s[i]] as a one-character string, for an index in range. *)
Definition at_index (s : string) (i : nat) : option string :=
  match String.get i s with
  | Some c => Some (String c EmptyString)
  | None => None
  end.

Fixpoint to_list (s : string) : list ascii :=
  match s with
  | EmptyString => []
  | String c s' => c :: to_list s'
  end.

(** Truthiness of a string-or-[None]. *)
Definition truthy_opt (c : option string) : bool :=
  match c with
  | None => false
  | Some s => truthy s
  end.

End Str.

(** ** Python floats *)

Module Float.

(** The value of a digit string, most significant digit first. *)
Fixpoint digits_value (acc : Z) (s : string) : option Z :=
  match s with
  | EmptyString => Some acc
  | String c s' =>
      if Str.char_isdecimal c
      then digits_value (10 * acc + (Z.of_nat (nat_of_ascii c) - 48))%Z s'
      else None
  end.

(** Splits at the first dot. *)
Fixpoint split_dot (s : string) : string * option string :=
  match s with
  | EmptyString => (EmptyString, None)
  | String c s' =>
      if Ascii.eqb c "."%char then (EmptyString, Some s')
      else let '(a, b) := split_dot s' in (String c a, b)
  end.

(** The binary64 number nearest to [m / 10 ^ k], ties to even. *)
Definition of_decimal (neg : bool) (m : Z) (k : nat) : float :=
  SF2Prim
    match m with
    | Z0 => S754_zero neg
    | _ =>
        let '(q, e, l) := SFdiv_core_binary prec emax m 0 (10 ^ Z.of_nat k) 0 in
        binary_round_aux prec emax neg q e l
    end.

(** [float(s)] on the strings the lexer makes the content of a NUMBER: an
    optional [-], numeric characters, and optionally a dot followed by
    numeric characters. When all of them are decimal digits the result is the
    float; when one is not (a superscript digit, a fraction) [float] raises a
    [ValueError], for which [None] stands. No other string reaches [float]
    in this program. *)
Definition of_string (s : string) : option float :=
  let '(neg, body) :=
    match s with
    | String "-"%char s' => (true, s')
    | _ => (false, s)
    end in
  let '(int_part, frac_part) := split_dot body in
  if Str.truthy int_part then
    match frac_part with
    | None =>
        match digits_value 0 int_part with
        | Some m => Some (of_decimal neg m 0)
        | None => None
        end
    | Some frac =>
        if Str.truthy frac then
          match digits_value 0 (int_part +:+ frac) with
          | Some m => Some (of_decimal neg m (String.length frac))
          | None => None
          end
        else None
    end
  else None.

(** A float is truthy when it is not zero ([nan] is truthy, [-0.0] is not). *)
Definition truthy (f : float) : bool := negb (PrimFloat.eqb f PrimFloat.zero).

(** [int(f)]: truncation toward zero; [nan] and the infinities raise. *)
Definition to_int (f : float) : res Z :=
  match Prim2SF f with
  | S754_zero _ => Ok 0%Z
  | S754_finite s m e =>
      let a := match e with
               | Zneg _ => Z.shiftr (Zpos m) (- e)
               | _ => Z.shiftl (Zpos m) e
               end in
      Ok (if s then (- a)%Z else a)
  | S754_infinity _ => Raise OverflowError
  | S754_nan => Raise ValueError
  end.

End Float.

(** ** Source positions and tokens *)

Module FilePosition.

Record t : Type := new { line_num : nat; char : nat }.

Definition at_new_line (p : t) : t := {| line_num := line_num p + 1; char := 0 |}.

Definition copy (p : t) : t := new (line_num p) (char p).

#[global] Instance inhabited : Inhabited t := populate (new 1 0).

End FilePosition.

Inductive TokenKind : Type :=
| REPEAT | ROTATE | FORWARD | BACKWARD | PENUP | PENDOWN | LBRACE | RBRACE
| NUMBER | SYMBOL | IDENTIFIER | TO | END | EOF.

#[global] Instance TokenKind_eq_dec : EqDecision TokenKind.
Proof. solve_decision. Defined.

(** [kind.name] *)
Definition TokenKind_name (k : TokenKind) : string :=
  match k with
  | REPEAT => "REPEAT" | ROTATE => "ROTATE" | FORWARD => "FORWARD"
  | BACKWARD => "BACKWARD" | PENUP => "PENUP" | PENDOWN => "PENDOWN"
  | LBRACE => "LBRACE" | RBRACE => "RBRACE" | NUMBER => "NUMBER"
  | SYMBOL => "SYMBOL" | IDENTIFIER => "IDENTIFIER" | TO => "TO"
  | END => "END" | EOF => "EOF"
  end.

Module Token.

(** [position] is the address of the token's own [FilePosition] object. *)
Record t : Type := new { kind : TokenKind; position : loc; content : option string }.

Definition __str__ (tok : t) : string :=
  let _str := TokenKind_name (kind tok) in
  match content tok with
  | Some c => if Str.truthy c then _str +:+ "(" +:+ c +:+ ")" else _str
  | None => _str
  end.

(** The content of a token that has one (NUMBER, SYMBOL, IDENTIFIER). *)
Definition content_str (tok : t) : string := default "" (content tok).

End Token.

(** ** The lexer *)

Module Lexer.

(** [position] is the address of the lexer's [FilePosition] object in [heap],
    the store of all [FilePosition] objects created so far. [_text_len] is
    fixed by the constructor to the length of [text], which never changes. *)
Record t : Type := mk {
  text : string;
  position : loc;
  _index : nat;
  _buffer : list (option Token.t);
  heap : list FilePosition.t
}.

Definition new (text : string) : t :=
  {| text := text; position := 0; _index := 0; _buffer := [];
     heap := [FilePosition.new 1 0] |}.

Definition _text_len (L : t) : nat := String.length (text L).

Definition set_index (i : nat) (L : t) : t :=
  {| text := text L; position := position L; _index := i;
     _buffer := _buffer L; heap := heap L |}.

Definition set_buffer (b : list (option Token.t)) (L : t) : t :=
  {| text := text L; position := position L; _index := _index L;
     _buffer := b; heap := heap L |}.

Definition set_heap (h : list FilePosition.t) (L : t) : t :=
  {| text := text L; position := position L; _index := _index L;
     _buffer := _buffer L; heap := h |}.

Definition _peek_c (offset : nat) : comp t (option string) :=
  gets (fun L =>
    if decide (_index L + offset < _text_len L)
    then Str.at_index (text L) (_index L + offset)
    else None).

(** The token gets a fresh copy of the lexer's position as it is now. *)
Definition _create_token (kind : TokenKind) (content : option string) : comp t Token.t :=
  fun L =>
    let copy := FilePosition.copy (heap L !!! position L) in
    (Ok (Token.new kind (length (heap L)) content), set_heap (heap L ++ [copy]) L).

(** One round of the loop of [_advance] on the lexer's position object. *)
Definition advance_char (p : FilePosition.t) (c : ascii) : FilePosition.t :=
  let p := FilePosition.new (FilePosition.line_num p) (FilePosition.char p + 1) in
  if Ascii.eqb c Str.newline then FilePosition.at_new_line p else p.

Definition _advance (offset : nat) : comp t unit :=
  fun L =>
    let end_i := _index L + offset in
    let chars := Str.to_list (Str.slice (text L) (_index L) end_i) in
    let L := set_heap (alter (fun p => foldl advance_char p chars) (position L) (heap L)) L in
    let L := set_index end_i L in
    if decide (String.length (text L) < _index L)
    then (Raise (LogoParserError "Lexer cannot advance" (Some (position L))), L)
    else (Ok tt, L).

Definition _pop_c (size : nat) : comp t (option string) :=
  fun L =>
    let end_i := _index L + size in
    if decide (_text_len L < end_i) then (Ok None, L)
    else
      let res := Str.slice (text L) (_index L) end_i in
      (let! _ := _advance size in ret (Some res)) L.

(** The loop of [get_while]; [res] is the accumulator. *)
Fixpoint get_while_loop (fuel : nat) (cond : string -> bool) (res : string) : comp t string :=
  match fuel with
  | 0 => out_of_fuel
  | S fuel =>
      let! c := _peek_c 0 in
      match c with
      | None => ret res
      | Some c =>
          if negb (Str.truthy c) then ret res
          else if negb (cond c) then ret res
          else let! _ := _advance 1 in get_while_loop fuel cond (res +:+ c)
      end
  end.

(** Each round of the loop moves the index by one and the loop stops at the
    end of the text, so this much fuel is enough (lemma [get_while_total]). *)
Definition get_while (cond : string -> bool) : comp t string :=
  fun L => get_while_loop (S (_text_len L - _index L)) cond "" L.

(** The inner loop of [eat_spaces]: pops characters until one is a newline. *)
Fixpoint eat_comment (fuel : nat) : comp t unit :=
  match fuel with
  | 0 => out_of_fuel
  | S fuel =>
      let! c := _pop_c 1 in
      if bool_decide (c = Some (String Str.newline "")) then ret tt
      else eat_comment fuel
  end.

Fixpoint eat_spaces (fuel : nat) : comp t unit :=
  match fuel with
  | 0 => out_of_fuel
  | S fuel =>
      let! spaces := get_while Str.isspace in
      let! next_char := _peek_c 0 in
      if negb (Str.truthy_opt next_char) then ret tt
      else if bool_decide (next_char = Some "#") then
        let! _ := _advance 1 in
        let! _ := eat_comment fuel in
        eat_spaces fuel
      else if negb (Str.truthy spaces) then ret tt
      else eat_spaces fuel
  end.

Definition is_identifier_char (c : string) : bool :=
  Str.isalnum c || bool_decide (c = "_").

(** The chain of keyword tests of [pop], in its order. *)
Definition keyword (identifier_content : string) : option TokenKind :=
  let folded := Str.casefold identifier_content in
  if bool_decide (folded = Str.code_points "repeat") then Some REPEAT
  else if bool_decide (folded = Str.code_points "rotate") then Some ROTATE
  else if bool_decide (folded = Str.code_points "backward") then Some BACKWARD
  else if bool_decide (folded = Str.code_points "forward") then Some FORWARD
  else if bool_decide (folded = Str.code_points "penup") then Some PENUP
  else if bool_decide (folded = Str.code_points "pendown") then Some PENDOWN
  else if bool_decide (folded = Str.code_points "to") then Some TO
  else if bool_decide (folded = Str.code_points "end") then Some END
  else None.

Definition _Token (kind : TokenKind) (content : option string) : comp t (option Token.t) :=
  let! tok := _create_token kind content in ret (Some tok).

(** The number branch of [pop], entered with the character [c] just popped. *)
Definition pop_number (c : string) : comp t (option Token.t) :=
  let is_negative := bool_decide (c = "-") in
  let! c := (if is_negative then _pop_c 1 else ret (Some c)) in
  match c with
  | None => raise AttributeError
  | Some c =>
      if Str.isnumeric c then
        let! digits := get_while Str.isnumeric in
        let number_literal := c +:+ digits in
        let! dot := _peek_c 0 in
        let! number_literal :=
          (if bool_decide (dot = Some ".") then
             let! _ := _advance 1 in
             let number_literal := number_literal +:+ "." in
             let! rational_part := get_while Str.isnumeric in
             if negb (Str.truthy rational_part) then ret None
             else ret (Some (number_literal +:+ rational_part))
           else ret (Some number_literal)) in
        match number_literal with
        | None => ret None
        | Some number_literal =>
            let number_literal :=
              if is_negative then "-" +:+ number_literal else number_literal in
            _Token NUMBER (Some number_literal)
        end
      else if is_negative then raise AssertionError
      else ret None
  end.

Definition pop (fuel : nat) : comp t (option Token.t) :=
  fun L =>
    match _buffer L with
    | tok :: rest => (Ok tok, set_buffer rest L)
    | [] =>
        (let! _ := eat_spaces fuel in
         let! c := _pop_c 1 in
         match c with
         | None => _Token EOF None
         | Some c =>
             if negb (Str.truthy c) then _Token EOF None
             else if bool_decide (c = "[") then _Token LBRACE None
             else if bool_decide (c = "]") then _Token RBRACE None
             else if Str.isalpha c then
               let! rest := get_while is_identifier_char in
               let identifier_content := c +:+ rest in
               match keyword identifier_content with
               | Some kind => _Token kind None
               | None => _Token IDENTIFIER (Some identifier_content)
               end
             else if bool_decide (c = ":") then
               let! rest := get_while is_identifier_char in
               _Token SYMBOL (Some (c +:+ rest))
             else pop_number c
         end) L
    end.

Definition peek (fuel : nat) : comp t (option Token.t) :=
  fun L =>
    match _buffer L with
    | tok :: _ => (Ok tok, L)
    | [] =>
        (let! next_token := pop fuel in
         let! _ := modify (fun L => set_buffer (_buffer L ++ [next_token]) L) in
         ret next_token) L
    end.

Definition match_ (fuel : nat) (expected_kind : TokenKind) : comp t (option Token.t) :=
  let! next_token := pop fuel in
  match next_token with
  | None => ret None
  | Some tok =>
      if bool_decide (Token.kind tok <> expected_kind) then
        let! position := gets position in
        raise (LogoParserError
                 ("Error trying to parse ppm file: expecting '"
                    +:+ TokenKind_name expected_kind +:+ "' get a '"
                    +:+ Token.__str__ tok +:+ "'")
                 (Some position))
      else ret (Some tok)
  end.

Definition maybe_match (fuel : nat) (expected_kind : TokenKind) : comp t (option Token.t) :=
  let! next_token := pop fuel in
  match next_token with
  | None => ret None
  | Some tok =>
      if bool_decide (Token.kind tok <> expected_kind) then
        let! _ := modify (fun L => set_buffer (_buffer L ++ [Some tok]) L) in
        ret None
      else ret (Some tok)
  end.

End Lexer.

(** ** Syntax trees and values *)

(** Whatever can stand where the program expects a node, an expression or a
    value: [None], a float, or a syntax node. [AstProcedure] keeps the
    instruction list its constructor wraps into the [AstBlock] stored as
    [body]. *)
Inductive obj : Type :=
| PyNone
| PyFloat (f : float)
| AstRotate (n : obj)
| AstForward (n : obj)
| AstBackward (n : obj)
| AstPenUp
| AstPenDown
| AstRepeat (times : obj) (block : obj)
| AstBlock (body : list obj)
| AstProcedure (name : string) (arguments : list string) (instructions : list obj)
| AstProcedureCall (procedure_name : string) (arguments : list obj)
| AstSymbolReference (name : string).

(** Truthiness: [None] and zero are false, every syntax node is true. *)
Definition truthy (o : obj) : bool :=
  match o with
  | PyNone => false
  | PyFloat f => Float.truthy f
  | _ => true
  end.

(** [type(o)] as [format] prints it, for a program run as a script. *)
Definition type_repr (o : obj) : string :=
  match o with
  | PyNone => "<class 'NoneType'>"
  | PyFloat _ => "<class 'float'>"
  | AstRotate _ => "<class '__main__.AstRotate'>"
  | AstForward _ => "<class '__main__.AstForward'>"
  | AstBackward _ => "<class '__main__.AstBackward'>"
  | AstPenUp => "<class '__main__.AstPenUp'>"
  | AstPenDown => "<class '__main__.AstPenDown'>"
  | AstRepeat _ _ => "<class '__main__.AstRepeat'>"
  | AstBlock _ => "<class '__main__.AstBlock'>"
  | AstProcedure _ _ _ => "<class '__main__.AstProcedure'>"
  | AstProcedureCall _ _ => "<class '__main__.AstProcedureCall'>"
  | AstSymbolReference _ => "<class '__main__.AstSymbolReference'>"
  end.

(** ** Environments *)

Module Environment.

(** An environment object: its dictionary and the address of its parent. *)
Record t : Type := mk { _names : gmap string obj; parent : option loc }.

(** [Environment(parent)] allocates a new object and returns its address. *)
Definition new (parent : option loc) (store : list t) : loc * list t :=
  (length store, store ++ [mk ∅ parent]).

Definition set (self : loc) (name : string) (value : obj) (store : list t) : list t :=
  alter (fun e => mk (<[name := value]> (_names e)) (parent e)) self store.

(** [resolve] follows parent addresses; a parent is created before its
    children, so its address is smaller and [S self] calls are enough. *)
Fixpoint resolve_from (fuel : nat) (store : list t) (self : loc) (name : string) : obj :=
  match fuel with
  | 0 => PyNone
  | S fuel =>
      match store !! self with
      | None => PyNone
      | Some e =>
          let value := default PyNone (_names e !! name) in
          if truthy value then value
          else
            match parent e with
            | Some p => resolve_from fuel store p name
            | None => PyNone
            end
      end
  end.

Definition resolve (store : list t) (self : loc) (name : string) : obj :=
  resolve_from (S self) store self name.

Definition create_child (self : loc) (store : list t) : loc * list t :=
  new (Some self) store.

End Environment.

(** ** The parser *)

Module LogoParser.

(** [float(token.content)] *)
Definition float_ (tok : Token.t) : comp Lexer.t obj :=
  match Float.of_string (Token.content_str tok) with
  | Some f => ret (PyFloat f)
  | None => raise ValueError
  end.

Definition parse_expression (fuel : nat) : comp Lexer.t obj :=
  let! number_token := Lexer.maybe_match fuel NUMBER in
  match number_token with
  | Some tok => float_ tok
  | None =>
      let! symbol_token := Lexer.maybe_match fuel SYMBOL in
      match symbol_token with
      | Some tok => ret (AstSymbolReference (Token.content_str tok))
      | None => ret PyNone
      end
  end.

Definition parse_number (fuel : nat) : comp Lexer.t obj :=
  let! number_token := Lexer.match_ fuel NUMBER in
  match number_token with
  | Some tok => float_ tok
  | None => raise AttributeError
  end.

(** [while symbol := maybe_match(SYMBOL): arguments.append(symbol.content)] *)
Fixpoint parse_parameters (fuel : nat) (arguments : list string) : comp Lexer.t (list string) :=
  match fuel with
  | 0 => out_of_fuel
  | S fuel' =>
      let! symbol := Lexer.maybe_match fuel SYMBOL in
      match symbol with
      | Some tok => parse_parameters fuel' (arguments ++ [Token.content_str tok])
      | None => ret arguments
      end
  end.

(** [while expr := parse_expression(): arguments.append(expr)] *)
Fixpoint parse_arguments (fuel : nat) (arguments : list obj) : comp Lexer.t (list obj) :=
  match fuel with
  | 0 => out_of_fuel
  | S fuel' =>
      let! expr := parse_expression fuel in
      if truthy expr then parse_arguments fuel' (arguments ++ [expr])
      else ret arguments
  end.

(** [parse_instruction] with the two loops that call it back:
    [parse_procedure_body] is the loop up to END of a TO definition,
    [parse_block_body] the loop up to the closing bracket of [parse_block]. *)
Fixpoint parse_instruction (fuel : nat) : comp Lexer.t obj :=
  match fuel with
  | 0 => out_of_fuel
  | S fuel' =>
      let! t := Lexer.maybe_match fuel TO in
      if bool_decide (is_Some t) then
        let! name_identifier := Lexer.match_ fuel IDENTIFIER in
        let! arguments := parse_parameters fuel [] in
        let! procedure_body := parse_procedure_body fuel' [] in
        match name_identifier with
        | Some tok => ret (AstProcedure (Token.content_str tok) arguments procedure_body)
        | None => raise AttributeError
        end
      else
      let! t := Lexer.maybe_match fuel ROTATE in
      if bool_decide (is_Some t) then
        let! n := parse_expression fuel in ret (AstRotate n)
      else
      let! t := Lexer.maybe_match fuel FORWARD in
      if bool_decide (is_Some t) then
        let! n := parse_expression fuel in ret (AstForward n)
      else
      let! t := Lexer.maybe_match fuel BACKWARD in
      if bool_decide (is_Some t) then
        let! n := parse_expression fuel in ret (AstBackward n)
      else
      let! t := Lexer.maybe_match fuel PENDOWN in
      if bool_decide (is_Some t) then ret AstPenDown
      else
      let! t := Lexer.maybe_match fuel PENUP in
      if bool_decide (is_Some t) then ret AstPenUp
      else
      let! t := Lexer.maybe_match fuel REPEAT in
      if bool_decide (is_Some t) then
        let! times := parse_expression fuel in
        let! block := parse_block fuel' in
        ret (AstRepeat times block)
      else
      let! name_token := Lexer.maybe_match fuel IDENTIFIER in
      match name_token with
      | Some tok =>
          let! arguments := parse_arguments fuel [] in
          ret (AstProcedureCall (Token.content_str tok) arguments)
      | None => ret PyNone
      end
  end

with parse_procedure_body (fuel : nat) (procedure_body : list obj) : comp Lexer.t (list obj) :=
  match fuel with
  | 0 => out_of_fuel
  | S fuel' =>
      let! t := Lexer.maybe_match fuel END in
      if bool_decide (is_Some t) then ret procedure_body
      else
        let! instruction := parse_instruction fuel' in
        parse_procedure_body fuel' (procedure_body ++ [instruction])
  end

with parse_block (fuel : nat) : comp Lexer.t obj :=
  match fuel with
  | 0 => out_of_fuel
  | S fuel' =>
      let! t := Lexer.maybe_match fuel LBRACE in
      if bool_decide (is_Some t) then
        let! instructions := parse_block_body fuel' [] in
        ret (AstBlock instructions)
      else parse_instruction fuel'
  end

with parse_block_body (fuel : nat) (instructions : list obj) : comp Lexer.t (list obj) :=
  match fuel with
  | 0 => out_of_fuel
  | S fuel' =>
      let! t := Lexer.maybe_match fuel RBRACE in
      if bool_decide (is_Some t) then ret instructions
      else
        let! instruction := parse_instruction fuel' in
        parse_block_body fuel' (instructions ++ [instruction])
  end.

(** The loop of [parse]. *)
Fixpoint parse_file_body (fuel : nat) (file_body : list obj) : comp Lexer.t (list obj) :=
  match fuel with
  | 0 => out_of_fuel
  | S fuel' =>
      let! t := Lexer.maybe_match fuel EOF in
      if bool_decide (is_Some t) then ret file_body
      else
        let! instruction := parse_instruction fuel in
        parse_file_body fuel' (file_body ++ [instruction])
  end.

Definition parse (fuel : nat) : comp Lexer.t obj :=
  let! file_body := parse_file_body fuel [] in
  ret (AstBlock file_body).

(** [LogoParser(f).parse()] for a file whose content is [text]. *)
Definition parse_text (fuel : nat) (text : string) : res obj :=
  fst (parse fuel (Lexer.new text)).

End LogoParser.

(** ** The evaluator *)

Module Turtle.

(** The calls the evaluator makes on the turtle device, with the argument it
    passes. The device itself is outside the program. *)
Inductive command : Type :=
| forward (n : obj)
| backward (n : obj)
| left (n : obj)
| penup
| pendown.

End Turtle.

(** The state the evaluator works on: the store of [Environment] objects and
    the calls the turtle has received so far, oldest first. *)
Record State : Type := mkState {
  envs : list Environment.t;
  turtle : list Turtle.command
}.

Definition turtle_call (c : Turtle.command) : comp State unit :=
  modify (fun st => mkState (envs st) (turtle st ++ [c])).

Definition env_set (environment : loc) (name : string) (value : obj) : comp State unit :=
  modify (fun st => mkState (Environment.set environment name value (envs st)) (turtle st)).

Definition env_resolve (environment : loc) (name : string) : comp State obj :=
  gets (fun st => Environment.resolve (envs st) environment name).

Definition env_create_child (environment : loc) : comp State loc :=
  fun st =>
    let '(child, store) := Environment.create_child environment (envs st) in
    (Ok child, mkState store (turtle st)).

Definition evaluate_expression (expr : obj) (environment : loc) : comp State obj :=
  match expr with
  | AstSymbolReference name => env_resolve environment name
  | _ => ret expr
  end.

(** [int(times)] *)
Definition int_ (times : obj) : comp State Z :=
  match times with
  | PyFloat f =>
      match Float.to_int f with
      | Ok n => ret n
      | Raise e => raise e
      | OutOfFuel => out_of_fuel
      end
  | _ => raise TypeError
  end.

(** [range(n)] *)
Definition range (n : Z) : list nat := seq 0 (Z.to_nat n).

Definition undefined_procedure (procedure_name : string) : exn :=
  LogoParserError ("ERROR: cannot find the procedure " +:+ procedure_name) None.

Definition wrong_arity (name : string) (function_arity argument_passed : nat) : exn :=
  LogoParserError
    ("ERROR: wrong number of argument for the function '" +:+ name
       +:+ "' (needed " +:+ pretty function_arity
       +:+ ", passed " +:+ pretty argument_passed +:+ ")")
    None.

(** The turtle is outside the program: a call of it is recorded with its
    argument and returns. In a call, a truthy value that is no
    [AstProcedure] lacks one of the attributes [arguments], [name] and
    [body] that the call reads of it, whichever way the arity test goes: the
    call ends in an [AttributeError]. *)
Fixpoint run (fuel : nat) (node : obj) (environment : loc) : comp State unit :=
  match fuel with
  | 0 => out_of_fuel
  | S fuel =>
      match node with
      | AstForward n =>
          let! n := evaluate_expression n environment in
          turtle_call (Turtle.forward n)
      | AstBackward n =>
          let! n := evaluate_expression n environment in
          turtle_call (Turtle.backward n)
      | AstRotate n =>
          let! n := evaluate_expression n environment in
          turtle_call (Turtle.left n)
      | AstPenUp => turtle_call Turtle.penup
      | AstPenDown => turtle_call Turtle.pendown
      | AstBlock body =>
          for_each body (fun instruction => run fuel instruction environment)
      | AstRepeat times block =>
          let! times := evaluate_expression times environment in
          let! n := int_ times in
          for_each (range n) (fun _ => run fuel block environment)
      | AstProcedure name _ _ => env_set environment name node
      | AstProcedureCall procedure_name arguments =>
          let! procedure := env_resolve environment procedure_name in
          if negb (truthy procedure) then raise (undefined_procedure procedure_name)
          else
            match procedure with
            | AstProcedure name parameters instructions =>
                let function_arity := length parameters in
                let argument_passed := length arguments in
                if bool_decide (function_arity <> argument_passed) then
                  raise (wrong_arity name function_arity argument_passed)
                else
                  let! child_env := env_create_child environment in
                  let! _ :=
                    for_each (zip parameters arguments)
                      (fun '(name, argument) =>
                         let! value := evaluate_expression argument environment in
                         env_set child_env name value) in
                  run fuel (AstBlock instructions) child_env
            | _ => raise AttributeError
            end
      | _ => raise (RuntimeError ("Unknow instruction " +:+ type_repr node))
      end
  end.

(** The program's entry point on a text: parse, then run the tree in a new
    global environment with a new turtle. *)
Definition global_state : State := mkState [Environment.mk ∅ None] [].

Definition interpret (fuel : nat) (text : string) : res unit * State :=
  match LogoParser.parse_text fuel text with
  | Ok ast => run fuel ast 0 global_state
  | Raise e => (Raise e, global_state)
  | OutOfFuel => (OutOfFuel, global_state)
  end.

(** * Vocabulary of the properties *)

(** ** Environment chains *)

(** [in_chain store env a]: the environment at [a] is [env] itself or one of
    its ancestors. *)
Inductive in_chain (store : list Environment.t) : loc -> loc -> Prop :=
| in_chain_self (env : loc) : in_chain store env env
| in_chain_parent (env p a : loc) (e : Environment.t) :
    store !! env = Some e ->
    Environment.parent e = Some p ->
    in_chain store p a ->
    in_chain store env a.

(** No scope of the chain of [env] holds a binding of [name]. *)
Definition unbound (store : list Environment.t) (env : loc) (name : string) : Prop :=
  forall a e, in_chain store env a -> store !! a = Some e ->
              Environment._names e !! name = None.

(** Parents are created before their children. *)
Definition store_wf (store : list Environment.t) : Prop :=
  forall i e p, store !! i = Some e -> Environment.parent e = Some p -> p < i.

(** The binding of the nearest enclosing scope that binds [name], whatever
    the bound value is: the lookup as the specification words it. *)
Fixpoint nearest_binding (fuel : nat) (store : list Environment.t) (self : loc)
    (name : string) : option obj :=
  match fuel with
  | 0 => None
  | S fuel =>
      match store !! self with
      | None => None
      | Some e =>
          match Environment._names e !! name with
          | Some value => Some value
          | None =>
              match Environment.parent e with
              | Some p => nearest_binding fuel store p name
              | None => None
              end
          end
      end
  end.

(** Every value bound in the store is truthy. *)
Definition all_truthy (store : list Environment.t) : Prop :=
  forall i e name value, store !! i = Some e ->
    Environment._names e !! name = Some value -> truthy value = true.

(** ** Expressions and calls *)

(** The value of an expression in an environment of a state. *)
Definition value_in (st : State) (environment : loc) (expr : obj) : obj :=
  match expr with
  | AstSymbolReference name => Environment.resolve (envs st) environment name
  | _ => expr
  end.

(** Positional binding: the i-th name is bound to the i-th value, left to
    right, a later binding of the same name replacing an earlier one. *)
Definition bind_positionally (names : list string) (values : list obj)
    (m : gmap string obj) : gmap string obj :=
  foldl (fun m nv => <[nv.1 := nv.2]> m) m (zip names values).

(** The state a call reaches before it runs the body: the store has one more
    environment, the child, whose parent is the caller's environment. *)
Definition call_state (st : State) (environment : loc) (parameters : list string)
    (arguments : list obj) : State :=
  mkState
    (envs st ++
       [Environment.mk
          (bind_positionally parameters (map (value_in st environment) arguments) ∅)
          (Some environment)])
    (turtle st).

(** The value an expression of the body of a call has, in the words of the
    call: a parameter has the value its argument has in the caller's
    environment, when that value is truthy; any other name, and a parameter
    whose value is falsy, is resolved from the caller's environment. *)
Definition call_value (st : State) (environment : loc) (parameters : list string)
    (arguments : list obj) (expr : obj) : obj :=
  match expr with
  | AstSymbolReference x =>
      match bind_positionally parameters (map (value_in st environment) arguments) ∅ !! x with
      | Some value =>
          if truthy value then value else Environment.resolve (envs st) environment x
      | None => Environment.resolve (envs st) environment x
      end
  | _ => expr
  end.

(** The turtle call a movement or pen instruction makes, [value] giving the
    value of its expression. *)
Definition command_of (value : obj -> obj) (instruction : obj) : option Turtle.command :=
  match instruction with
  | AstForward n => Some (Turtle.forward (value n))
  | AstBackward n => Some (Turtle.backward (value n))
  | AstRotate n => Some (Turtle.left (value n))
  | AstPenUp => Some Turtle.penup
  | AstPenDown => Some Turtle.pendown
  | _ => None
  end.

(** The turtle calls of a body made of movement and pen instructions only. *)
Fixpoint commands_of (value : obj -> obj) (body : list obj) : option (list Turtle.command) :=
  match body with
  | [] => Some []
  | instruction :: body' =>
      match command_of value instruction, commands_of value body' with
      | Some c, Some cs => Some (c :: cs)
      | _, _ => None
      end
  end.


(** A node that is not a procedure definition and has none among the
    instructions of its blocks and repeats, at any depth. *)
Fixpoint no_definition (node : obj) : bool :=
  match node with
  | AstProcedure _ _ _ => false
  | AstBlock body => forallb no_definition body
  | AstRepeat _ block => no_definition block
  | _ => true
  end.

(** The store of [Environment.resolve]'s counterexample: the local scope
    binds [:x] to zero, its parent binds it to five. *)
Definition shadowed_store : list Environment.t :=
  [Environment.mk {[ ":x" := PyFloat 5 ]} None;
   Environment.mk {[ ":x" := PyFloat 0 ]} (Some 0)].

(** ** Frames on the store of environments *)

(** Every environment of [s] is still there in [s'], with the same bindings
    and the same parent. *)
Definition unchanged (s s' : list Environment.t) : Prop :=
  forall i e, s !! i = Some e -> s' !! i = Some e.

(** From [s] to [s'] environments were added at the end, environments other
    than [env] were left as they were, and [env] kept its parent and lost no
    binding. *)
Definition grows (env : loc) (s s' : list Environment.t) : Prop :=
  length s <= length s'
  /\ (forall i e, i <> env -> s !! i = Some e -> s' !! i = Some e)
  /\ (forall e, s !! env = Some e ->
        exists e', s' !! env = Some e'
                   /\ Environment.parent e' = Environment.parent e
                   /\ forall name, is_Some (Environment._names e !! name) ->
                                   is_Some (Environment._names e' !! name)).

(** What an evaluation of [node] in [environment] may do to the store. *)
Definition frame (node : obj) (environment : loc) (st st' : State) : Prop :=
  grows environment (envs st) (envs st')
  /\ (no_definition node = true -> unchanged (envs st) (envs st')).

(** A global scope that holds a procedure of one parameter. *)
Definition square_state : State :=
  mkState
    [Environment.mk
       {[ "square" := AstProcedure "square" [":s"] [AstForward (AstSymbolReference ":s")] ]}
       None]
    [].

(** A caller's scope that binds [:x], below a global scope that holds a
    procedure which reads its parameter [:a] and the free name [:x]. *)
Definition dynamic_state : State :=
  mkState
    [Environment.mk
       {[ "f" := AstProcedure "f" [":a"]
                   [AstForward (AstSymbolReference ":a");
                    AstForward (AstSymbolReference ":x")] ]}
       None;
     Environment.mk {[ ":x" := PyFloat 5 ]} (Some 0)]
    [].

(** ** Lexer states *)

(** The text still to be read, [text[_index:]]. *)
Definition remaining (L : Lexer.t) : string :=
  Str.slice (Lexer.text L) (Lexer._index L) (Lexer._text_len L).

(** The lexer after [_advance] over the character [c]. *)
Definition advanced (c : ascii) (L : Lexer.t) : Lexer.t :=
  Lexer.set_index (Lexer._index L + 1)
    (Lexer.set_heap
       (alter (fun p => Lexer.advance_char p c) (Lexer.position L) (Lexer.heap L)) L).

(** The lexer after [_advance] over each character of [s] in turn. *)
Fixpoint advanced_by (s : string) (L : Lexer.t) : Lexer.t :=
  match s with
  | EmptyString => L
  | String c s' => advanced_by s' (advanced c L)
  end.

(** The longest prefix of [s] whose characters satisfy [cond], and the rest. *)
Fixpoint span (cond : string -> bool) (s : string) : string * string :=
  match s with
  | EmptyString => (EmptyString, EmptyString)
  | String c s' =>
      if cond (String c EmptyString)
      then let '(a, b) := span cond s' in (String c a, b)
      else (EmptyString, s)
  end.

(** The position reached from line 1, column 0 by reading the first [i]
    characters of [text]: the position immediately past [text[:i]]. *)
Definition position_after (text : string) (i : nat) : FilePosition.t :=
  foldl Lexer.advance_char (FilePosition.new 1 0) (Str.to_list (Str.slice text 0 i)).

(** The lexer's position object holds the position past what was read. *)
Definition tracks (L : Lexer.t) : Prop :=
  Lexer.heap L !! Lexer.position L
  = Some (position_after (Lexer.text L) (Lexer._index L)).

(** What reading characters does to a lexer: only the index and the lexer's
    own position object change. *)
Record moves (L L' : Lexer.t) : Prop := mk_moves {
  moves_text : Lexer.text L' = Lexer.text L;
  moves_position : Lexer.position L' = Lexer.position L;
  moves_buffer : Lexer._buffer L' = Lexer._buffer L;
  moves_length : length (Lexer.heap L') = length (Lexer.heap L);
  moves_others :
    forall a, a <> Lexer.position L -> Lexer.heap L' !! a = Lexer.heap L !! a;
  moves_tracks : tracks L -> tracks L'
}.

(** Every run of [c] relates the state before to the state after by [R],
    whatever the result. *)
Definition preserves {A : Type} (R : Lexer.t -> Lexer.t -> Prop) (c : comp Lexer.t A) : Prop :=
  forall L r L', c L = (r, L') -> R L L'.

(** The state after a token was made out of [L1]: the heap has one more
    object, a copy of the lexer's position, and the token refers to it. A
    result that is no token leaves [L1] as it is. *)
Definition finishes (L1 : Lexer.t) (r : res (option Token.t)) (L' : Lexer.t) : Prop :=
  match r with
  | Ok (Some tok) =>
      L' = Lexer.set_heap
             (Lexer.heap L1 ++ [FilePosition.copy (Lexer.heap L1 !!! Lexer.position L1)]) L1
      /\ Token.position tok = length (Lexer.heap L1)
  | _ => L' = L1
  end.

(** [c] reads characters and then, at the very end, may create a token. *)
Definition tokenizes (c : comp Lexer.t (option Token.t)) : Prop :=
  forall L r L', c L = (r, L') -> exists L1, moves L L1 /\ finishes L1 r L'.

(** A token's position object is its own and holds the lexer's position. *)
Definition token_ok (L : Lexer.t) (tok : Token.t) : Prop :=
  Token.position tok < length (Lexer.heap L)
  /\ Token.position tok <> Lexer.position L
  /\ Lexer.heap L !! Token.position tok = Lexer.heap L !! Lexer.position L.

Definition buffer_ok (L : Lexer.t) : Prop :=
  Forall (fun o => match o with Some tok => token_ok L tok | None => True end)
    (Lexer._buffer L).

(** The invariant of the lexer states a program goes through. *)
Definition lexer_inv (L : Lexer.t) : Prop := tracks L /\ buffer_ok L.

(** One call of a public method of the lexer, with any result. *)
Inductive lex_step : Lexer.t -> Lexer.t -> Prop :=
| lex_pop (fuel : nat) (L L' : Lexer.t) (r : res (option Token.t)) :
    Lexer.pop fuel L = (r, L') -> lex_step L L'
| lex_peek (fuel : nat) (L L' : Lexer.t) (r : res (option Token.t)) :
    Lexer.peek fuel L = (r, L') -> lex_step L L'
| lex_match (fuel : nat) (kind : TokenKind) (L L' : Lexer.t) (r : res (option Token.t)) :
    Lexer.match_ fuel kind L = (r, L') -> lex_step L L'
| lex_maybe_match (fuel : nat) (kind : TokenKind) (L L' : Lexer.t) (r : res (option Token.t)) :
    Lexer.maybe_match fuel kind L = (r, L') -> lex_step L L'.

(** Any amount of lexing. *)
Definition lexes : Lexer.t -> Lexer.t -> Prop := rtc lex_step.

(** Objects that exist are kept, except the lexer's own position object. *)
Definition keeps_objects (L L' : Lexer.t) : Prop :=
  Lexer.position L' = Lexer.position L
  /\ length (Lexer.heap L) <= length (Lexer.heap L')
  /\ forall a, a < length (Lexer.heap L) -> a <> Lexer.position L ->
               Lexer.heap L' !! a = Lexer.heap L !! a.


(** No character of the string is a newline. *)
Definition no_newline (s : string) : bool :=
  Str.all_chars (fun c => negb (Ascii.eqb c Str.newline)) s.

(** The sign of a numeral. *)
Definition sign (negative : bool) : string := if negative then "-" else "".

(** What [pop] guarantees: the invariant, the objects it keeps, and the
    token it returns. *)
Definition pop_post (L : Lexer.t) (r : res (option Token.t)) (L' : Lexer.t) : Prop :=
  lexer_inv L' /\ keeps_objects L L' /\ Lexer.text L' = Lexer.text L
  /\ forall tok, r = Ok (Some tok) -> token_ok L' tok.

(** Closes a goal [lexer_inv L' /\ keeps_objects L L' /\ text L' = text L]
    from its parts in the context. *)
Ltac lexer_inv_kept := split; [split; assumption | split; assumption].

(** ** Characters and words *)

(** A character that [is_identifier_char] accepts. *)
Definition identifier_char (c : ascii) : bool :=
  Str.char_isalnum c || Ascii.eqb c "_".

(** No character comes next, or one that [p] rejects. *)
Definition stops_at (p : ascii -> bool) (rest : string) : Prop :=
  match rest with
  | EmptyString => True
  | String c _ => p c = false
  end.

(** The kinds the keyword tests of [pop] can give. *)
Definition keyword_kinds : list TokenKind :=
  [REPEAT; ROTATE; BACKWARD; FORWARD; PENUP; PENDOWN; TO; END].

(** A character that starts no token and is no blank: it is not whitespace,
    [#], a bracket, a letter, a colon, a minus sign or a numeric character,
    by the classes of [str.isspace], [str.isalpha] and [str.isnumeric]. *)
Definition starts_nothing (c : ascii) : bool :=
  negb (Str.char_isspace c || Str.char_isalpha c || Str.char_isnumeric c
        || Ascii.eqb c "#" || Ascii.eqb c "[" || Ascii.eqb c "]"
        || Ascii.eqb c ":" || Ascii.eqb c "-").

(** ** Lines and columns *)

Definition count_newlines (l : list ascii) : nat :=
  length (filter (fun c => c = Str.newline) l).

(** The number of elements at the front of [l] that are no newline. *)
Fixpoint run_before_newline (l : list ascii) : nat :=
  match l with
  | [] => 0
  | c :: l' => if Ascii.eqb c Str.newline then 0 else S (run_before_newline l')
  end.

(** The number of characters after the last newline of [l]. *)
Definition column (l : list ascii) : nat := run_before_newline (reverse l).

(** A text of two lines, an [a] and a [bc]. *)
Definition two_lines_text : string :=
  String "a" (String Str.newline (String "b" (String "c" ""))).

(** ** Comments that end *)

Fixpoint has_newline (s : string) : bool :=
  match s with
  | EmptyString => false
  | String c s' => Ascii.eqb c Str.newline || has_newline s'
  end.

(** Every [#] of the string has a newline somewhere after it. *)
Fixpoint comments_closed (s : string) : bool :=
  match s with
  | EmptyString => true
  | String c s' => (if Ascii.eqb c "#" then has_newline s' else true) && comments_closed s'
  end.

(** ** What a lexer call reads *)

(** From [L] to [L'] the lexer read the characters [s], which were the
    first of the text still to be read, and nothing else of the text. *)
Definition has_read (s : string) (L L' : Lexer.t) : Prop :=
  Lexer.text L' = Lexer.text L
  /\ remaining L = s +:+ remaining L'
  /\ Lexer._index L' = Lexer._index L + String.length s.

(** The exceptions [pop] can end in. *)
Definition lexer_exception (r : res (option Token.t)) : Prop :=
  match r with
  | Raise e => e = AttributeError \/ e = AssertionError
  | _ => True
  end.

(** ** Numerals *)





(** Run from [L], the computation reads a prefix of the text still to be
    read and raises nothing. *)
Definition quiet_at {A : Type} (c : comp Lexer.t A) (L : Lexer.t) : Prop :=
  forall r L', c L = (r, L') -> (exists s, has_read s L L') /\ (forall e, r <> Raise e).

(** Run from [L], the computation reads a prefix of the text still to be
    read and raises at most one of the exceptions of [pop]. *)
Definition reads_at (c : comp Lexer.t (option Token.t)) (L : Lexer.t) : Prop :=
  forall r L', c L = (r, L') -> (exists s, has_read s L L') /\ lexer_exception r.

(** The string is made of whitespace and whole comments only, a comment
    going from a [#] through the next newline; [in_comment] tells whether the
    string starts inside a comment. *)
Fixpoint blanks (in_comment : bool) (s : string) : bool :=
  match s with
  | EmptyString => negb in_comment
  | String c s' =>
      if in_comment then blanks (negb (Ascii.eqb c Str.newline)) s'
      else if Ascii.eqb c "#" then blanks true s'
      else Str.char_isspace c && blanks false s'
  end.

(** A blank: a whitespace character or the [#] of a comment. *)
Definition blank_char (c : ascii) : bool := Str.char_isspace c || Ascii.eqb c "#".

(** ** Tokens no instruction starts with *)

(** The kinds [parse_instruction] has no test for, the end of the text
    apart. *)
Definition starts_no_instruction (kind : TokenKind) : bool :=
  match kind with
  | LBRACE | RBRACE | NUMBER | SYMBOL | END => true
  | _ => false
  end.

(** ** The text of a token *)

(** [lexeme] is the text of the token: the bracket for a bracket, nothing
    for EOF, the content for a NUMBER, a SYMBOL or an IDENTIFIER, and for a
    keyword a spelling of it in any case of its letters. *)
Definition token_text (tok : Token.t) (lexeme : string) : Prop :=
  match Token.kind tok with
  | LBRACE => lexeme = "["
  | RBRACE => lexeme = "]"
  | EOF => lexeme = ""
  | NUMBER | SYMBOL | IDENTIFIER => Token.content tok = Some lexeme
  | kind => Str.casefold lexeme = Str.casefold (TokenKind_name kind)
  end.

(** The text [read] ends with the text of the token. *)
Definition ends_with_token (read : string) (tok : Token.t) : Prop :=
  exists before lexeme, read = before +:+ lexeme /\ token_text tok lexeme.

(** What the lexer has read so far, [text[:_index]]. *)
Definition read_text (L : Lexer.t) : string :=
  Str.slice (Lexer.text L) 0 (Lexer._index L).

(** The lexer has just read the text of every token it holds in its buffer. *)
Definition buffer_read (L : Lexer.t) : Prop :=
  Forall (fun o => match o with
                   | Some tok => ends_with_token (read_text L) tok
                   | None => True
                   end)
    (Lexer._buffer L).

(** A text of two lines whose second token stands on the second line. *)
Definition bracket_then_forward : string :=
  String "[" (String Str.newline (String " " "forward")).

(** * Properties *)

(** ** Computations *)

Lemma bind_ok {S A B : Type} (c : comp S A) (k : A -> comp S B) (s s' : S) (a : A) :
  c s = (Ok a, s') -> bind c k s = k a s'.
Proof. intros H. unfold bind. rewrite H. reflexivity. Qed.

Lemma bind_raise {S A B : Type} (c : comp S A) (k : A -> comp S B) (s s' : S) (e : exn) :
  c s = (Raise e, s') -> bind c k s = (Raise e, s').
Proof. intros H. unfold bind. rewrite H. reflexivity. Qed.

Lemma bind_out_of_fuel {S A B : Type} (c : comp S A) (k : A -> comp S B) (s s' : S) :
  c s = (OutOfFuel, s') -> bind c k s = (OutOfFuel, s').
Proof. intros H. unfold bind. rewrite H. reflexivity. Qed.

(** ** Environments *)

Lemma resolve_from_S (fuel : nat) (store : list Environment.t) (self : loc) (name : string) :
  Environment.resolve_from (S fuel) store self name
  = match store !! self with
    | None => PyNone
    | Some e =>
        let value := default PyNone (Environment._names e !! name) in
        if truthy value then value
        else
          match Environment.parent e with
          | Some p => Environment.resolve_from fuel store p name
          | None => PyNone
          end
    end.
Proof. reflexivity. Qed.

Lemma nearest_binding_S (fuel : nat) (store : list Environment.t) (self : loc) (name : string) :
  nearest_binding (S fuel) store self name
  = match store !! self with
    | None => None
    | Some e =>
        match Environment._names e !! name with
        | Some value => Some value
        | None =>
            match Environment.parent e with
            | Some p => nearest_binding fuel store p name
            | None => None
            end
        end
    end.
Proof. reflexivity. Qed.

Lemma resolve_from_unbound (store : list Environment.t) (name : string) (fuel : nat) :
  forall env, unbound store env name -> Environment.resolve_from fuel store env name = PyNone.
Proof.
  induction fuel as [|fuel IH]; intros env Hun; [reflexivity|].
  rewrite resolve_from_S.
  destruct (store !! env) as [e|] eqn:He; [|reflexivity].
  rewrite (Hun env e (in_chain_self store env) He). simpl.
  destruct (Environment.parent e) as [p|] eqn:Hp; [|reflexivity].
  apply IH. intros a e' Hchain Ha.
  exact (Hun a e' (in_chain_parent store env p a e He Hp Hchain) Ha).
Qed.

Lemma resolve_unbound (store : list Environment.t) (env : loc) (name : string) :
  unbound store env name -> Environment.resolve store env name = PyNone.
Proof. apply resolve_from_unbound. Qed.

(** More fuel than the address of the scope changes nothing. *)
Lemma resolve_from_enough (store : list Environment.t) (name : string) :
  store_wf store ->
  forall fuel env, env < fuel ->
    Environment.resolve_from fuel store env name = Environment.resolve store env name.
Proof.
  intros Hwf. unfold Environment.resolve.
  intros fuel env. revert fuel.
  induction env as [env IH] using lt_wf_ind. intros fuel Hlt.
  destruct fuel as [|fuel]; [lia|]. rewrite !resolve_from_S.
  destruct (store !! env) as [e|] eqn:He; [|reflexivity]. simpl.
  destruct (truthy (default PyNone (Environment._names e !! name))); [reflexivity|].
  destruct (Environment.parent e) as [p|] eqn:Hp; [|reflexivity].
  pose proof (Hwf env e p He Hp) as Hpe.
  rewrite (IH p Hpe fuel) by lia. rewrite (IH p Hpe env) by lia. reflexivity.
Qed.

(** Environments allocated later are invisible from an existing one. *)
Lemma resolve_from_app (store ext : list Environment.t) (name : string) :
  store_wf store ->
  forall fuel env, env < length store ->
    Environment.resolve_from fuel (store ++ ext) env name
    = Environment.resolve_from fuel store env name.
Proof.
  intros Hwf. induction fuel as [|fuel IH]; intros env Hlt; [reflexivity|].
  rewrite !resolve_from_S. rewrite lookup_app_l by exact Hlt.
  destruct (store !! env) as [e|] eqn:He; [|reflexivity]. simpl.
  destruct (truthy (default PyNone (Environment._names e !! name))); [reflexivity|].
  destruct (Environment.parent e) as [p|] eqn:Hp; [|reflexivity].
  apply IH. pose proof (Hwf env e p He Hp). lia.
Qed.

Lemma resolve_app (store ext : list Environment.t) (env : loc) (name : string) :
  store_wf store -> env < length store ->
  Environment.resolve (store ++ ext) env name = Environment.resolve store env name.
Proof. intros Hwf Hlt. apply resolve_from_app; assumption. Qed.

(** Where every bound value is truthy, [resolve] is the nearest binding. *)
Lemma resolve_from_nearest (store : list Environment.t) (name : string) :
  all_truthy store ->
  forall fuel env,
    Environment.resolve_from fuel store env name
    = default PyNone (nearest_binding fuel store env name).
Proof.
  intros Htruthy. induction fuel as [|fuel IH]; intros env; [reflexivity|].
  rewrite resolve_from_S, nearest_binding_S.
  destruct (store !! env) as [e|] eqn:He; [|reflexivity].
  destruct (Environment._names e !! name) as [value|] eqn:Hv; simpl.
  - rewrite (Htruthy env e name value He Hv). reflexivity.
  - destruct (Environment.parent e) as [p|]; [apply IH | reflexivity].
Qed.

(** ** Expressions *)

Lemma evaluate_expression_value (expr : obj) (environment : loc) (st : State) :
  evaluate_expression expr environment st = (Ok (value_in st environment expr), st).
Proof. destruct expr; reflexivity. Qed.

(** ** The evaluator: unfolding by node *)

Lemma run_forward (fuel : nat) (n : obj) (environment : loc) (st : State) :
  run (S fuel) (AstForward n) environment st
  = (Ok tt, mkState (envs st) (turtle st ++ [Turtle.forward (value_in st environment n)])).
Proof.
  change (run (S fuel) (AstForward n) environment)
    with (let! n := evaluate_expression n environment in turtle_call (Turtle.forward n)).
  rewrite (bind_ok _ _ _ _ _ (evaluate_expression_value n environment st)). reflexivity.
Qed.

Lemma run_backward (fuel : nat) (n : obj) (environment : loc) (st : State) :
  run (S fuel) (AstBackward n) environment st
  = (Ok tt, mkState (envs st) (turtle st ++ [Turtle.backward (value_in st environment n)])).
Proof.
  change (run (S fuel) (AstBackward n) environment)
    with (let! n := evaluate_expression n environment in turtle_call (Turtle.backward n)).
  rewrite (bind_ok _ _ _ _ _ (evaluate_expression_value n environment st)). reflexivity.
Qed.

Lemma run_rotate (fuel : nat) (n : obj) (environment : loc) (st : State) :
  run (S fuel) (AstRotate n) environment st
  = (Ok tt, mkState (envs st) (turtle st ++ [Turtle.left (value_in st environment n)])).
Proof.
  change (run (S fuel) (AstRotate n) environment)
    with (let! n := evaluate_expression n environment in turtle_call (Turtle.left n)).
  rewrite (bind_ok _ _ _ _ _ (evaluate_expression_value n environment st)). reflexivity.
Qed.

Lemma run_block (fuel : nat) (body : list obj) (environment : loc) :
  run (S fuel) (AstBlock body) environment
  = for_each body (fun instruction => run fuel instruction environment).
Proof. reflexivity. Qed.

Lemma run_repeat (fuel : nat) (times block : obj) (environment : loc) :
  run (S fuel) (AstRepeat times block) environment
  = (let! times := evaluate_expression times environment in
     let! n := int_ times in
     for_each (range n) (fun _ => run fuel block environment)).
Proof. reflexivity. Qed.

Lemma run_procedure (fuel : nat) (name : string) (parameters : list string)
    (instructions : list obj) (environment : loc) :
  run (S fuel) (AstProcedure name parameters instructions) environment
  = env_set environment name (AstProcedure name parameters instructions).
Proof. reflexivity. Qed.

Lemma run_call (fuel : nat) (procedure_name : string) (arguments : list obj) (environment : loc) :
  run (S fuel) (AstProcedureCall procedure_name arguments) environment
  = (let! procedure := env_resolve environment procedure_name in
     if negb (truthy procedure) then raise (undefined_procedure procedure_name)
     else
       match procedure with
       | AstProcedure name parameters instructions =>
           if bool_decide (length parameters <> length arguments) then
             raise (wrong_arity name (length parameters) (length arguments))
           else
             let! child_env := env_create_child environment in
             let! _ :=
               for_each (zip parameters arguments)
                 (fun '(name, argument) =>
                    let! value := evaluate_expression argument environment in
                    env_set child_env name value) in
             run fuel (AstBlock instructions) child_env
       | _ => raise AttributeError
       end).
Proof. reflexivity. Qed.

(** ** Undefined symbols in movement commands *)

(** C8. A Forward, Backward or Rotate node whose argument is a reference to
    a symbol bound nowhere in the environment chain raises nothing: the
    expression evaluates to [None], and the turtle is called with that
    value. *)
Theorem unbound_symbol_reaches_turtle (fuel : nat) (name : string) (environment : loc)
    (st : State) :
  unbound (envs st) environment name ->
  evaluate_expression (AstSymbolReference name) environment st = (Ok PyNone, st)
  /\ run (S fuel) (AstForward (AstSymbolReference name)) environment st
     = (Ok tt, mkState (envs st) (turtle st ++ [Turtle.forward PyNone]))
  /\ run (S fuel) (AstBackward (AstSymbolReference name)) environment st
     = (Ok tt, mkState (envs st) (turtle st ++ [Turtle.backward PyNone]))
  /\ run (S fuel) (AstRotate (AstSymbolReference name)) environment st
     = (Ok tt, mkState (envs st) (turtle st ++ [Turtle.left PyNone])).
Proof.
  intros Hun. pose proof (resolve_unbound _ _ _ Hun) as Hres.
  assert (Hval : value_in st environment (AstSymbolReference name) = PyNone)
    by exact Hres.
  repeat split.
  - rewrite evaluate_expression_value, Hval. reflexivity.
  - rewrite run_forward, Hval. reflexivity.
  - rewrite run_backward, Hval. reflexivity.
  - rewrite run_rotate, Hval. reflexivity.
Qed.

Lemma unbound_in_global_state (name : string) : unbound (envs global_state) 0 name.
Proof.
  intros a e Hchain. inversion Hchain as [|? p ? e0 He0 Hp _]; subst.
  - intros [= <-]. apply lookup_empty.
  - injection He0 as <-. discriminate Hp.
Defined.

Lemma unbound_symbol_reaches_turtle_witness :
  run 1 (AstForward (AstSymbolReference ":side")) 0 global_state
  = (Ok tt, mkState (envs global_state) [Turtle.forward PyNone]).
Proof.
  exact (proj1 (proj2 (unbound_symbol_reaches_turtle 0 ":side" 0 global_state
                         (unbound_in_global_state ":side")))).
Defined.

(** ** Errors of a procedure call *)



(** ** Resolution and falsy values *)

(** C2, at the input where the code leaves the claim. The local scope binds
    [:x] to zero and its parent binds it to five: the nearest binding is the
    zero, and [resolve] returns the five. The same happens to a parameter
    bound to [None]: in the program of the last part, [f] is called with the
    unbound [:y], so its own [:x] is bound to [None], and [forward :x]
    receives the [:x] of the caller [g]. *)
Theorem resolve_skips_falsy_binding :
  nearest_binding 2 shadowed_store 1 ":x" = Some (PyFloat 0)
  /\ Environment.resolve shadowed_store 1 ":x" = PyFloat 5
  /\ turtle (snd (interpret 40 "to f :x forward :x end to g :x f :y end g 5"))
     = [Turtle.forward (PyFloat 5)].
Proof. repeat split; vm_compute; reflexivity. Qed.

(** ** Repeat *)





(** ** Procedure calls *)

Lemma bind_positionally_cons (x : string) (v : obj) (names : list string)
    (values : list obj) (m : gmap string obj) :
  bind_positionally (x :: names) (v :: values) m
  = bind_positionally names values (<[x := v]> m).
Proof. reflexivity. Qed.

Lemma bind_positionally_other (x : string) (names : list string) :
  x ∉ names ->
  forall values m, bind_positionally names values m !! x = m !! x.
Proof.
  induction names as [|y names IH]; intros Hnot values m; [reflexivity|].
  destruct values as [|v values]; [reflexivity|].
  rewrite bind_positionally_cons.
  rewrite IH by (intros Hin; apply Hnot; right; exact Hin).
  apply lookup_insert_ne. intros ->. apply Hnot. left.
Qed.

Lemma bind_positionally_lookup (names : list string) :
  forall values m i x v,
    names !! i = Some x -> values !! i = Some v ->
    x ∉ drop (S i) names ->
    bind_positionally names values m !! x = Some v.
Proof.
  induction names as [|y names IH]; intros values m i x v Hx Hv Hlater.
  - discriminate Hx.
  - destruct values as [|w values]; [discriminate Hv|].
    rewrite bind_positionally_cons. destruct i as [|i].
    + injection Hx as ->. injection Hv as ->.
      rewrite bind_positionally_other by exact Hlater.
      apply lookup_insert_eq.
    + apply (IH values _ i); assumption.
Qed.

Lemma set_last (store : list Environment.t) (m : gmap string obj) (p : option loc)
    (name : string) (value : obj) :
  Environment.set (length store) name value (store ++ [Environment.mk m p])
  = store ++ [Environment.mk (<[name := value]> m) p].
Proof.
  unfold Environment.set.
  replace (length store) with (length store + 0) at 1 by lia.
  rewrite alter_app_r. reflexivity.
Qed.

(** The loop that binds the arguments writes into the child only, and the
    values are those the arguments have in the caller's environment before
    the call. *)
Lemma bind_arguments (st0 : State) (environment : loc) :
  store_wf (envs st0) -> environment < length (envs st0) ->
  forall parameters arguments m,
    for_each (zip parameters arguments)
      (fun '(name, argument) =>
         let! value := evaluate_expression argument environment in
         env_set (length (envs st0)) name value)
      (mkState (envs st0 ++ [Environment.mk m (Some environment)]) (turtle st0))
    = (Ok tt,
       mkState
         (envs st0 ++
            [Environment.mk
               (bind_positionally parameters (map (value_in st0 environment) arguments) m)
               (Some environment)])
         (turtle st0)).
Proof.
  intros Hwf Hlt. induction parameters as [|x parameters IH]; intros arguments m.
  - reflexivity.
  - destruct arguments as [|a arguments]; [reflexivity|].
    cbn [zip zip_with for_each map]. rewrite bind_positionally_cons.
    set (st1 := mkState (envs st0 ++ [Environment.mk m (Some environment)]) (turtle st0)).
    assert (Hvalue : value_in st1 environment a = value_in st0 environment a).
    { destruct a; try reflexivity. apply resolve_app; assumption. }
    assert (Hstep :
      (let! value := evaluate_expression a environment in
       env_set (length (envs st0)) x value) st1
      = (Ok tt,
         mkState
           (envs st0 ++
              [Environment.mk (<[x := value_in st0 environment a]> m) (Some environment)])
           (turtle st0))).
    { rewrite (bind_ok _ _ _ _ _ (evaluate_expression_value a environment st1)).
      rewrite Hvalue. unfold env_set, modify, st1. cbn [envs turtle].
      rewrite set_last. reflexivity. }
    rewrite (bind_ok _ _ _ _ _ Hstep). apply IH.
Qed.

Lemma resolve_from_child_parent (st : State) (environment : loc) (c : Environment.t)
    (x : string) :
  store_wf (envs st) ->
  environment < length (envs st) ->
  Environment.resolve_from (length (envs st)) (envs st ++ [c]) environment x
  = Environment.resolve (envs st) environment x.
Proof.
  intros Hwf Hlt. rewrite resolve_from_app by assumption.
  apply resolve_from_enough; assumption.
Qed.

(** In the child of a call an expression has the value the call gives it. *)
Lemma value_in_child (st : State) (environment : loc) (parameters : list string)
    (arguments : list obj) (expr : obj) :
  store_wf (envs st) ->
  environment < length (envs st) ->
  value_in (call_state st environment parameters arguments) (length (envs st)) expr
  = call_value st environment parameters arguments expr.
Proof.
  intros Hwf Hlt. destruct expr; try reflexivity.
  unfold value_in, call_value, call_state. cbn [envs].
  unfold Environment.resolve at 1. rewrite resolve_from_S.
  rewrite list_lookup_middle by reflexivity.
  cbn [Environment._names Environment.parent].
  cbv zeta.
  destruct (bind_positionally parameters (map (value_in st environment) arguments) ∅ !! name)
    as [value|]; cbn [default from_option id].
  - destruct (truthy value); [reflexivity|].
    apply resolve_from_child_parent; assumption.
  - cbn [truthy]. apply resolve_from_child_parent; assumption.
Qed.

(** A body of movement and pen instructions sends one turtle call each, in
    order, and leaves the environments alone. *)
Lemma run_straight_line (fuel : nat) (environment : loc) (value : obj -> obj)
    (body : list obj) :
  forall st commands,
    (forall expr, value_in st environment expr = value expr) ->
    commands_of value body = Some commands ->
    run (S (S fuel)) (AstBlock body) environment st
    = (Ok tt, mkState (envs st) (turtle st ++ commands)).
Proof.
  rewrite run_block.
  induction body as [|instruction body IH]; intros st commands Hvalue Hcommands.
  - injection Hcommands as <-. rewrite app_nil_r. destruct st. reflexivity.
  - cbn [commands_of] in Hcommands.
    destruct (command_of value instruction) as [c|] eqn:Hc; [|discriminate Hcommands].
    destruct (commands_of value body) as [cs|] eqn:Hcs; [|discriminate Hcommands].
    injection Hcommands as <-. cbn [for_each].
    assert (Hstep : run (S fuel) instruction environment st
                    = (Ok tt, mkState (envs st) (turtle st ++ [c]))).
    { destruct instruction; try discriminate Hc; injection Hc as <-.
      - rewrite run_rotate, Hvalue. reflexivity.
      - rewrite run_forward, Hvalue. reflexivity.
      - rewrite run_backward, Hvalue. reflexivity.
      - reflexivity.
      - reflexivity. }
    rewrite (bind_ok _ _ _ _ _ Hstep).
    rewrite (IH (mkState (envs st) (turtle st ++ [c])) cs).
    + cbn [envs turtle]. rewrite <- app_assoc. reflexivity.
    + intros expr. rewrite <- Hvalue. destruct expr; reflexivity.
    + reflexivity.
Qed.

(** C1. A call whose name resolves to a procedure of matching arity runs the
    body of the procedure in a new environment, the child, in the state
    [call_state]: the child is allocated at the end of the store, its parent
    is the caller's environment [environment] (the definition site plays no
    part), and it binds the parameters positionally to the values the
    arguments have in the caller's environment. A name that is no parameter
    resolves in the child to what it resolves to at the call site. For a
    body of movement and pen instructions the call returns, and its result is
    spelled out: the store has the child added and nothing else changed, and
    the turtle has received, after the calls it had, one call for each
    instruction in order, a parameter standing for the value of its argument
    at the call site and any other name for what it resolves to there. *)
Theorem call_binds_in_child_of_caller (fuel : nat) (procedure_name : string)
    (arguments : list obj) (environment : loc) (st : State)
    (name : string) (parameters : list string) (instructions : list obj) :
  store_wf (envs st) ->
  environment < length (envs st) ->
  Environment.resolve (envs st) environment procedure_name
  = AstProcedure name parameters instructions ->
  length parameters = length arguments ->
  let child := length (envs st) in
  let st' := call_state st environment parameters arguments in
  run (S fuel) (AstProcedureCall procedure_name arguments) environment st
  = run fuel (AstBlock instructions) child st'
  /\ Environment.parent <$> envs st' !! child = Some (Some environment)
  /\ (forall i e, envs st !! i = Some e -> envs st' !! i = Some e)
  /\ (forall i x a,
        parameters !! i = Some x -> arguments !! i = Some a ->
        x ∉ drop (S i) parameters ->
        Environment._names <$> envs st' !! child
        = Some (bind_positionally parameters (map (value_in st environment) arguments) ∅)
        /\ bind_positionally parameters (map (value_in st environment) arguments) ∅ !! x
           = Some (value_in st environment a))
  /\ (forall x, x ∉ parameters ->
        Environment.resolve (envs st') child x
        = Environment.resolve (envs st) environment x)
  /\ (forall commands,
        2 <= fuel ->
        commands_of (call_value st environment parameters arguments) instructions
        = Some commands ->
        run (S fuel) (AstProcedureCall procedure_name arguments) environment st
        = (Ok tt,
           mkState
             (envs st ++
                [Environment.mk
                   (bind_positionally parameters
                      (map (value_in st environment) arguments) ∅)
                   (Some environment)])
             (turtle st ++ commands))).
Proof.
  intros Hwf Hlt Hres Harity child st'.
  assert (Hchild : envs st' !! child
                   = Some (Environment.mk
                             (bind_positionally parameters
                                (map (value_in st environment) arguments) ∅)
                             (Some environment))).
  { unfold st', call_state, child. cbn [envs]. apply list_lookup_middle. reflexivity. }
  assert (Hcall : run (S fuel) (AstProcedureCall procedure_name arguments) environment st
                  = run fuel (AstBlock instructions) child st').
  { rewrite run_call.
    assert (Hr : env_resolve environment procedure_name st
                 = (Ok (AstProcedure name parameters instructions), st))
      by (unfold env_resolve, gets; rewrite Hres; reflexivity).
    rewrite (bind_ok _ _ _ _ _ Hr). cbn [truthy negb].
    rewrite bool_decide_eq_false_2 by (intros Hne; apply Hne; exact Harity).
    assert (Hc : env_create_child environment st
                 = (Ok child,
                    mkState (envs st ++ [Environment.mk ∅ (Some environment)]) (turtle st)))
      by reflexivity.
    rewrite (bind_ok _ _ _ _ _ Hc).
    rewrite (bind_ok _ _ _ _ _ (bind_arguments st environment Hwf Hlt parameters arguments ∅)).
    reflexivity. }
  split; [exact Hcall|]. split; [|split; [|split; [|split]]].
  - rewrite Hchild. reflexivity.
  - intros i e He. unfold st', call_state. cbn [envs].
    apply lookup_app_l_Some. exact He.
  - intros i x a Hx Ha Hlater. rewrite Hchild. split; [reflexivity|].
    apply (bind_positionally_lookup parameters _ _ i); try assumption.
    rewrite list_lookup_fmap, Ha. reflexivity.
  - intros x Hnot. unfold Environment.resolve at 1.
    rewrite resolve_from_S, Hchild. cbn [Environment._names Environment.parent].
    rewrite bind_positionally_other by exact Hnot.
    rewrite lookup_empty. cbn [default truthy].
    unfold st', call_state. cbn [envs].
    rewrite resolve_from_app by assumption.
    apply resolve_from_enough; assumption.
  - intros commands Hfuel Hcommands. rewrite Hcall.
    destruct fuel as [|[|fuel']]; [lia..|].
    rewrite (run_straight_line fuel' child
               (call_value st environment parameters arguments) instructions st' commands).
    + reflexivity.
    + intros expr. apply value_in_child; assumption.
    + exact Hcommands.
Qed.


Lemma square_state_wf : store_wf (envs square_state).
Proof.
  intros i e p He Hp. destruct i as [|i].
  - injection He as <-. discriminate Hp.
  - destruct i; discriminate He.
Defined.

Lemma dynamic_state_wf : store_wf (envs dynamic_state).
Proof.
  intros i e p He Hp. destruct i as [|[|i]].
  - injection He as <-. discriminate Hp.
  - injection He as <-. injection Hp as <-. lia.
  - discriminate He.
Defined.

Lemma call_binds_in_child_of_caller_witness :
  run 3 (AstProcedureCall "f" [PyFloat 2]) 1 dynamic_state
  = (Ok tt,
     mkState
       (envs dynamic_state ++
          [Environment.mk
             (bind_positionally [":a"] (map (value_in dynamic_state 1) [PyFloat 2]) ∅)
             (Some 1)])
       (turtle dynamic_state ++ [Turtle.forward (PyFloat 2); Turtle.forward (PyFloat 5)])).
Proof.
  refine (proj2 (proj2 (proj2 (proj2 (proj2
            (call_binds_in_child_of_caller 2 "f" [PyFloat 2] 1 dynamic_state
               "f" [":a"]
               [AstForward (AstSymbolReference ":a"); AstForward (AstSymbolReference ":x")]
               dynamic_state_wf _ _ _)))))
            [Turtle.forward (PyFloat 2); Turtle.forward (PyFloat 5)] _ _).
  - simpl. lia.
  - vm_compute. reflexivity.
  - reflexivity.
  - lia.
  - vm_compute. reflexivity.
Defined.

(** A procedure defined in the global scope and called from inside another
    procedure reads the parameter of its caller. *)
Example free_symbol_is_resolved_at_call_site :
  let result := interpret 40 "to f forward :x end to g :x f end g 5" in
  fst result = Ok tt /\ turtle (snd result) = [Turtle.forward (PyFloat 5)].
Proof. split; vm_compute; reflexivity. Qed.

(** ** What an evaluation leaves in the store *)

Lemma unchanged_refl (s : list Environment.t) : unchanged s s.
Proof. intros i e He. exact He. Qed.

Lemma unchanged_trans (s1 s2 s3 : list Environment.t) :
  unchanged s1 s2 -> unchanged s2 s3 -> unchanged s1 s3.
Proof. intros H12 H23 i e He. apply H23, H12, He. Qed.

Lemma unchanged_length (s s' : list Environment.t) :
  unchanged s s' -> length s <= length s'.
Proof.
  intros Hun. destruct (decide (length s <= length s')) as [|Hgt]; [assumption|].
  destruct (lookup_lt_is_Some_2 s (length s')) as [e He]; [lia|].
  apply Hun in He. apply lookup_lt_Some in He. lia.
Qed.

Lemma grows_refl (env : loc) (s : list Environment.t) : grows env s s.
Proof.
  split; [lia|]. split; [intros i e _ He; exact He|].
  intros e He. exists e. split; [exact He|]. split; [reflexivity|]. intros name H. exact H.
Qed.

Lemma grows_trans (env : loc) (s1 s2 s3 : list Environment.t) :
  grows env s1 s2 -> grows env s2 s3 -> grows env s1 s3.
Proof.
  intros (Hlen12 & Hother12 & Hself12) (Hlen23 & Hother23 & Hself23).
  split; [lia|]. split.
  - intros i e Hne He. apply Hother23; [exact Hne|]. apply Hother12; assumption.
  - intros e He. destruct (Hself12 e He) as (e2 & He2 & Hp2 & Hn2).
    destruct (Hself23 e2 He2) as (e3 & He3 & Hp3 & Hn3).
    exists e3. split; [exact He3|]. split; [congruence|].
    intros name H. apply Hn3, Hn2, H.
Qed.

Lemma unchanged_grows (env : loc) (s s' : list Environment.t) :
  unchanged s s' -> grows env s s'.
Proof.
  intros Hun. split; [apply unchanged_length, Hun|]. split.
  - intros i e _ He. apply Hun, He.
  - intros e He. exists e. split; [apply Hun, He|]. split; [reflexivity|].
    intros name H. exact H.
Qed.

Lemma set_grows (env : loc) (name : string) (value : obj) (s : list Environment.t) :
  grows env s (Environment.set env name value s).
Proof.
  unfold Environment.set. split; [rewrite length_alter; lia|]. split.
  - intros i e Hne He. rewrite list_lookup_alter_ne by congruence. exact He.
  - intros e He. eexists. split.
    + rewrite list_lookup_alter_eq, He. reflexivity.
    + split; [reflexivity|]. intros x Hx. cbn [Environment._names].
      destruct (decide (name = x)) as [->|Hne].
      * rewrite lookup_insert_eq. eauto.
      * rewrite lookup_insert_ne by exact Hne. exact Hx.
Qed.

(** A frame that holds of every round of a loop holds of the loop. *)
Lemma for_each_frame {A : Type} (R : State -> State -> Prop) (body : A -> comp State unit)
    (l : list A) :
  (forall s, R s s) ->
  (forall s1 s2 s3, R s1 s2 -> R s2 s3 -> R s1 s3) ->
  Forall (fun x => forall s r s', body x s = (r, s') -> R s s') l ->
  forall s r s', for_each l body s = (r, s') -> R s s'.
Proof.
  intros Hrefl Htrans Hall. induction Hall as [|x l Hx _ IH]; intros s r s' Hrun.
  - injection Hrun as _ <-. apply Hrefl.
  - cbn [for_each] in Hrun. unfold bind in Hrun.
    destruct (body x s) as [[[]| |] s1] eqn:Hbody.
    + apply (Htrans s s1 s'); [exact (Hx s _ s1 Hbody) | exact (IH s1 r s' Hrun)].
    + injection Hrun as _ <-. exact (Hx s _ s1 Hbody).
    + injection Hrun as _ <-. exact (Hx s _ s1 Hbody).
Qed.

(** The loop that binds the arguments of a call changes the child only. *)
Lemma bind_arguments_frame (store : list Environment.t) (environment : loc)
    (p : option loc) (t : list Turtle.command) (arguments : list obj) :
  forall parameters m r st',
    for_each (zip parameters arguments)
      (fun '(name, argument) =>
         let! value := evaluate_expression argument environment in
         env_set (length store) name value)
      (mkState (store ++ [Environment.mk m p]) t) = (r, st') ->
    exists m', r = Ok tt /\ st' = mkState (store ++ [Environment.mk m' p]) t.
Proof.
  revert arguments.
  assert (Hgen : forall (pairs : list (string * obj)) m r st',
    for_each pairs
      (fun '(name, argument) =>
         let! value := evaluate_expression argument environment in
         env_set (length store) name value)
      (mkState (store ++ [Environment.mk m p]) t) = (r, st') ->
    exists m', r = Ok tt /\ st' = mkState (store ++ [Environment.mk m' p]) t).
  { induction pairs as [|[x a] pairs IH]; intros m r st' Hrun.
    - injection Hrun as <- <-. exists m. split; reflexivity.
    - cbn [for_each] in Hrun.
      set (st1 := mkState (store ++ [Environment.mk m p]) t) in Hrun.
      assert (Hstep :
        (let! value := evaluate_expression a environment in
         env_set (length store) x value) st1
        = (Ok tt,
           mkState (store ++ [Environment.mk (<[x := value_in st1 environment a]> m) p]) t)).
      { rewrite (bind_ok _ _ _ _ _ (evaluate_expression_value a environment st1)).
        unfold env_set, modify, st1. cbn [envs turtle]. rewrite set_last. reflexivity. }
      rewrite (bind_ok _ _ _ _ _ Hstep) in Hrun. exact (IH _ r st' Hrun). }
  intros arguments parameters. apply Hgen.
Qed.

Lemma int_state (times : obj) (st st1 : State) (r : res Z) :
  int_ times st = (r, st1) -> st1 = st.
Proof.
  unfold int_, ret, raise, out_of_fuel. intros Hint.
  destruct times; try congruence. destruct (Float.to_int f); congruence.
Qed.

Lemma frame_same (node : obj) (environment : loc) (st st' : State) :
  envs st' = envs st -> frame node environment st st'.
Proof.
  intros Hsame. unfold frame. rewrite Hsame.
  split; [apply grows_refl | intros _; apply unchanged_refl].
Qed.

Lemma run_frame (fuel : nat) :
  forall node environment st r st',
    run fuel node environment st = (r, st') ->
    environment < length (envs st) ->
    frame node environment st st'.
Proof.
  induction fuel as [|fuel IH]; intros node environment st r st' Hrun Hvalid.
  - injection Hrun as _ <-. apply frame_same. reflexivity.
  - destruct node as [ |f|n|n|n| | |times block|body|name parameters instructions
                      |procedure_name arguments|name].
    + injection Hrun as _ <-. apply frame_same. reflexivity.
    + injection Hrun as _ <-. apply frame_same. reflexivity.
    + rewrite run_rotate in Hrun. injection Hrun as _ <-. apply frame_same. reflexivity.
    + rewrite run_forward in Hrun. injection Hrun as _ <-. apply frame_same. reflexivity.
    + rewrite run_backward in Hrun. injection Hrun as _ <-. apply frame_same. reflexivity.
    + injection Hrun as _ <-. apply frame_same. reflexivity.
    + injection Hrun as _ <-. apply frame_same. reflexivity.
    + (* AstRepeat *)
      rewrite run_repeat in Hrun.
      rewrite (bind_ok _ _ _ _ _ (evaluate_expression_value times environment st)) in Hrun.
      unfold bind in Hrun.
      destruct (int_ (value_in st environment times) st) as [[n| |] st1] eqn:Hint.
      * apply int_state in Hint as ->. split.
        -- revert Hvalid.
           refine (for_each_frame
                     (fun s s' => environment < length (envs s) ->
                                  grows environment (envs s) (envs s'))
                     _ (range n) _ _ _ st r st' Hrun).
           ++ intros s _. apply grows_refl.
           ++ intros s1 s2 s3 H12 H23 Hv. specialize (H12 Hv).
              apply (grows_trans _ _ _ _ H12). apply H23. destruct H12. lia.
           ++ apply Forall_forall. intros x _ s r0 s' Hbody Hv.
              exact (proj1 (IH block environment s r0 s' Hbody Hv)).
        -- intros Hnodef. cbn [no_definition] in Hnodef. revert Hvalid.
           refine (for_each_frame
                     (fun s s' => environment < length (envs s) ->
                                  unchanged (envs s) (envs s'))
                     _ (range n) _ _ _ st r st' Hrun).
           ++ intros s _. apply unchanged_refl.
           ++ intros s1 s2 s3 H12 H23 Hv. specialize (H12 Hv).
              apply (unchanged_trans _ _ _ H12). apply H23.
              apply unchanged_length in H12. lia.
           ++ apply Forall_forall. intros x _ s r0 s' Hbody Hv.
              exact (proj2 (IH block environment s r0 s' Hbody Hv) Hnodef).
      * injection Hrun as _ <-. apply frame_same.
        apply int_state in Hint as ->. reflexivity.
      * injection Hrun as _ <-. apply frame_same.
        apply int_state in Hint as ->. reflexivity.
    + (* AstBlock *)
      rewrite run_block in Hrun. split.
      * revert Hvalid.
        refine (for_each_frame
                  (fun s s' => environment < length (envs s) ->
                               grows environment (envs s) (envs s'))
                  _ body _ _ _ st r st' Hrun).
        -- intros s _. apply grows_refl.
        -- intros s1 s2 s3 H12 H23 Hv. specialize (H12 Hv).
           apply (grows_trans _ _ _ _ H12). apply H23. destruct H12. lia.
        -- apply Forall_forall. intros x _ s r0 s' Hbody Hv.
           exact (proj1 (IH x environment s r0 s' Hbody Hv)).
      * intros Hnodef. cbn [no_definition] in Hnodef.
        rewrite forallb_forall in Hnodef. revert Hvalid.
        refine (for_each_frame
                  (fun s s' => environment < length (envs s) ->
                               unchanged (envs s) (envs s'))
                  _ body _ _ _ st r st' Hrun).
        -- intros s _. apply unchanged_refl.
        -- intros s1 s2 s3 H12 H23 Hv. specialize (H12 Hv).
           apply (unchanged_trans _ _ _ H12). apply H23.
           apply unchanged_length in H12. lia.
        -- apply Forall_forall. intros x Hx s r0 s' Hbody Hv.
           apply (proj2 (IH x environment s r0 s' Hbody Hv)).
           apply Hnodef. apply list_elem_of_In. exact Hx.
    + (* AstProcedure *)
      rewrite run_procedure in Hrun. injection Hrun as _ <-. split.
      * apply set_grows.
      * intros Hnodef. discriminate Hnodef.
    + (* AstProcedureCall *)
      assert (Hun : unchanged (envs st) (envs st')).
      { rewrite run_call in Hrun. unfold bind at 1 in Hrun.
        unfold env_resolve, gets in Hrun.
        destruct (truthy (Environment.resolve (envs st) environment procedure_name));
          cbn [negb] in Hrun; [|injection Hrun as _ <-; apply unchanged_refl].
        destruct (Environment.resolve (envs st) environment procedure_name)
          as [ | | | | | | | | |pname parameters instructions| |];
          try (injection Hrun as _ <-; apply unchanged_refl).
        destruct (bool_decide (length parameters <> length arguments));
          [injection Hrun as _ <-; apply unchanged_refl|].
        unfold bind at 1 in Hrun. unfold env_create_child in Hrun.
        cbn [Environment.create_child Environment.new] in Hrun.
        unfold bind in Hrun.
        destruct (for_each _ _ _) as [rl stl] eqn:Hloop in Hrun.
        destruct (bind_arguments_frame _ _ _ _ _ _ _ _ _ Hloop) as (m' & -> & ->).
        pose proof (IH _ _ _ _ _ Hrun) as Hbody. cbn [envs] in Hbody.
        destruct Hbody as [(_ & Hother & _) _]; [rewrite length_app; simpl; lia|].
        intros i e He. apply Hother.
        - apply lookup_lt_Some in He. lia.
        - apply lookup_app_l_Some. exact He. }
      split; [apply unchanged_grows; exact Hun | intros _; exact Hun].
    + injection Hrun as _ <-. apply frame_same. reflexivity.
Qed.

(** C9, as the code has it. Evaluating a node that is no procedure
    definition and holds none in its blocks and repeats leaves every
    environment of the store as it was, bindings and parent: so do movement
    and pen nodes, such blocks and repeats, and every procedure call,
    whatever the called body contains, since a call writes only into
    environments created during the call. Whatever the node, an evaluation
    only adds environments at the end of the store and bindings to the
    environment it runs in: no binding is removed and no other environment
    is written. *)
Theorem evaluation_frame (fuel : nat) (node : obj) (environment : loc)
    (st : State) (r : res unit) (st' : State) :
  run fuel node environment st = (r, st') ->
  environment < length (envs st) ->
  (no_definition node = true -> unchanged (envs st) (envs st'))
  /\ (forall procedure_name arguments,
        node = AstProcedureCall procedure_name arguments ->
        unchanged (envs st) (envs st'))
  /\ grows environment (envs st) (envs st').
Proof.
  intros Hrun Hvalid.
  destruct (run_frame fuel node environment st r st' Hrun Hvalid) as [Hgrows Hnodef].
  split; [exact Hnodef|]. split; [|exact Hgrows].
  intros procedure_name arguments ->. apply Hnodef. reflexivity.
Qed.

Lemma evaluation_frame_witness :
  unchanged (envs square_state)
    (envs (snd (run 4 (AstRepeat (PyFloat 2) (AstProcedureCall "square" [PyFloat 3]))
                  0 square_state))).
Proof.
  refine (proj1 (evaluation_frame 4
                   (AstRepeat (PyFloat 2) (AstProcedureCall "square" [PyFloat 3]))
                   0 square_state _ _ _ _) _).
  - apply surjective_pairing.
  - simpl. lia.
  - reflexivity.
Defined.

(** C9, as stated, fails on a block that holds a definition: the program
    [to f end] is such a block, and running it binds [f] in the global
    environment. *)
Lemma block_with_definition_binds :
  let node := AstBlock [AstProcedure "f" [] []] in
  let result := run 2 node 0 global_state in
  LogoParser.parse_text 9 "to f end" = Ok node
  /\ fst result = Ok tt
  /\ Environment._names <$> envs global_state !! 0 = Some ∅
  /\ Environment._names <$> envs (snd result) !! 0
     = Some {[ "f" := AstProcedure "f" [] [] ]}
  /\ ~ unchanged (envs global_state) (envs (snd result)).
Proof.
  cbv zeta. split; [vm_compute; reflexivity|]. split; [reflexivity|].
  split; [reflexivity|]. split; [reflexivity|].
  intros Hun. specialize (Hun 0 _ eq_refl). vm_compute in Hun. discriminate Hun.
Qed.

(** ** Strings *)

Lemma to_list_substring_app (s : string) :
  forall i k,
    Str.to_list (String.substring 0 i s) ++ Str.to_list (String.substring i k s)
    = Str.to_list (String.substring 0 (i + k) s).
Proof.
  induction s as [|a s IH]; intros i k.
  - destruct i, k; reflexivity.
  - destruct i as [|i].
    + reflexivity.
    + cbn [String.substring Str.to_list Nat.add app]. f_equal. apply IH.
Qed.

Lemma to_list_slice_app (s : string) (i k : nat) :
  Str.to_list (Str.slice s 0 i) ++ Str.to_list (Str.slice s i (i + k))
  = Str.to_list (Str.slice s 0 (i + k)).
Proof.
  unfold Str.slice. rewrite !Nat.sub_0_r.
  replace (i + k - i) with k by lia. apply to_list_substring_app.
Qed.

Lemma position_after_advance (text : string) (i k : nat) :
  foldl Lexer.advance_char (position_after text i)
    (Str.to_list (Str.slice text i (i + k)))
  = position_after text (i + k).
Proof.
  unfold position_after. rewrite <- foldl_app, to_list_slice_app. reflexivity.
Qed.

(** ** Reading characters *)

Lemma moves_refl (L : Lexer.t) : moves L L.
Proof. split; auto. Qed.

Lemma moves_trans (L1 L2 L3 : Lexer.t) : moves L1 L2 -> moves L2 L3 -> moves L1 L3.
Proof.
  intros [Ht1 Hp1 Hb1 Hl1 Ho1 Hk1] [Ht2 Hp2 Hb2 Hl2 Ho2 Hk2]. split.
  - congruence.
  - congruence.
  - congruence.
  - congruence.
  - intros a Ha. rewrite Ho2 by congruence. apply Ho1, Ha.
  - auto.
Qed.

Lemma preserves_ret {A : Type} (R : Lexer.t -> Lexer.t -> Prop) (a : A) :
  (forall L, R L L) -> preserves R (ret a).
Proof. intros Hrefl L r L' [= _ <-]. apply Hrefl. Qed.

Lemma preserves_raise {A : Type} (R : Lexer.t -> Lexer.t -> Prop) (e : exn) :
  (forall L, R L L) -> preserves R (@raise Lexer.t A e).
Proof. intros Hrefl L r L' [= _ <-]. apply Hrefl. Qed.

Lemma preserves_out_of_fuel {A : Type} (R : Lexer.t -> Lexer.t -> Prop) :
  (forall L, R L L) -> preserves R (@out_of_fuel Lexer.t A).
Proof. intros Hrefl L r L' [= _ <-]. apply Hrefl. Qed.

Lemma preserves_gets {A : Type} (R : Lexer.t -> Lexer.t -> Prop) (f : Lexer.t -> A) :
  (forall L, R L L) -> preserves R (gets f).
Proof. intros Hrefl L r L' [= _ <-]. apply Hrefl. Qed.

Lemma preserves_bind {A B : Type} (R : Lexer.t -> Lexer.t -> Prop)
    (c : comp Lexer.t A) (k : A -> comp Lexer.t B) :
  (forall L1 L2 L3, R L1 L2 -> R L2 L3 -> R L1 L3) ->
  preserves R c -> (forall a, preserves R (k a)) -> preserves R (bind c k).
Proof.
  intros Htrans Hc Hk L r L' Hrun. unfold bind in Hrun.
  destruct (c L) as [[a|e|] L1] eqn:HcL.
  - exact (Htrans _ _ _ (Hc _ _ _ HcL) (Hk a _ _ _ Hrun)).
  - injection Hrun as _ <-. exact (Hc _ _ _ HcL).
  - injection Hrun as _ <-. exact (Hc _ _ _ HcL).
Qed.

Lemma advance_moves (offset : nat) : preserves moves (Lexer._advance offset).
Proof.
  intros L r L' Hrun. unfold Lexer._advance in Hrun.
  set (chars := Str.to_list
                  (Str.slice (Lexer.text L) (Lexer._index L) (Lexer._index L + offset)))
    in Hrun.
  set (L1 := Lexer.set_index (Lexer._index L + offset)
               (Lexer.set_heap
                  (alter (fun p => foldl Lexer.advance_char p chars)
                     (Lexer.position L) (Lexer.heap L)) L)) in Hrun.
  assert (HL' : L' = L1) by (destruct (decide _) in Hrun; congruence).
  subst L'. clear Hrun. split.
  - reflexivity.
  - reflexivity.
  - reflexivity.
  - cbn. apply length_alter.
  - intros a Ha. cbn. apply list_lookup_alter_ne. congruence.
  - unfold tracks. cbn [L1 Lexer.heap Lexer.position Lexer.text Lexer._index
                         Lexer.set_index Lexer.set_heap].
    intros Htracks. rewrite list_lookup_alter_eq, Htracks. cbn [fmap option_fmap option_map].
    f_equal. apply position_after_advance.
Qed.

Lemma pop_c_moves (size : nat) : preserves moves (Lexer._pop_c size).
Proof.
  intros L r L' Hrun. unfold Lexer._pop_c in Hrun.
  destruct (decide _) in Hrun.
  - injection Hrun as _ <-. apply moves_refl.
  - revert Hrun. apply preserves_bind.
    + apply moves_trans.
    + apply advance_moves.
    + intros _. apply preserves_ret, moves_refl.
Qed.

Lemma peek_c_moves (offset : nat) : preserves moves (Lexer._peek_c offset).
Proof. apply preserves_gets, moves_refl. Qed.

Lemma get_while_loop_moves (cond : string -> bool) (fuel : nat) :
  forall res, preserves moves (Lexer.get_while_loop fuel cond res).
Proof.
  induction fuel as [|fuel IH]; intros res.
  - apply preserves_out_of_fuel, moves_refl.
  - cbn [Lexer.get_while_loop]. apply preserves_bind.
    + apply moves_trans.
    + apply peek_c_moves.
    + intros [c|]; [|apply preserves_ret, moves_refl].
      destruct (negb (Str.truthy c)); [apply preserves_ret, moves_refl|].
      destruct (negb (cond c)); [apply preserves_ret, moves_refl|].
      apply preserves_bind; [apply moves_trans | apply advance_moves | intros _; apply IH].
Qed.

Lemma get_while_moves (cond : string -> bool) : preserves moves (Lexer.get_while cond).
Proof. intros L r L' Hrun. exact (get_while_loop_moves cond _ _ _ _ _ Hrun). Qed.

Lemma eat_comment_moves (fuel : nat) : preserves moves (Lexer.eat_comment fuel).
Proof.
  induction fuel as [|fuel IH].
  - apply preserves_out_of_fuel, moves_refl.
  - cbn [Lexer.eat_comment]. apply preserves_bind.
    + apply moves_trans.
    + apply pop_c_moves.
    + intros c. destruct (bool_decide _); [apply preserves_ret, moves_refl | exact IH].
Qed.

Lemma eat_spaces_moves (fuel : nat) : preserves moves (Lexer.eat_spaces fuel).
Proof.
  induction fuel as [|fuel IH].
  - apply preserves_out_of_fuel, moves_refl.
  - cbn [Lexer.eat_spaces].
    apply preserves_bind; [apply moves_trans | apply get_while_moves |].
    intros spaces.
    apply preserves_bind; [apply moves_trans | apply peek_c_moves |].
    intros next_char.
    destruct (negb (Str.truthy_opt next_char)); [apply preserves_ret, moves_refl|].
    destruct (bool_decide (next_char = Some "#")).
    + apply preserves_bind; [apply moves_trans | apply advance_moves |]. intros _.
      apply preserves_bind; [apply moves_trans | apply eat_comment_moves |]. intros _.
      exact IH.
    + destruct (negb (Str.truthy spaces)); [apply preserves_ret, moves_refl | exact IH].
Qed.

(** ** Making tokens *)

Lemma tokenizes_Token (kind : TokenKind) (content : option string) :
  tokenizes (Lexer._Token kind content).
Proof.
  intros L r L' Hrun. injection Hrun as <- <-.
  exists L. split; [apply moves_refl|]. split; reflexivity.
Qed.

Lemma tokenizes_ret_none : tokenizes (ret None).
Proof.
  intros L r L' Hrun. injection Hrun as <- <-.
  exists L. split; [apply moves_refl | reflexivity].
Qed.

Lemma tokenizes_raise (e : exn) : tokenizes (raise e).
Proof.
  intros L r L' Hrun. injection Hrun as <- <-.
  exists L. split; [apply moves_refl | reflexivity].
Qed.

Lemma tokenizes_bind {A : Type} (c : comp Lexer.t A) (k : A -> comp Lexer.t (option Token.t)) :
  preserves moves c -> (forall a, tokenizes (k a)) -> tokenizes (bind c k).
Proof.
  intros Hc Hk L r L' Hrun. unfold bind in Hrun.
  destruct (c L) as [[a|e|] L0] eqn:HcL.
  - destruct (Hk a _ _ _ Hrun) as (L1 & Hmoves & Hfin).
    exists L1. split; [|exact Hfin].
    exact (moves_trans _ _ _ (Hc _ _ _ HcL) Hmoves).
  - injection Hrun as <- <-. exists L0. split; [exact (Hc _ _ _ HcL) | reflexivity].
  - injection Hrun as <- <-. exists L0. split; [exact (Hc _ _ _ HcL) | reflexivity].
Qed.

Lemma pop_number_tokenizes (c : string) : tokenizes (Lexer.pop_number c).
Proof.
  unfold Lexer.pop_number. apply tokenizes_bind.
  { destruct (bool_decide (c = "-")); [apply pop_c_moves | apply preserves_ret, moves_refl]. }
  intros [c'|]; [|apply tokenizes_raise].
  destruct (Str.isnumeric c').
  - apply tokenizes_bind; [apply get_while_moves|]. intros digits.
    apply tokenizes_bind; [apply peek_c_moves|]. intros dot.
    apply tokenizes_bind.
    + destruct (bool_decide (dot = Some ".")); [|apply preserves_ret, moves_refl].
      apply preserves_bind; [apply moves_trans | apply advance_moves |]. intros _.
      apply preserves_bind; [apply moves_trans | apply get_while_moves |].
      intros rational_part.
      destruct (negb (Str.truthy rational_part)); apply preserves_ret, moves_refl.
    + intros [number_literal|]; [apply tokenizes_Token | apply tokenizes_ret_none].
  - destruct (bool_decide (c = "-")); [apply tokenizes_raise | apply tokenizes_ret_none].
Qed.

(** [pop] on an empty buffer. *)
Lemma pop_empty_buffer (fuel : nat) (L : Lexer.t) (r : res (option Token.t)) (L' : Lexer.t) :
  Lexer._buffer L = [] ->
  Lexer.pop fuel L = (r, L') ->
  exists L1, moves L L1 /\ finishes L1 r L'.
Proof.
  intros Hbuffer Hrun. unfold Lexer.pop in Hrun. rewrite Hbuffer in Hrun.
  clear Hbuffer. revert L r L' Hrun.
  change (tokenizes
    (let! _ := Lexer.eat_spaces fuel in
     let! c := Lexer._pop_c 1 in
     match c with
     | None => Lexer._Token EOF None
     | Some c =>
         if negb (Str.truthy c) then Lexer._Token EOF None
         else if bool_decide (c = "[") then Lexer._Token LBRACE None
         else if bool_decide (c = "]") then Lexer._Token RBRACE None
         else if Str.isalpha c then
           let! rest := Lexer.get_while Lexer.is_identifier_char in
           let identifier_content := c +:+ rest in
           match Lexer.keyword identifier_content with
           | Some kind => Lexer._Token kind None
           | None => Lexer._Token IDENTIFIER (Some identifier_content)
           end
         else if bool_decide (c = ":") then
           let! rest := Lexer.get_while Lexer.is_identifier_char in
           Lexer._Token SYMBOL (Some (c +:+ rest))
         else Lexer.pop_number c
     end)).
  apply tokenizes_bind; [apply eat_spaces_moves|]. intros _.
  apply tokenizes_bind; [apply pop_c_moves|]. intros [c|]; [|apply tokenizes_Token].
  destruct (negb (Str.truthy c)); [apply tokenizes_Token|].
  destruct (bool_decide (c = "[")); [apply tokenizes_Token|].
  destruct (bool_decide (c = "]")); [apply tokenizes_Token|].
  destruct (Str.isalpha c).
  - apply tokenizes_bind; [apply get_while_moves|]. intros rest. cbv zeta.
    destruct (Lexer.keyword (c +:+ rest)); apply tokenizes_Token.
  - destruct (bool_decide (c = ":")); [|apply pop_number_tokenizes].
    apply tokenizes_bind; [apply get_while_moves|]. intros rest. apply tokenizes_Token.
Qed.

(** ** The invariant of the lexer *)

Lemma keeps_objects_refl (L : Lexer.t) : keeps_objects L L.
Proof. split; [reflexivity|]. split; [lia|]. auto. Qed.

Lemma keeps_objects_trans (L1 L2 L3 : Lexer.t) :
  keeps_objects L1 L2 -> keeps_objects L2 L3 -> keeps_objects L1 L3.
Proof.
  intros (Hp1 & Hl1 & Ho1) (Hp2 & Hl2 & Ho2). split; [congruence|]. split; [lia|].
  intros a Ha Hne. rewrite Ho2 by (try lia; congruence). apply Ho1; assumption.
Qed.

Lemma copy_same (p : FilePosition.t) : FilePosition.copy p = p.
Proof. destruct p. reflexivity. Qed.

Lemma token_ok_set_buffer (b : list (option Token.t)) (L : Lexer.t) (tok : Token.t) :
  token_ok (Lexer.set_buffer b L) tok <-> token_ok L tok.
Proof. reflexivity. Qed.

Lemma pop_inv (fuel : nat) (L : Lexer.t) (r : res (option Token.t)) (L' : Lexer.t) :
  Lexer.pop fuel L = (r, L') -> lexer_inv L -> pop_post L r L'.
Proof.
  intros Hrun [Htracks Hbuffer].
  destruct (Lexer._buffer L) as [|o rest] eqn:Hb.
  - destruct (pop_empty_buffer fuel L r L' Hb Hrun) as (L1 & Hmoves & Hfin).
    pose proof (moves_tracks _ _ Hmoves Htracks) as Htracks1.
    pose proof (lookup_lt_Some _ _ _ Htracks1) as Hvalid1.
    assert (Hkeeps : keeps_objects L L1).
    { split; [apply (moves_position _ _ Hmoves)|].
      split; [rewrite (moves_length _ _ Hmoves); lia|].
      intros a _ Hne. apply (moves_others _ _ Hmoves), Hne. }
    assert (Hb1 : Lexer._buffer L1 = []) by (rewrite (moves_buffer _ _ Hmoves); exact Hb).
    assert (Hother : forall r0, finishes L1 r0 L' ->
              (forall tok, r0 <> Ok (Some tok)) -> pop_post L r0 L').
    { intros r0 Hfin0 Hno.
      assert (L' = L1) as ->.
      { destruct r0 as [[tok|]| |]; try exact Hfin0. destruct (Hno tok eq_refl). }
      split; [split; [exact Htracks1 | unfold buffer_ok; rewrite Hb1; constructor]|].
      split; [exact Hkeeps|]. split; [apply (moves_text _ _ Hmoves)|].
      intros tok ->. destruct (Hno tok eq_refl). }
    destruct r as [[tok|]| |]; try (apply Hother; [exact Hfin | intros tok; discriminate]).
    destruct Hfin as [-> Hpos].
    assert (Hself : (Lexer.heap L1
                       ++ [FilePosition.copy (Lexer.heap L1 !!! Lexer.position L1)])
                    !! Lexer.position L1
                    = Some (position_after (Lexer.text L1) (Lexer._index L1))).
    { rewrite lookup_app_l by exact Hvalid1. exact Htracks1. }
    assert (Htok : token_ok
                     (Lexer.set_heap
                        (Lexer.heap L1
                           ++ [FilePosition.copy (Lexer.heap L1 !!! Lexer.position L1)]) L1)
                     tok).
    { unfold token_ok. cbn [Lexer.set_heap Lexer.heap Lexer.position]. rewrite Hpos.
      split; [rewrite length_app; simpl; lia|]. split; [lia|].
      rewrite Hself. rewrite list_lookup_middle by reflexivity.
      rewrite (list_lookup_total_correct _ _ _ Htracks1), copy_same. reflexivity. }
    split; [split|].
    + exact Hself.
    + unfold buffer_ok. cbn [Lexer.set_heap Lexer._buffer]. rewrite Hb1. constructor.
    + split; [|split].
      * apply (keeps_objects_trans _ L1); [exact Hkeeps|].
        split; [reflexivity|]. cbn [Lexer.set_heap Lexer.heap].
        split; [rewrite length_app; lia|].
        intros a Ha _. apply lookup_app_l. exact Ha.
      * apply (moves_text _ _ Hmoves).
      * intros tok' [= <-]. exact Htok.
  - unfold Lexer.pop in Hrun. rewrite Hb in Hrun. injection Hrun as <- <-.
    unfold buffer_ok in Hbuffer. rewrite Hb in Hbuffer.
    apply Forall_cons in Hbuffer as [Hhead Hrest].
    split; [split; [exact Htracks | exact Hrest]|].
    split; [exact (keeps_objects_refl L)|]. split; [reflexivity|].
    intros tok [= ->]. exact Hhead.
Qed.

Lemma buffer_ok_push (L : Lexer.t) (o : option Token.t) :
  buffer_ok L -> match o with Some tok => token_ok L tok | None => True end ->
  buffer_ok (Lexer.set_buffer (Lexer._buffer L ++ [o]) L).
Proof.
  intros Hbuffer Ho. unfold buffer_ok. cbn [Lexer.set_buffer Lexer._buffer].
  apply Forall_app. split; [exact Hbuffer|]. constructor; [exact Ho | constructor].
Qed.

Lemma lex_step_inv (L L' : Lexer.t) :
  lex_step L L' -> lexer_inv L ->
  lexer_inv L' /\ keeps_objects L L' /\ Lexer.text L' = Lexer.text L.
Proof.
  intros Hstep Hinv. destruct Hstep as [fuel L L' r Hrun|fuel L L' r Hrun
                                        |fuel kind L L' r Hrun|fuel kind L L' r Hrun].
  - destruct (pop_inv _ _ _ _ Hrun Hinv) as ([Ht Hbuf] & H2 & H3 & _). lexer_inv_kept.
  - unfold Lexer.peek in Hrun. destruct (Lexer._buffer L) as [|o rest] eqn:Hb.
    + unfold bind in Hrun. destruct (Lexer.pop fuel L) as [[o| |] L1] eqn:Hpop;
        destruct (pop_inv _ _ _ _ Hpop Hinv) as ([Ht Hbuf] & H2 & H3 & Htok);
        injection Hrun as _ <-; [|lexer_inv_kept..].
      split; [|split; assumption]. split; [exact Ht|].
      apply buffer_ok_push; [exact Hbuf|]. destruct o as [tok|]; [|exact I].
      apply Htok. reflexivity.
    + injection Hrun as _ <-. split; [exact Hinv|].
      split; [apply keeps_objects_refl | reflexivity].
  - unfold Lexer.match_, bind in Hrun.
    destruct (Lexer.pop fuel L) as [[o| |] L1] eqn:Hpop;
      destruct (pop_inv _ _ _ _ Hpop Hinv) as ([Ht Hbuf] & H2 & H3 & _);
      [|injection Hrun as _ <-; lexer_inv_kept..].
    destruct o as [tok|]; [|injection Hrun as _ <-; lexer_inv_kept].
    destruct (bool_decide _); injection Hrun as _ <-; lexer_inv_kept.
  - unfold Lexer.maybe_match, bind in Hrun.
    destruct (Lexer.pop fuel L) as [[o| |] L1] eqn:Hpop;
      destruct (pop_inv _ _ _ _ Hpop Hinv) as ([Ht Hbuf] & H2 & H3 & Htok);
      [|injection Hrun as _ <-; lexer_inv_kept..].
    destruct o as [tok|]; [|injection Hrun as _ <-; lexer_inv_kept].
    destruct (bool_decide _); injection Hrun as _ <-; [|lexer_inv_kept].
    split; [|split; assumption]. split; [exact Ht|].
    apply buffer_ok_push; [exact Hbuf|]. apply Htok. reflexivity.
Qed.

Lemma lexes_inv (L L' : Lexer.t) :
  lexes L L' -> lexer_inv L ->
  lexer_inv L' /\ keeps_objects L L' /\ Lexer.text L' = Lexer.text L.
Proof.
  intros Hlexes. induction Hlexes as [L|L1 L2 L3 Hstep _ IH]; intros Hinv.
  - split; [exact Hinv|]. split; [apply keeps_objects_refl | reflexivity].
  - destruct (lex_step_inv _ _ Hstep Hinv) as (Hinv2 & Hk12 & Ht12).
    destruct (IH Hinv2) as (Hinv3 & Hk23 & Ht23).
    split; [exact Hinv3|]. split; [exact (keeps_objects_trans _ _ _ Hk12 Hk23) | congruence].
Qed.

Lemma new_lexer_inv (text : string) : lexer_inv (Lexer.new text).
Proof.
  split; [|constructor]. unfold tracks, position_after.
  destruct text; reflexivity.
Qed.

(** ** The text still to be read *)

Lemma substring_to_end (s : string) :
  forall i,
    (String.length s <= i /\ String.substring i (String.length s - i) s = "")
    \/ (exists c r,
          i < String.length s
          /\ String.get i s = Some c
          /\ String.substring i (String.length s - i) s = String c r
          /\ String.substring (S i) (String.length s - S i) s = r
          /\ String.substring i 1 s = String c "").
Proof.
  induction s as [|a s IH]; intros i.
  - left. split; [simpl; lia|]. destruct i; reflexivity.
  - destruct i as [|i].
    + right. exists a, (String.substring 0 (String.length s) s).
      split; [simpl; lia|]. split; [reflexivity|]. split; [reflexivity|].
      split; [cbn; rewrite Nat.sub_0_r; reflexivity|].
      cbn. destruct s; reflexivity.
    + destruct (IH i) as [[Hlen Hsub]|(c & r & Hlt & Hget & Hsub & Hnext & Hone)].
      * left. split; [simpl; lia|]. exact Hsub.
      * right. exists c, r. split; [simpl; lia|]. split; [exact Hget|].
        split; [exact Hsub|]. split; [exact Hnext | exact Hone].
Qed.

Lemma remaining_cases (L : Lexer.t) :
  (remaining L = "" /\ Lexer._text_len L <= Lexer._index L)
  \/ (exists c r,
        remaining L = String c r
        /\ Lexer._index L < Lexer._text_len L
        /\ String.get (Lexer._index L) (Lexer.text L) = Some c
        /\ Str.slice (Lexer.text L) (Lexer._index L) (Lexer._index L + 1) = String c ""
        /\ Str.slice (Lexer.text L) (Lexer._index L + 1) (Lexer._text_len L) = r).
Proof.
  unfold remaining, Str.slice, Lexer._text_len.
  replace (Lexer._index L + 1 - Lexer._index L) with 1 by lia.
  rewrite Nat.add_1_r.
  destruct (substring_to_end (Lexer.text L) (Lexer._index L))
    as [[Hlen Hsub]|(c & r & Hlt & Hget & Hsub & Hnext & Hone)].
  - left. split; assumption.
  - right. exists c, r. repeat split; assumption.
Qed.

Lemma length_substring_le (s : string) :
  forall i m, String.length (String.substring i m s) <= m.
Proof.
  induction s as [|a s IH]; intros i m.
  - destruct i, m; simpl; lia.
  - destruct i as [|i].
    + destruct m as [|m]; [simpl; lia|]. cbn. specialize (IH 0 m). lia.
    + cbn. apply IH.
Qed.

Lemma length_remaining (L : Lexer.t) :
  String.length (remaining L) <= Lexer._text_len L - Lexer._index L.
Proof. apply length_substring_le. Qed.

Lemma peek_next (L : Lexer.t) (c : ascii) (r : string) :
  remaining L = String c r ->
  Lexer._peek_c 0 L = (Ok (Some (String c "")), L).
Proof.
  intros Hrem. destruct (remaining_cases L) as [[Hnil _]|(c' & r' & Hrem' & Hlt & Hget & _)];
    [congruence|].
  assert (c' = c) as -> by congruence.
  unfold Lexer._peek_c, gets, Str.at_index. rewrite Nat.add_0_r.
  rewrite decide_True by exact Hlt. rewrite Hget. reflexivity.
Qed.

Lemma peek_end (L : Lexer.t) :
  remaining L = "" -> Lexer._peek_c 0 L = (Ok None, L).
Proof.
  intros Hrem. destruct (remaining_cases L) as [[_ Hlen]|(c' & r' & Hrem' & _)];
    [|congruence].
  unfold Lexer._peek_c, gets. rewrite Nat.add_0_r.
  rewrite decide_False by lia. reflexivity.
Qed.

Lemma advance_next (L : Lexer.t) (c : ascii) (r : string) :
  remaining L = String c r ->
  Lexer._advance 1 L = (Ok tt, advanced c L) /\ remaining (advanced c L) = r.
Proof.
  intros Hrem. destruct (remaining_cases L) as [[Hnil _]|(c' & r' & Hrem' & Hlt & _ & Hone & Hnext)];
    [congruence|].
  assert (c' = c) as -> by congruence. assert (r' = r) as -> by congruence.
  split.
  - unfold Lexer._advance. rewrite Hone. cbn [Str.to_list foldl].
    rewrite decide_False; [reflexivity|].
    cbn [Lexer.set_index Lexer.set_heap Lexer._index Lexer.text].
    unfold Lexer._text_len in Hlt. lia.
  - exact Hnext.
Qed.

Lemma pop_c_next (L : Lexer.t) (c : ascii) (r : string) :
  remaining L = String c r ->
  Lexer._pop_c 1 L = (Ok (Some (String c "")), advanced c L).
Proof.
  intros Hrem. destruct (remaining_cases L) as [[Hnil _]|(c' & r' & Hrem' & Hlt & _ & Hone & _)];
    [congruence|].
  assert (c' = c) as -> by congruence.
  unfold Lexer._pop_c. rewrite decide_False by lia. rewrite Hone.
  rewrite (bind_ok _ _ _ _ _ (proj1 (advance_next L c r Hrem))). reflexivity.
Qed.

Lemma pop_c_end (L : Lexer.t) :
  remaining L = "" -> Lexer._pop_c 1 L = (Ok None, L).
Proof.
  intros Hrem. destruct (remaining_cases L) as [[_ Hlen]|(c' & r' & Hrem' & _)];
    [|congruence].
  unfold Lexer._pop_c. rewrite decide_True by lia. reflexivity.
Qed.

Lemma append_empty_r (s : string) : s +:+ "" = s.
Proof.
  induction s as [|a s IH]; [reflexivity|].
  change (String a s +:+ "") with (String a (s +:+ "")). rewrite IH. reflexivity.
Qed.

Lemma append_snoc (s : string) (c : ascii) (t : string) :
  (s +:+ String c "") +:+ t = s +:+ String c t.
Proof.
  induction s as [|a s IH]; [reflexivity|].
  change ((String a s +:+ String c "") +:+ t) with (String a ((s +:+ String c "") +:+ t)).
  rewrite IH. reflexivity.
Qed.

Lemma advanced_by_app (s t : string) :
  forall L, advanced_by (s +:+ t) L = advanced_by t (advanced_by s L).
Proof.
  induction s as [|a s IH]; intros L; [reflexivity|].
  change (String a s +:+ t) with (String a (s +:+ t)). cbn [advanced_by]. apply IH.
Qed.

(** [get_while] returns the longest prefix of the remaining text whose
    characters satisfy the condition, and leaves the lexer past it. *)
Lemma get_while_loop_spec (cond : string -> bool) (fuel : nat) :
  forall L res,
    String.length (remaining L) < fuel ->
    Lexer.get_while_loop fuel cond res L
    = (Ok (res +:+ fst (span cond (remaining L))),
       advanced_by (fst (span cond (remaining L))) L).
Proof.
  induction fuel as [|fuel IH]; intros L res Hfuel; [lia|].
  cbn [Lexer.get_while_loop].
  destruct (remaining L) as [|c r] eqn:Hrem.
  - rewrite (bind_ok _ _ _ _ _ (peek_end L Hrem)). cbn [span fst advanced_by].
    rewrite append_empty_r. reflexivity.
  - rewrite (bind_ok _ _ _ _ _ (peek_next L c r Hrem)). cbn [Str.truthy negb span].
    destruct (cond (String c "")); cbn [negb].
    + destruct (advance_next L c r Hrem) as [Hadv Hrest].
      rewrite (bind_ok _ _ _ _ _ Hadv). rewrite IH by (rewrite Hrest; simpl in Hfuel; lia).
      rewrite Hrest. destruct (span cond r) as [a b]. cbn [fst advanced_by].
      rewrite append_snoc. reflexivity.
    + cbn [fst advanced_by]. rewrite append_empty_r. reflexivity.
Qed.

Lemma get_while_spec (cond : string -> bool) (L : Lexer.t) :
  Lexer.get_while cond L
  = (Ok (fst (span cond (remaining L))), advanced_by (fst (span cond (remaining L))) L).
Proof.
  unfold Lexer.get_while. rewrite get_while_loop_spec; [reflexivity|].
  pose proof (length_remaining L). lia.
Qed.

(** [get_while] always returns. *)
Lemma get_while_total (cond : string -> bool) (L : Lexer.t) :
  exists s L', Lexer.get_while cond L = (Ok s, L').
Proof. rewrite get_while_spec. eauto. Qed.

Lemma remaining_advanced_by (s : string) :
  forall L t, remaining L = s +:+ t -> remaining (advanced_by s L) = t.
Proof.
  induction s as [|a s IH]; intros L t Hrem; [exact Hrem|].
  cbn [advanced_by]. apply IH. exact (proj2 (advance_next L a _ Hrem)).
Qed.

Lemma span_prefix (cond : string -> bool) (s t : string) :
  Str.all_chars (fun c => cond (String c "")) s = true ->
  match t with
  | EmptyString => True
  | String c _ => cond (String c "") = false
  end ->
  span cond (s +:+ t) = (s, t).
Proof.
  intros Hall Hstop. induction s as [|a s IH].
  - destruct t as [|c t]; [reflexivity|]. cbn [String.append span].
    change ("" +:+ String c t) with (String c t). cbn [span]. rewrite Hstop. reflexivity.
  - cbn [Str.all_chars] in Hall. apply andb_prop in Hall as [Ha Hs].
    change (String a s +:+ t) with (String a (s +:+ t)). cbn [span].
    rewrite Ha, (IH Hs). reflexivity.
Qed.

(** ** Characters that start a numeral *)



Lemma isnumeric_one (c : ascii) : Str.isnumeric (String c "") = Str.char_isnumeric c.
Proof. unfold Str.isnumeric. cbn. apply andb_true_r. Qed.

Lemma isspace_one (c : ascii) : Str.isspace (String c "") = Str.char_isspace c.
Proof. unfold Str.isspace. cbn. apply andb_true_r. Qed.

(** ** Comments *)

Lemma eat_comment_never_ends (fuel : nat) :
  forall L, no_newline (remaining L) = true -> fst (Lexer.eat_comment fuel L) = OutOfFuel.
Proof.
  induction fuel as [|fuel IH]; intros L Hno; [reflexivity|].
  cbn [Lexer.eat_comment]. destruct (remaining L) as [|c r] eqn:Hrem.
  - rewrite (bind_ok _ _ _ _ _ (pop_c_end L Hrem)).
    rewrite bool_decide_eq_false_2 by discriminate.
    apply IH. rewrite Hrem. reflexivity.
  - rewrite (bind_ok _ _ _ _ _ (pop_c_next L c r Hrem)).
    unfold no_newline in Hno. cbn [Str.all_chars] in Hno.
    apply andb_prop in Hno as [Hc Hr].
    rewrite bool_decide_eq_false_2.
    + apply IH. rewrite (proj2 (advance_next L c r Hrem)). exact Hr.
    + intros [= ->]. rewrite Ascii.eqb_refl in Hc. discriminate Hc.
Qed.

(** C4, at the inputs where the code leaves the claim. When the lexer
    stands on the [#] of a comment and no newline follows before the end of
    the text, the skipping of spaces and comments returns with no amount of
    fuel: the inner loop pops [None] at the end of the text, which is not a
    newline, and goes on. [pop] does not return either. *)
Theorem comment_without_newline_never_ends (fuel : nat) (L : Lexer.t) (comment : string) :
  remaining L = String "#" comment ->
  no_newline comment = true ->
  fst (Lexer.eat_spaces fuel L) = OutOfFuel
  /\ (Lexer._buffer L = [] -> fst (Lexer.pop fuel L) = OutOfFuel).
Proof.
  intros Hrem Hno.
  assert (Heat : fst (Lexer.eat_spaces fuel L) = OutOfFuel).
  { destruct fuel as [|fuel]; [reflexivity|]. cbn [Lexer.eat_spaces].
    assert (Hspaces : Lexer.get_while Str.isspace L = (Ok "", L))
      by (rewrite get_while_spec, Hrem; reflexivity).
    rewrite (bind_ok _ _ _ _ _ Hspaces).
    rewrite (bind_ok _ _ _ _ _ (peek_next L _ _ Hrem)).
    cbn [Str.truthy_opt Str.truthy negb]. rewrite bool_decide_eq_true_2 by reflexivity.
    destruct (advance_next L _ _ Hrem) as [Hadv Hrest].
    rewrite (bind_ok _ _ _ _ _ Hadv).
    pose proof (eat_comment_never_ends fuel (advanced "#" L)) as Hloop.
    rewrite Hrest in Hloop. specialize (Hloop Hno).
    unfold bind at 1.
    destruct (Lexer.eat_comment fuel (advanced "#" L)) as [[[]| |] L1];
      try discriminate Hloop. reflexivity. }
  split; [exact Heat|].
  intros Hbuffer. unfold Lexer.pop. rewrite Hbuffer. unfold bind at 1.
  destruct (Lexer.eat_spaces fuel L) as [[[]| |] L1]; try discriminate Heat. reflexivity.
Qed.

Lemma comment_without_newline_never_ends_witness :
  fst (Lexer.eat_spaces 1000 (Lexer.new "# the end")) = OutOfFuel
  /\ fst (Lexer.pop 1000 (Lexer.new "# the end")) = OutOfFuel.
Proof.
  destruct (comment_without_newline_never_ends 1000 (Lexer.new "# the end") " the end"
              eq_refl eq_refl) as [Heat Hpop].
  split; [exact Heat | exact (Hpop eq_refl)].
Defined.

(** ** Numerals with a dot and no digit after it *)






(** ** Movement commands without an argument *)

(** C6, at the inputs where the code leaves the claim. After FORWARD (or
    ROTATE, or BACKWARD) a token that is neither a NUMBER nor a SYMBOL makes
    [parse_expression] return [None], and the node is built with that
    [None]: parsing succeeds, the token is read as the next instruction, and
    the evaluator hands [None] to the turtle. [parse_number], which the
    parser defines and never calls, does raise on the same token. *)
Theorem movement_without_argument_is_parsed :
  LogoParser.parse_text 9 "forward penup" = Ok (AstBlock [AstForward PyNone; AstPenUp])
  /\ LogoParser.parse_text 9 "rotate" = Ok (AstBlock [AstRotate PyNone])
  /\ LogoParser.parse_text 9 "backward forward 1"
     = Ok (AstBlock [AstBackward PyNone; AstForward (PyFloat 1)])
  /\ interpret 9 "forward penup"
     = (Ok tt, mkState (envs global_state) [Turtle.forward PyNone; Turtle.penup])
  /\ fst (LogoParser.parse_number 9 (Lexer.new "penup"))
     = Raise (LogoParserError
                "Error trying to parse ppm file: expecting 'NUMBER' get a 'PENUP'"
                (Some 0)).
Proof. repeat split; vm_compute; reflexivity. Qed.

(** ** The model on the examples of the specification *)

Example keywords_ignore_case :
  fst (Lexer.pop 1 (Lexer.new "repeat")) = Ok (Some (Token.new REPEAT 1 None))
  /\ fst (Lexer.pop 1 (Lexer.new "REPEAT")) = Ok (Some (Token.new REPEAT 1 None))
  /\ fst (Lexer.pop 1 (Lexer.new "RePeAt")) = Ok (Some (Token.new REPEAT 1 None))
  /\ fst (Lexer.pop 1 (Lexer.new "Repeat1"))
     = Ok (Some (Token.new IDENTIFIER 1 (Some "Repeat1"))).
Proof. repeat split; vm_compute; reflexivity. Qed.

Example int_truncates_toward_zero :
  Float.to_int 3.75 = Ok 3%Z /\ Float.to_int (-3.75) = Ok (-3)%Z
  /\ Float.to_int 0.5 = Ok 0%Z /\ Float.to_int (-0.5) = Ok 0%Z.
Proof. repeat split; vm_compute; reflexivity. Qed.

Example parse_forward :
  LogoParser.parse_text 9 "forward 10" = Ok (AstBlock [AstForward (PyFloat 10)]).
Proof. vm_compute. reflexivity. Qed.

Example parse_repeat :
  LogoParser.parse_text 9 "repeat 4 [ forward 10 rotate 90 ]"
  = Ok (AstBlock
          [AstRepeat (PyFloat 4)
             (AstBlock [AstForward (PyFloat 10); AstRotate (PyFloat 90)])]).
Proof. vm_compute. reflexivity. Qed.

Example run_repeat_interleaves :
  turtle (snd (interpret 9 "repeat 2 [ forward 10 rotate 90 ]"))
  = [Turtle.forward (PyFloat 10); Turtle.left (PyFloat 90);
     Turtle.forward (PyFloat 10); Turtle.left (PyFloat 90)].
Proof. vm_compute. reflexivity. Qed.

Example run_square :
  let result := interpret 40 "to square :s forward :s rotate 90 forward :s rotate 90 end square 50" in
  fst result = Ok tt
  /\ turtle (snd result)
     = [Turtle.forward (PyFloat 50); Turtle.left (PyFloat 90);
        Turtle.forward (PyFloat 50); Turtle.left (PyFloat 90)]
  /\ Environment.parent <$> envs (snd result) = [None; Some 0].
Proof. cbv zeta. repeat split; vm_compute; reflexivity. Qed.

(** Characters of the upper half: U+00E9 is a letter and goes on a word,
    U+00B2 is numeric and goes on a numeral, on which [float] then raises,
    and the no-break space U+00A0 is skipped as whitespace. *)
Example upper_half_characters :
  fst (Lexer.pop 1 (Lexer.new (String "a" (String "233" ""))))
  = Ok (Some (Token.new IDENTIFIER 1 (Some (String "a" (String "233" "")))))
  /\ fst (Lexer.pop 1 (Lexer.new (String "1" (String "2" (String "178" "")))))
     = Ok (Some (Token.new NUMBER 1 (Some (String "1" (String "2" (String "178" ""))))))
  /\ LogoParser.parse_text 3 ("forward 12" +:+ String "178" "") = Raise ValueError
  /\ fst (Lexer.pop 2 (Lexer.new (String "160" "[")))
     = Ok (Some (Token.new LBRACE 1 None)).
Proof. repeat split; vm_compute; reflexivity. Qed.

(** * Further properties of the environments and the evaluator *)

(** ** A rule for every run *)

(** A relation between the state before and the state after that holds of
    doing nothing, composes, and holds of each step [run] makes on its own
    (a turtle call, a binding in the current environment, a call's entry
    into its child) holds of every run, whatever its result. *)
Lemma run_rule (R : loc -> State -> State -> Prop) :
  (forall env s, R env s s) ->
  (forall env s1 s2 s3, R env s1 s2 -> R env s2 s3 -> R env s1 s3) ->
  (forall env s c, R env s (mkState (envs s) (turtle s ++ [c]))) ->
  (forall env s name v,
      R env s (mkState (Environment.set env name v (envs s)) (turtle s))) ->
  (forall env s m s',
      R (length (envs s))
        (mkState (envs s ++ [Environment.mk m (Some env)]) (turtle s)) s' ->
      R env s s') ->
  forall fuel node env st r st', run fuel node env st = (r, st') -> R env st st'.
Proof.
  intros Hrefl Htrans Hturtle Hset Hcall.
  induction fuel as [|fuel IH]; intros node env st r st' Hrun.
  - injection Hrun as _ <-. apply Hrefl.
  - destruct node as [ |f|n|n|n| | |times block|body|name parameters instructions
                      |procedure_name arguments|name].
    + injection Hrun as _ <-. apply Hrefl.
    + injection Hrun as _ <-. apply Hrefl.
    + rewrite run_rotate in Hrun. injection Hrun as _ <-. apply Hturtle.
    + rewrite run_forward in Hrun. injection Hrun as _ <-. apply Hturtle.
    + rewrite run_backward in Hrun. injection Hrun as _ <-. apply Hturtle.
    + injection Hrun as _ <-. apply Hturtle.
    + injection Hrun as _ <-. apply Hturtle.
    + rewrite run_repeat in Hrun.
      rewrite (bind_ok _ _ _ _ _ (evaluate_expression_value times env st)) in Hrun.
      unfold bind in Hrun.
      destruct (int_ (value_in st env times) st) as [[n| |] st1] eqn:Hint;
        apply int_state in Hint as ->; [|injection Hrun as _ <-; apply Hrefl..].
      refine (for_each_frame (R env) _ (range n) (Hrefl env) (Htrans env) _ st r st' Hrun).
      apply Forall_forall. intros x _ s r0 s' Hbody. exact (IH _ _ _ _ _ Hbody).
    + rewrite run_block in Hrun.
      refine (for_each_frame (R env) _ body (Hrefl env) (Htrans env) _ st r st' Hrun).
      apply Forall_forall. intros x _ s r0 s' Hbody. exact (IH _ _ _ _ _ Hbody).
    + rewrite run_procedure in Hrun. injection Hrun as _ <-. apply Hset.
    + rewrite run_call in Hrun. unfold bind at 1 in Hrun.
      unfold env_resolve, gets in Hrun.
      destruct (truthy (Environment.resolve (envs st) env procedure_name));
        cbn [negb] in Hrun; [|injection Hrun as _ <-; apply Hrefl].
      destruct (Environment.resolve (envs st) env procedure_name)
        as [ | | | | | | | | |pname parameters instructions| |];
        try (injection Hrun as _ <-; apply Hrefl).
      destruct (bool_decide (length parameters <> length arguments));
        [injection Hrun as _ <-; apply Hrefl|].
      unfold bind at 1 in Hrun. unfold env_create_child in Hrun.
      cbn [Environment.create_child Environment.new] in Hrun.
      unfold bind in Hrun.
      destruct (for_each _ _ _) as [rl stl] eqn:Hloop in Hrun.
      destruct (bind_arguments_frame _ _ _ _ _ _ _ _ _ Hloop) as (m' & -> & ->).
      apply (Hcall env st m'). exact (IH _ _ _ _ _ Hrun).
    + injection Hrun as _ <-. apply Hrefl.
Qed.

(** ** The turtle's log *)

(** X1. Whatever is run and however the run ends (normally, with an
    exception, or without end), the commands the turtle had received before
    are still the first commands of its log: a run only appends. *)
Theorem run_only_appends_turtle_commands (fuel : nat) (node : obj) (environment : loc)
    (st : State) (r : res unit) (st' : State) :
  run fuel node environment st = (r, st') ->
  turtle st `prefix_of` turtle st'.
Proof.
  revert fuel node environment st r st'.
  apply (run_rule (fun _ s s' => turtle s `prefix_of` turtle s')).
  - intros env s. reflexivity.
  - intros env s1 s2 s3 H12 H23. etransitivity; eassumption.
  - intros env s c. cbn [turtle]. apply prefix_app_r. reflexivity.
  - intros env s name v. reflexivity.
  - intros env s m s' H. exact H.
Qed.

Lemma run_only_appends_turtle_commands_witness :
  [Turtle.penup] `prefix_of`
    turtle (snd (run 3 (AstBlock [AstForward (PyFloat 1); AstProcedureCall "f" []]) 0
                   (mkState (envs global_state) [Turtle.penup]))).
Proof.
  refine (run_only_appends_turtle_commands 3
            (AstBlock [AstForward (PyFloat 1); AstProcedureCall "f" []]) 0
            (mkState (envs global_state) [Turtle.penup]) _ _ _).
  apply surjective_pairing.
Defined.

(** ** Well-formed stores *)

Lemma set_store_wf (env : loc) (name : string) (v : obj) (store : list Environment.t) :
  store_wf store -> store_wf (Environment.set env name v store).
Proof.
  intros Hwf i e p He Hp. unfold Environment.set in He.
  destruct (decide (env = i)) as [->|Hne].
  - rewrite list_lookup_alter_eq in He.
    destruct (store !! i) as [e0|] eqn:He0; [|discriminate He].
    injection He as <-. exact (Hwf i e0 p He0 Hp).
  - rewrite list_lookup_alter_ne in He by exact Hne. exact (Hwf i e p He Hp).
Qed.

Lemma child_store_wf (env : loc) (m : gmap string obj) (store : list Environment.t) :
  store_wf store -> env < length store ->
  store_wf (store ++ [Environment.mk m (Some env)]).
Proof.
  intros Hwf Hlt i e p He Hp.
  destruct (decide (i < length store)) as [Hi|Hi].
  - rewrite lookup_app_l in He by exact Hi. exact (Hwf i e p He Hp).
  - apply lookup_lt_Some in He as Hlen. rewrite length_app in Hlen. simpl in Hlen.
    assert (i = length store) as -> by lia.
    rewrite list_lookup_middle in He by reflexivity. injection He as <-.
    injection Hp as <-. exact Hlt.
Qed.

(** X2. The store of environments stays well formed: if every parent is
    older than its children before a run in an existing environment, so it
    is after the run, however the run ends, and no environment has gone. The
    store of a new program, one global environment, is well formed. *)
Theorem run_keeps_store_wf (fuel : nat) (node : obj) (environment : loc)
    (st : State) (r : res unit) (st' : State) :
  run fuel node environment st = (r, st') ->
  environment < length (envs st) ->
  store_wf (envs st) ->
  store_wf (envs st')
  /\ length (envs st) <= length (envs st')
  /\ store_wf (envs global_state).
Proof.
  intros Hrun Hvalid Hwf.
  assert (Hglobal : store_wf (envs global_state)).
  { intros i e p He Hp. destruct i as [|i]; [|destruct i; discriminate He].
    injection He as <-. discriminate Hp. }
  enough (store_wf (envs st') /\ length (envs st) <= length (envs st')) as [H1 H2]
    by (split; [exact H1 | split; [exact H2 | exact Hglobal]]).
  revert Hvalid Hwf. revert fuel node environment st r st' Hrun.
  apply (run_rule (fun env s s' =>
           env < length (envs s) -> store_wf (envs s) ->
           store_wf (envs s') /\ length (envs s) <= length (envs s'))).
  - intros env s _ Hwf. split; [exact Hwf | lia].
  - intros env s1 s2 s3 H12 H23 Hv Hwf.
    destruct (H12 Hv Hwf) as [Hwf2 Hlen2]. destruct (H23 ltac:(lia) Hwf2) as [Hwf3 Hlen3].
    split; [exact Hwf3 | lia].
  - intros env s c _ Hwf. split; [exact Hwf | cbn; lia].
  - intros env s name v _ Hwf. cbn [envs]. split; [apply set_store_wf, Hwf|].
    unfold Environment.set. rewrite length_alter. lia.
  - intros env s m s' Hchild Hv Hwf. cbn [envs] in Hchild.
    destruct Hchild as [Hwf' Hlen'].
    + rewrite length_app. simpl. lia.
    + apply child_store_wf; assumption.
    + split; [exact Hwf'|]. rewrite length_app in Hlen'. simpl in Hlen'. lia.
Qed.

Lemma run_keeps_store_wf_witness :
  store_wf (envs (snd (run 5 (AstProcedureCall "square" [PyFloat 3]) 0 square_state))).
Proof.
  refine (proj1 (run_keeps_store_wf 5 (AstProcedureCall "square" [PyFloat 3]) 0
                   square_state _ _ _ _ square_state_wf)).
  - apply surjective_pairing.
  - simpl. lia.
Defined.

(** ** Binding and resolving *)

Lemma resolve_from_set_older (store : list Environment.t) (env : loc) (name : string)
    (v : obj) (other : string) :
  store_wf store ->
  forall fuel a, a < env ->
    Environment.resolve_from fuel (Environment.set env name v store) a other
    = Environment.resolve_from fuel store a other.
Proof.
  intros Hwf. induction fuel as [|fuel IH]; intros a Hlt; [reflexivity|].
  rewrite !resolve_from_S. unfold Environment.set at 1.
  rewrite list_lookup_alter_ne by lia.
  destruct (store !! a) as [e|] eqn:He; [|reflexivity]. cbv zeta.
  destruct (truthy (default PyNone (Environment._names e !! other))); [reflexivity|].
  destruct (Environment.parent e) as [p|] eqn:Hp; [|reflexivity].
  apply IH. pose proof (Hwf a e p He Hp). lia.
Qed.

Lemma resolve_set_same (store : list Environment.t) (env : loc) (name : string)
    (value : obj) :
  env < length store ->
  truthy value = true ->
  Environment.resolve (Environment.set env name value store) env name = value.
Proof.
  intros Hvalid Htruthy. destruct (lookup_lt_is_Some_2 store env Hvalid) as [e He].
  unfold Environment.resolve. rewrite resolve_from_S. unfold Environment.set.
  rewrite list_lookup_alter_eq, He. cbn [fmap option_fmap option_map Environment._names].
  rewrite lookup_insert_eq. cbn [default from_option id]. rewrite Htruthy. reflexivity.
Qed.

(** X3. [set] then [resolve]: a truthy value bound in a scope is what the
    name resolves to from that scope; the binding changes the resolution of
    no other name from that scope, and of no name at all from an older
    environment, such as the parent and the other ancestors. *)
Theorem set_then_resolve (store : list Environment.t) (env : loc) (name : string)
    (value : obj) :
  store_wf store ->
  env < length store ->
  (truthy value = true ->
   Environment.resolve (Environment.set env name value store) env name = value)
  /\ (forall other, other <> name ->
        Environment.resolve (Environment.set env name value store) env other
        = Environment.resolve store env other)
  /\ (forall a other, a < env ->
        Environment.resolve (Environment.set env name value store) a other
        = Environment.resolve store a other).
Proof.
  intros Hwf Hvalid.
  destruct (lookup_lt_is_Some_2 store env Hvalid) as [e He].
  assert (Hset : Environment.set env name value store !! env
                 = Some (Environment.mk (<[name := value]> (Environment._names e))
                           (Environment.parent e))).
  { unfold Environment.set. rewrite list_lookup_alter_eq, He. reflexivity. }
  split; [|split].
  - intros Htruthy. exact (resolve_set_same store env name value Hvalid Htruthy).
  - intros other Hne. unfold Environment.resolve. rewrite !resolve_from_S, Hset, He.
    cbn [Environment._names Environment.parent].
    rewrite lookup_insert_ne by congruence.
    destruct (truthy (default PyNone (Environment._names e !! other))); [reflexivity|].
    destruct (Environment.parent e) as [p|] eqn:Hp; [|reflexivity].
    apply resolve_from_set_older; [exact Hwf|]. exact (Hwf env e p He Hp).
  - intros a other Hlt. apply resolve_from_set_older; assumption.
Qed.

Lemma set_then_resolve_witness :
  Environment.resolve (Environment.set 0 ":side" (PyFloat 7) (envs square_state)) 0 ":side"
  = PyFloat 7
  /\ Environment.resolve (Environment.set 0 ":side" (PyFloat 7) (envs square_state)) 0 "square"
     = Environment.resolve (envs square_state) 0 "square".
Proof.
  destruct (set_then_resolve (envs square_state) 0 ":side" (PyFloat 7) square_state_wf)
    as (Hsame & Hother & _).
  - simpl. lia.
  - split; [apply Hsame; reflexivity | apply Hother; discriminate].
Defined.

(** X4. Where every value bound in the store is truthy (procedures and
    numbers other than zero), [resolve] returns the binding of the nearest
    scope of the chain that binds the name, and [None] when no scope does. *)
Theorem resolve_is_nearest_binding (store : list Environment.t) (env : loc)
    (name : string) :
  all_truthy store ->
  Environment.resolve store env name
  = default PyNone (nearest_binding (S env) store env name).
Proof. intros Htruthy. apply resolve_from_nearest. exact Htruthy. Qed.

Lemma square_state_all_truthy : all_truthy (envs square_state).
Proof.
  intros i e name value He Hv. destruct i as [|i]; [|destruct i; discriminate He].
  injection He as <-. cbn [Environment._names] in Hv.
  apply lookup_singleton_Some in Hv as [_ <-]. reflexivity.
Defined.

Lemma resolve_is_nearest_binding_witness :
  Environment.resolve (envs square_state) 0 "square"
  = default PyNone (nearest_binding 1 (envs square_state) 0 "square").
Proof. exact (resolve_is_nearest_binding (envs square_state) 0 "square" square_state_all_truthy). Defined.

Lemma resolve_from_unchanged (s s' : list Environment.t) (name : string) :
  unchanged s s' -> store_wf s ->
  forall fuel a, a < length s ->
    Environment.resolve_from fuel s' a name = Environment.resolve_from fuel s a name.
Proof.
  intros Hun Hwf. induction fuel as [|fuel IH]; intros a Hlt; [reflexivity|].
  rewrite !resolve_from_S.
  destruct (lookup_lt_is_Some_2 s a Hlt) as [e He]. rewrite (Hun a e He), He. cbv zeta.
  destruct (truthy (default PyNone (Environment._names e !! name))); [reflexivity|].
  destruct (Environment.parent e) as [p|] eqn:Hp; [|reflexivity].
  apply IH. pose proof (Hwf a e p He Hp). lia.
Qed.

(** X5. A call keeps its bindings to itself: after a procedure call, or the
    run of any node that holds no definition, every name resolves from every
    environment that existed before exactly as it did before, however the
    run ended. What a procedure binds is not seen by its caller nor by a
    later call. *)
Theorem bindings_of_a_call_stay_local (fuel : nat) (node : obj) (environment : loc)
    (st : State) (r : res unit) (st' : State) :
  run fuel node environment st = (r, st') ->
  no_definition node = true ->
  environment < length (envs st) ->
  store_wf (envs st) ->
  forall a name, a < length (envs st) ->
    Environment.resolve (envs st') a name = Environment.resolve (envs st) a name.
Proof.
  intros Hrun Hnodef Hvalid Hwf a name Ha.
  destruct (run_frame fuel node environment st r st' Hrun Hvalid) as [_ Hun].
  apply resolve_from_unchanged; [exact (Hun Hnodef) | exact Hwf | exact Ha].
Qed.

Lemma bindings_of_a_call_stay_local_witness :
  Environment.resolve
    (envs (snd (run 5 (AstProcedureCall "square" [PyFloat 3]) 0 square_state))) 0 ":s"
  = Environment.resolve (envs square_state) 0 ":s".
Proof.
  refine (bindings_of_a_call_stay_local 5 (AstProcedureCall "square" [PyFloat 3]) 0
            square_state _ _ _ _ _ square_state_wf 0 ":s" _).
  - apply surjective_pairing.
  - reflexivity.
  - simpl. lia.
  - simpl. lia.
Defined.

(** ** Blocks and definitions *)

Lemma for_each_app {S A : Type} (l1 l2 : list A) (body : A -> comp S unit) (s : S) :
  for_each (l1 ++ l2) body s
  = (let! _ := for_each l1 body in for_each l2 body) s.
Proof.
  revert s. induction l1 as [|x l1 IH]; intros s; [reflexivity|].
  cbn [app for_each]. unfold bind.
  destruct (body x s) as [[[]| |] s1]; try reflexivity.
  rewrite IH. reflexivity.
Qed.

(** X6. A block runs its instructions in sequence: running the block of
    [xs ++ ys] is running the block of [xs] and then, from the state it
    leaves, the block of [ys]; when the first part raises, the second part
    is not run and the exception and its state are the result. The empty
    block does nothing. *)
Theorem block_runs_in_sequence (fuel : nat) (xs ys : list obj) (environment : loc)
    (st : State) :
  run (S fuel) (AstBlock (xs ++ ys)) environment st
  = (let! _ := run (S fuel) (AstBlock xs) environment in
     run (S fuel) (AstBlock ys) environment) st
  /\ (forall e st1,
        run (S fuel) (AstBlock xs) environment st = (Raise e, st1) ->
        run (S fuel) (AstBlock (xs ++ ys)) environment st = (Raise e, st1))
  /\ run (S fuel) (AstBlock []) environment st = (Ok tt, st).
Proof.
  assert (Happ : run (S fuel) (AstBlock (xs ++ ys)) environment st
                 = (let! _ := run (S fuel) (AstBlock xs) environment in
                    run (S fuel) (AstBlock ys) environment) st).
  { rewrite !run_block. apply for_each_app. }
  split; [exact Happ|]. split; [|reflexivity].
  intros e st1 Hraise. rewrite Happ. apply bind_raise. exact Hraise.
Qed.

Lemma run_call_enters_child (fuel : nat) (procedure_name : string) (arguments : list obj)
    (environment : loc) (st : State) (name : string) (parameters : list string)
    (instructions : list obj) :
  store_wf (envs st) ->
  environment < length (envs st) ->
  Environment.resolve (envs st) environment procedure_name
  = AstProcedure name parameters instructions ->
  length parameters = length arguments ->
  run (S fuel) (AstProcedureCall procedure_name arguments) environment st
  = run fuel (AstBlock instructions) (length (envs st))
      (call_state st environment parameters arguments).
Proof.
  intros Hwf Hlt Hres Harity. rewrite run_call.
  assert (Hr : env_resolve environment procedure_name st
               = (Ok (AstProcedure name parameters instructions), st))
    by (unfold env_resolve, gets; rewrite Hres; reflexivity).
  rewrite (bind_ok _ _ _ _ _ Hr). cbn [truthy negb].
  rewrite bool_decide_eq_false_2 by (intros Hne; apply Hne; exact Harity).
  assert (Hc : env_create_child environment st
               = (Ok (length (envs st)),
                  mkState (envs st ++ [Environment.mk ∅ (Some environment)]) (turtle st)))
    by reflexivity.
  rewrite (bind_ok _ _ _ _ _ Hc).
  rewrite (bind_ok _ _ _ _ _ (bind_arguments st environment Hwf Hlt parameters arguments ∅)).
  reflexivity.
Qed.

Lemma bind_ret_tt {S : Type} (c : comp S unit) (s : S) :
  (let! _ := c in ret tt) s = c s.
Proof. unfold bind. destruct (c s) as [[[]| |] s1]; reflexivity. Qed.

(** X7. Defining a procedure is an instruction like the others: a definition
    followed by a call of the defined name with as many arguments as
    parameters runs the body in a child of the current environment, and the
    second of two definitions of a name is the one the name resolves to. *)
Theorem definition_then_call (fuel : nat) (name : string) (parameters : list string)
    (instructions : list obj) (arguments : list obj) (environment : loc) (st : State) :
  store_wf (envs st) ->
  environment < length (envs st) ->
  length parameters = length arguments ->
  let definition := AstProcedure name parameters instructions in
  let st1 := mkState (Environment.set environment name definition (envs st)) (turtle st) in
  run (S (S fuel)) (AstBlock [definition; AstProcedureCall name arguments]) environment st
  = run fuel (AstBlock instructions) (length (envs st))
      (call_state st1 environment parameters arguments)
  /\ (forall parameters0 instructions0,
        let result :=
          run (S (S fuel))
            (AstBlock [AstProcedure name parameters0 instructions0; definition])
            environment st in
        fst result = Ok tt
        /\ Environment.resolve (envs (snd result)) environment name = definition).
Proof.
  intros Hwf Hvalid Harity definition st1. split.
  - rewrite run_block. cbn [for_each].
    assert (Hdef : run (S fuel) definition environment st = (Ok tt, st1)) by reflexivity.
    rewrite (bind_ok _ _ _ _ _ Hdef). rewrite bind_ret_tt.
    assert (Hlen : length (envs st1) = length (envs st))
      by (unfold st1, Environment.set; cbn [envs]; apply length_alter).
    rewrite <- Hlen. apply (run_call_enters_child fuel name arguments environment st1 name).
    + apply set_store_wf, Hwf.
    + rewrite Hlen. exact Hvalid.
    + apply resolve_set_same; [exact Hvalid | reflexivity].
    + exact Harity.
  - intros parameters0 instructions0. cbv zeta. split; [reflexivity|].
    cbn [run for_each bind env_set modify snd envs fst].
    apply resolve_set_same; [|reflexivity].
    cbn [envs]. unfold Environment.set. rewrite length_alter. exact Hvalid.
Qed.

Lemma definition_then_call_witness :
  run 4 (AstBlock [AstProcedure "f" [":a"] [AstForward (AstSymbolReference ":a")];
                   AstProcedureCall "f" [PyFloat 2]]) 0 square_state
  = run 2 (AstBlock [AstForward (AstSymbolReference ":a")]) 1
      (call_state
         (mkState
            (Environment.set 0 "f"
               (AstProcedure "f" [":a"] [AstForward (AstSymbolReference ":a")])
               (envs square_state))
            (turtle square_state))
         0 [":a"] [PyFloat 2]).
Proof.
  refine (proj1 (definition_then_call 2 "f" [":a"] [AstForward (AstSymbolReference ":a")]
                   [PyFloat 2] 0 square_state square_state_wf _ _)).
  - simpl. lia.
  - reflexivity.
Defined.

(** * Further properties of the lexer *)

(** ** Words of the text *)

Lemma span_spec (cond : string -> bool) (s : string) :
  s = fst (span cond s) +:+ snd (span cond s)
  /\ Str.all_chars (fun c => cond (String c "")) (fst (span cond s)) = true
  /\ stops_at (fun c => cond (String c "")) (snd (span cond s)).
Proof.
  induction s as [|c s (IH1 & IH2 & IH3)]; [repeat split|].
  cbn [span]. destruct (cond (String c "")) eqn:Hc.
  - destruct (span cond s) as [a b]. cbn [fst snd] in *.
    change (String c a +:+ b) with (String c (a +:+ b)). rewrite <- IH1.
    split; [reflexivity|]. split; [|exact IH3].
    cbn [Str.all_chars]. rewrite Hc. exact IH2.
  - cbn [fst snd]. split; [reflexivity|]. split; [reflexivity | exact Hc].
Qed.

Lemma advanced_by_index (s : string) :
  forall L, Lexer._index (advanced_by s L) = Lexer._index L + String.length s.
Proof.
  induction s as [|c s IH]; intros L; [simpl; lia|].
  cbn [advanced_by String.length]. rewrite IH. cbn. lia.
Qed.

Lemma advanced_by_text (s : string) :
  forall L, Lexer.text (advanced_by s L) = Lexer.text L.
Proof. induction s as [|c s IH]; intros L; [reflexivity|]. cbn [advanced_by]. rewrite IH. reflexivity. Qed.

Lemma advanced_by_buffer (s : string) :
  forall L, Lexer._buffer (advanced_by s L) = Lexer._buffer L.
Proof. induction s as [|c s IH]; intros L; [reflexivity|]. cbn [advanced_by]. rewrite IH. reflexivity. Qed.

(** X8. [get_while] always returns, with the longest run of characters at
    the front of the text still to be read that satisfy the condition: every
    character of the result satisfies it, the text goes on with a character
    that does not or is at its end, and the lexer has moved past exactly the
    characters returned. *)
Theorem get_while_takes_longest_run (cond : string -> bool) (L : Lexer.t) :
  exists s L',
    Lexer.get_while cond L = (Ok s, L')
    /\ remaining L = s +:+ remaining L'
    /\ Str.all_chars (fun c => cond (String c "")) s = true
    /\ stops_at (fun c => cond (String c "")) (remaining L')
    /\ Lexer._index L' = Lexer._index L + String.length s
    /\ Lexer._buffer L' = Lexer._buffer L.
Proof.
  destruct (span_spec cond (remaining L)) as (Happ & Hall & Hstop).
  exists (fst (span cond (remaining L))), (advanced_by (fst (span cond (remaining L))) L).
  rewrite (remaining_advanced_by _ L _ Happ).
  split; [apply get_while_spec|]. split; [exact Happ|]. split; [exact Hall|].
  split; [exact Hstop|]. split; [apply advanced_by_index | apply advanced_by_buffer].
Qed.

(** ** Blanks *)

Lemma eat_spaces_at_token (fuel : nat) (L : Lexer.t) (c : ascii) (r : string) :
  remaining L = String c r ->
  Str.char_isspace c = false ->
  c <> "#"%char ->
  Lexer.eat_spaces (S fuel) L = (Ok tt, L).
Proof.
  intros Hrem Hspace Hhash. cbn [Lexer.eat_spaces].
  assert (Hspaces : Lexer.get_while Str.isspace L = (Ok "", L)).
  { rewrite get_while_spec, Hrem. cbn [span]. rewrite isspace_one, Hspace. reflexivity. }
  rewrite (bind_ok _ _ _ _ _ Hspaces).
  rewrite (bind_ok _ _ _ _ _ (peek_next L _ _ Hrem)).
  cbn [Str.truthy_opt Str.truthy negb].
  rewrite bool_decide_eq_false_2 by (intros [= ->]; apply Hhash; reflexivity).
  reflexivity.
Qed.

Lemma span_all (cond : string -> bool) (s : string) :
  Str.all_chars (fun c => cond (String c "")) s = true -> span cond s = (s, "").
Proof.
  intros Hall. rewrite <- (append_empty_r s) at 1. apply span_prefix; [exact Hall | exact I].
Qed.

Lemma all_isspace (s : string) :
  Str.all_chars Str.char_isspace s = true ->
  Str.all_chars (fun c => Str.isspace (String c "")) s = true.
Proof.
  induction s as [|c s IH]; [reflexivity|]. cbn [Str.all_chars]. intros H.
  apply andb_prop in H as [Hc Hs]. rewrite isspace_one, Hc. exact (IH Hs).
Qed.

(** X9. At the end of the text, or when only whitespace is left, [pop]
    returns an EOF token and leaves the lexer at the end of the text; called
    again it returns an EOF token again, and the lexer does not move. *)
Theorem pop_at_end_returns_eof (fuel fuel' : nat) (L : Lexer.t) :
  Lexer._buffer L = [] ->
  Str.all_chars Str.char_isspace (remaining L) = true ->
  let L1 := snd (Lexer.pop (S fuel) L) in
  let L2 := snd (Lexer.pop (S fuel') L1) in
  fst (Lexer.pop (S fuel) L) = Ok (Some (Token.new EOF (length (Lexer.heap L)) None))
  /\ remaining L1 = ""
  /\ Lexer._index L1 = Lexer._index L + String.length (remaining L)
  /\ fst (Lexer.pop (S fuel') L1) = Ok (Some (Token.new EOF (S (length (Lexer.heap L))) None))
  /\ Lexer._index L2 = Lexer._index L1.
Proof.
  intros Hbuffer Hspaces.
  assert (Hpop : forall f L0, Lexer._buffer L0 = [] ->
            Str.all_chars Str.char_isspace (remaining L0) = true ->
            Lexer.pop (S f) L0 = Lexer._Token EOF None (advanced_by (remaining L0) L0)).
  { intros f L0 Hb Hs. unfold Lexer.pop. rewrite Hb.
    assert (Heat : Lexer.eat_spaces (S f) L0 = (Ok tt, advanced_by (remaining L0) L0)).
    { cbn [Lexer.eat_spaces].
      assert (Hget : Lexer.get_while Str.isspace L0
                     = (Ok (remaining L0), advanced_by (remaining L0) L0))
        by (rewrite get_while_spec, (span_all _ _ (all_isspace _ Hs)); reflexivity).
      rewrite (bind_ok _ _ _ _ _ Hget).
      assert (Hend : remaining (advanced_by (remaining L0) L0) = "")
        by (apply remaining_advanced_by; rewrite append_empty_r; reflexivity).
      rewrite (bind_ok _ _ _ _ _ (peek_end _ Hend)). reflexivity. }
    rewrite (bind_ok _ _ _ _ _ Heat).
    assert (Hend : remaining (advanced_by (remaining L0) L0) = "")
      by (apply remaining_advanced_by; rewrite append_empty_r; reflexivity).
    rewrite (bind_ok _ _ _ _ _ (pop_c_end _ Hend)). reflexivity. }
  assert (Hlen : forall s L0,
            length (Lexer.heap (advanced_by s L0)) = length (Lexer.heap L0)).
  { induction s as [|c s IH]; intros L0; [reflexivity|]. cbn [advanced_by]. rewrite IH.
    cbn. apply length_alter. }
  assert (Hend : remaining (advanced_by (remaining L) L) = "")
    by (apply remaining_advanced_by; rewrite append_empty_r; reflexivity).
  cbv zeta. rewrite (Hpop fuel L Hbuffer Hspaces).
  cbn [Lexer._Token Lexer._create_token bind ret fst snd].
  set (L0 := advanced_by (remaining L) L) in *.
  set (L1 := Lexer.set_heap
               (Lexer.heap L0 ++ [FilePosition.copy (Lexer.heap L0 !!! Lexer.position L0)])
               L0).
  assert (Hrem1 : remaining L1 = "") by exact Hend.
  assert (Hb1 : Lexer._buffer L1 = [])
    by (unfold L1, L0; cbn; rewrite advanced_by_buffer; exact Hbuffer).
  assert (Hpop1 : Lexer.pop (S fuel') L1 = Lexer._Token EOF None L1).
  { rewrite (Hpop fuel' L1 Hb1) by (rewrite Hrem1; reflexivity).
    rewrite Hrem1. reflexivity. }
  rewrite Hpop1. cbn [Lexer._Token Lexer._create_token bind ret fst snd].
  split; [|split; [exact Hrem1|split; [|split; [|reflexivity]]]].
  - unfold L0. rewrite Hlen. reflexivity.
  - unfold L1, L0. cbn [Lexer.set_heap Lexer._index]. apply advanced_by_index.
  - unfold L1. cbn [Lexer.set_heap Lexer.heap]. rewrite length_app. unfold L0.
    rewrite Hlen. simpl. do 3 f_equal. lia.
Qed.

Lemma pop_at_end_returns_eof_witness :
  fst (Lexer.pop 1 (Lexer.new "  ")) = Ok (Some (Token.new EOF 1 None))
  /\ fst (Lexer.pop 1 (snd (Lexer.pop 1 (Lexer.new "  ")))) = Ok (Some (Token.new EOF 2 None)).
Proof.
  destruct (pop_at_end_returns_eof 0 0 (Lexer.new "  ") eq_refl eq_refl)
    as (H1 & _ & _ & H2 & _).
  split; [exact H1 | exact H2].
Defined.

(** ** Classes of characters *)

Lemma is_identifier_char_one (c : ascii) :
  Lexer.is_identifier_char (String c "") = identifier_char c.
Proof. destruct c as [[] [] [] [] [] [] [] []]; reflexivity. Qed.

Lemma all_identifier_chars (s : string) :
  Str.all_chars identifier_char s = true ->
  Str.all_chars (fun c => Lexer.is_identifier_char (String c "")) s = true.
Proof.
  induction s as [|c s IH]; [reflexivity|]. cbn [Str.all_chars]. intros H.
  apply andb_prop in H as [Hc Hs]. rewrite is_identifier_char_one, Hc. exact (IH Hs).
Qed.

Lemma letter_facts (c : ascii) :
  Str.char_isalpha c = true ->
  Str.char_isspace c = false
  /\ c <> "#"%char
  /\ bool_decide (String c "" = "[") = false
  /\ bool_decide (String c "" = "]") = false
  /\ Str.isalpha (String c "") = true.
Proof.
  destruct c as [[] [] [] [] [] [] [] []]; intros H; cbv in H;
    try discriminate H; repeat split; (reflexivity || discriminate).
Qed.

Lemma starts_nothing_facts (c : ascii) :
  starts_nothing c = true ->
  Str.char_isspace c = false
  /\ c <> "#"%char
  /\ bool_decide (String c "" = "[") = false
  /\ bool_decide (String c "" = "]") = false
  /\ Str.isalpha (String c "") = false
  /\ bool_decide (String c "" = ":") = false
  /\ bool_decide (String c "" = "-") = false
  /\ Str.isnumeric (String c "") = false.
Proof.
  destruct c as [[] [] [] [] [] [] [] []]; intros H; cbv in H;
    try discriminate H; repeat split; (reflexivity || discriminate).
Qed.

(** ** Keywords *)

Lemma keyword_spec (word : string) (kind : TokenKind) :
  Lexer.keyword word = Some kind
  <-> kind ∈ keyword_kinds /\ Str.casefold word = Str.casefold (TokenKind_name kind).
Proof.
  unfold Lexer.keyword, keyword_kinds. cbv zeta. split.
  - intros H. repeat case_bool_decide; try discriminate H; injection H as <-;
      (split; [set_solver | etransitivity; [eassumption | reflexivity]]).
  - intros [Hin Heq].
    repeat (apply elem_of_cons in Hin as [->|Hin]); [..|apply elem_of_nil in Hin; destruct Hin];
      rewrite Heq; reflexivity.
Qed.

(** ** Identifiers, keywords and symbols *)

(** X10. When the text to be read starts with a word (a letter and then
    letters, numeric characters and underscores, as many as there are, by
    the classes of [str.isalpha] and [str.isalnum]), [pop] reads exactly the
    word and makes one token of it: a keyword token without content when the
    case-folded word is one of the eight keywords (whatever the case of its
    letters), and else an IDENTIFIER whose content is the word as written. *)
Theorem pop_reads_a_word (fuel : nat) (L : Lexer.t) (a : ascii) (w rest : string) :
  Lexer._buffer L = [] ->
  remaining L = String a w +:+ rest ->
  Str.char_isalpha a = true ->
  Str.all_chars identifier_char w = true ->
  stops_at identifier_char rest ->
  Lexer.pop (S fuel) L
  = match Lexer.keyword (String a w) with
    | Some kind => Lexer._Token kind None
    | None => Lexer._Token IDENTIFIER (Some (String a w))
    end (advanced_by (String a w) L)
  /\ remaining (advanced_by (String a w) L) = rest
  /\ (forall kind,
        Lexer.keyword (String a w) = Some kind
        <-> kind ∈ keyword_kinds
            /\ Str.casefold (String a w) = Str.casefold (TokenKind_name kind)).
Proof.
  intros Hbuffer Hrem Ha Hw Hrest.
  split; [|split; [exact (remaining_advanced_by _ L _ Hrem) | intros kind; apply keyword_spec]].
  change (String a w +:+ rest) with (String a (w +:+ rest)) in Hrem.
  destruct (letter_facts a Ha) as (Hspace & Hhash & Hl & Hr & Halpha).
  unfold Lexer.pop. rewrite Hbuffer.
  rewrite (bind_ok _ _ _ _ _ (eat_spaces_at_token fuel L _ _ Hrem Hspace Hhash)).
  rewrite (bind_ok _ _ _ _ _ (pop_c_next L _ _ Hrem)).
  destruct (advance_next L _ _ Hrem) as [_ Hrem1].
  cbn [Str.truthy negb]. rewrite Hl, Hr, Halpha.
  assert (Hget : Lexer.get_while Lexer.is_identifier_char (advanced a L)
                 = (Ok w, advanced_by w (advanced a L))).
  { rewrite get_while_spec, Hrem1.
    rewrite (span_prefix Lexer.is_identifier_char w rest (all_identifier_chars w Hw)).
    - reflexivity.
    - destruct rest as [|c rest]; [exact I|]. rewrite is_identifier_char_one. exact Hrest. }
  rewrite (bind_ok _ _ _ _ _ Hget). reflexivity.
Qed.

Lemma pop_reads_a_word_witness :
  fst (Lexer.pop 1 (Lexer.new "RePeAt 4")) = Ok (Some (Token.new REPEAT 1 None))
  /\ fst (Lexer.pop 1 (Lexer.new "side_2 ")) = Ok (Some (Token.new IDENTIFIER 1 (Some "side_2"))).
Proof.
  split.
  - rewrite (proj1 (pop_reads_a_word 0 (Lexer.new "RePeAt 4") "R" "ePeAt" " 4"
                      eq_refl eq_refl eq_refl eq_refl eq_refl)).
    reflexivity.
  - rewrite (proj1 (pop_reads_a_word 0 (Lexer.new "side_2 ") "s" "ide_2" " "
                      eq_refl eq_refl eq_refl eq_refl eq_refl)).
    reflexivity.
Defined.

(** X11. When the text to be read starts with a colon, [pop] reads the colon
    and the letters, numeric characters and underscores that follow (by the
    class of [str.isalnum]), and makes a SYMBOL token whose content is all
    of it, colon included. A colon that nothing of the kind follows is a
    SYMBOL of its own, with content [":"]. *)
Theorem pop_reads_a_symbol (fuel : nat) (L : Lexer.t) (w rest : string) :
  Lexer._buffer L = [] ->
  remaining L = String ":" w +:+ rest ->
  Str.all_chars identifier_char w = true ->
  stops_at identifier_char rest ->
  Lexer.pop (S fuel) L
  = Lexer._Token SYMBOL (Some (String ":" w)) (advanced_by (String ":" w) L)
  /\ remaining (advanced_by (String ":" w) L) = rest.
Proof.
  intros Hbuffer Hrem Hw Hrest.
  split; [|exact (remaining_advanced_by _ L _ Hrem)].
  change (String ":" w +:+ rest) with (String ":" (w +:+ rest)) in Hrem.
  unfold Lexer.pop. rewrite Hbuffer.
  assert (Hcolon : ":"%char <> "#"%char) by discriminate.
  rewrite (bind_ok _ _ _ _ _ (eat_spaces_at_token fuel L _ _ Hrem eq_refl Hcolon)).
  rewrite (bind_ok _ _ _ _ _ (pop_c_next L _ _ Hrem)).
  destruct (advance_next L _ _ Hrem) as [_ Hrem1].
  cbn [Str.truthy negb].
  rewrite (bool_decide_eq_false_2 (":" = "[")) by discriminate.
  rewrite (bool_decide_eq_false_2 (":" = "]")) by discriminate.
  change (Str.isalpha ":") with false. cbv iota.
  rewrite (bool_decide_eq_true_2 (":" = ":")) by reflexivity.
  assert (Hget : Lexer.get_while Lexer.is_identifier_char (advanced ":" L)
                 = (Ok w, advanced_by w (advanced ":" L))).
  { rewrite get_while_spec, Hrem1.
    rewrite (span_prefix Lexer.is_identifier_char w rest (all_identifier_chars w Hw)).
    - reflexivity.
    - destruct rest as [|c rest]; [exact I|]. rewrite is_identifier_char_one. exact Hrest. }
  rewrite (bind_ok _ _ _ _ _ Hget). reflexivity.
Qed.

Lemma pop_reads_a_symbol_witness :
  fst (Lexer.pop 1 (Lexer.new ":side 1")) = Ok (Some (Token.new SYMBOL 1 (Some ":side")))
  /\ fst (Lexer.pop 1 (Lexer.new ": 1")) = Ok (Some (Token.new SYMBOL 1 (Some ":"))).
Proof.
  split.
  - rewrite (proj1 (pop_reads_a_symbol 0 (Lexer.new ":side 1") "side" " 1"
                      eq_refl eq_refl eq_refl eq_refl)).
    reflexivity.
  - rewrite (proj1 (pop_reads_a_symbol 0 (Lexer.new ": 1") "" " 1"
                      eq_refl eq_refl eq_refl eq_refl)).
    reflexivity.
Defined.

(** ** Characters that start no token *)

(** X12. A minus sign that no numeric character ([str.isnumeric]) follows
    ends [pop] in an exception, not in a token: an [AttributeError] when the
    text ends with the minus sign, an [AssertionError] when another character
    follows, which has been read as well. *)
Theorem pop_of_a_lone_minus (fuel : nat) (L : Lexer.t) (rest : string) :
  Lexer._buffer L = [] ->
  remaining L = String "-" rest ->
  (rest = "" -> Lexer.pop (S fuel) L = (Raise AttributeError, advanced "-" L))
  /\ (forall c r, rest = String c r -> Str.char_isnumeric c = false ->
        Lexer.pop (S fuel) L = (Raise AssertionError, advanced c (advanced "-" L))).
Proof.
  intros Hbuffer Hrem.
  assert (Hminus : "-"%char <> "#"%char) by discriminate.
  assert (Hstart : Lexer.pop (S fuel) L = Lexer.pop_number "-" (advanced "-" L)).
  { unfold Lexer.pop. rewrite Hbuffer.
    rewrite (bind_ok _ _ _ _ _ (eat_spaces_at_token fuel L _ _ Hrem eq_refl Hminus)).
    rewrite (bind_ok _ _ _ _ _ (pop_c_next L _ _ Hrem)). reflexivity. }
  destruct (advance_next L _ _ Hrem) as [_ Hrem1].
  rewrite Hstart. unfold Lexer.pop_number.
  rewrite (bool_decide_eq_true_2 ("-" = "-")) by reflexivity. split.
  - intros ->. rewrite (bind_ok _ _ _ _ _ (pop_c_end _ Hrem1)). reflexivity.
  - intros c r -> Hc. rewrite (bind_ok _ _ _ _ _ (pop_c_next _ _ _ Hrem1)).
    rewrite isnumeric_one, Hc. reflexivity.
Qed.

Lemma pop_of_a_lone_minus_witness :
  fst (Lexer.pop 1 (Lexer.new "-")) = Raise AttributeError
  /\ fst (Lexer.pop 1 (Lexer.new "- 5")) = Raise AssertionError.
Proof.
  split.
  - rewrite (proj1 (pop_of_a_lone_minus 0 (Lexer.new "-") "" eq_refl eq_refl) eq_refl).
    reflexivity.
  - rewrite (proj2 (pop_of_a_lone_minus 0 (Lexer.new "- 5") " 5" eq_refl eq_refl)
               " "%char "5" eq_refl eq_refl).
    reflexivity.
Defined.

(** X13. A character that starts no token and is no blank (a dot, a plus
    sign, an at sign, ...) is read and dropped: [pop] returns [None], raises
    nothing, and leaves the lexer just past the character. *)
Theorem pop_drops_a_stray_character (fuel : nat) (L : Lexer.t) (c : ascii) (rest : string) :
  Lexer._buffer L = [] ->
  remaining L = String c rest ->
  starts_nothing c = true ->
  Lexer.pop (S fuel) L = (Ok None, advanced c L)
  /\ remaining (advanced c L) = rest.
Proof.
  intros Hbuffer Hrem Hc.
  destruct (starts_nothing_facts c Hc)
    as (Hspace & Hhash & Hl & Hr & Halpha & Hcolon & Hminus & Hnum).
  split; [|exact (proj2 (advance_next L _ _ Hrem))].
  unfold Lexer.pop. rewrite Hbuffer.
  rewrite (bind_ok _ _ _ _ _ (eat_spaces_at_token fuel L _ _ Hrem Hspace Hhash)).
  rewrite (bind_ok _ _ _ _ _ (pop_c_next L _ _ Hrem)).
  cbn [Str.truthy negb]. rewrite Hl, Hr, Halpha, Hcolon. unfold Lexer.pop_number.
  rewrite Hminus.
  assert (Hret : @ret Lexer.t _ (Some (String c "")) (advanced c L)
                 = (Ok (Some (String c "")), advanced c L)) by reflexivity.
  rewrite (bind_ok _ _ _ _ _ Hret). rewrite Hnum. reflexivity.
Qed.

Lemma pop_drops_a_stray_character_witness :
  fst (Lexer.pop 1 (Lexer.new "@ forward")) = Ok None.
Proof.
  rewrite (proj1 (pop_drops_a_stray_character 0 (Lexer.new "@ forward") "@" " forward"
                    eq_refl eq_refl eq_refl)).
  reflexivity.
Defined.

(** ** Numerals *)

Lemma append_assoc (s t u : string) : (s +:+ t) +:+ u = s +:+ t +:+ u.
Proof.
  induction s as [|a s IH]; [reflexivity|].
  change ((String a s +:+ t) +:+ u) with (String a ((s +:+ t) +:+ u)).
  rewrite IH. reflexivity.
Qed.












(** ** Looking ahead *)

Lemma pop_keeps_buffer_empty (fuel : nat) (L : Lexer.t) (r : res (option Token.t))
    (L' : Lexer.t) :
  Lexer._buffer L = [] -> Lexer.pop fuel L = (r, L') -> Lexer._buffer L' = [].
Proof.
  intros Hb Hpop. destruct (pop_empty_buffer fuel L r L' Hb Hpop) as (L1 & Hmoves & Hfin).
  pose proof (moves_buffer _ _ Hmoves) as Hb1. rewrite Hb in Hb1.
  destruct r as [[tok|]| |]; cbn [finishes] in Hfin.
  - destruct Hfin as [-> _]. exact Hb1.
  - subst L'. exact Hb1.
  - subst L'. exact Hb1.
  - subst L'. exact Hb1.
Qed.

Lemma set_buffer_back (L : Lexer.t) (b : list (option Token.t)) :
  Lexer._buffer L = [] -> Lexer.set_buffer [] (Lexer.set_buffer b L) = L.
Proof. destruct L. cbn. intros ->. reflexivity. Qed.

Lemma pop_from_buffer (fuel : nat) (L : Lexer.t) (o : option Token.t) :
  Lexer._buffer L = [] ->
  Lexer.pop fuel (Lexer.set_buffer [o] L) = (Ok o, L).
Proof.
  intros Hb. unfold Lexer.pop. cbn [Lexer.set_buffer Lexer._buffer].
  change (Lexer.set_buffer [] _) with (Lexer.set_buffer [] (Lexer.set_buffer [o] L)).
  rewrite set_buffer_back by exact Hb. reflexivity.
Qed.

(** X15. [peek] does not consume: after a [peek] that returned, a second
    [peek] returns the same result and changes nothing, and the next [pop]
    returns that result too; when the buffer was empty before the [peek],
    that [pop] is in result and in state the [pop] that would have been made
    in place of the [peek]. *)
Theorem peek_then_pop (fuel fuel' : nat) (L : Lexer.t) (t : option Token.t) (L1 : Lexer.t) :
  Lexer.peek fuel L = (Ok t, L1) ->
  Lexer.peek fuel' L1 = (Ok t, L1)
  /\ fst (Lexer.pop fuel' L1) = Ok t
  /\ (Lexer._buffer L = [] -> Lexer.pop fuel' L1 = Lexer.pop fuel L).
Proof.
  intros Hpeek. unfold Lexer.peek in Hpeek.
  destruct (Lexer._buffer L) as [|o rest] eqn:Hb.
  - unfold bind, modify, ret in Hpeek.
    destruct (Lexer.pop fuel L) as [[o| |] L0] eqn:Hpop; try discriminate Hpeek.
    injection Hpeek as <- <-.
    pose proof (pop_keeps_buffer_empty _ _ _ _ Hb Hpop) as Hb0. rewrite Hb0.
    change ([] ++ [o]) with [o].
    split; [reflexivity|]. rewrite (pop_from_buffer fuel' L0 o Hb0).
    split; [reflexivity | intros _; reflexivity].
  - injection Hpeek as <- <-. split; [|split].
    + unfold Lexer.peek. rewrite Hb. reflexivity.
    + unfold Lexer.pop. rewrite Hb. reflexivity.
    + intros Hnil. discriminate Hnil.
Qed.

Lemma peek_then_pop_witness :
  Lexer.pop 1 (snd (Lexer.peek 1 (Lexer.new "forward 10"))) = Lexer.pop 1 (Lexer.new "forward 10").
Proof.
  refine (proj2 (proj2 (peek_then_pop 1 1 (Lexer.new "forward 10")
                          (Some (Token.new FORWARD 1 None)) _ _)) eq_refl).
  vm_compute. reflexivity.
Defined.

(** X16. [maybe_match] looks one token ahead. On an empty buffer, when
    [pop] would return a token: a token of the expected kind is returned and
    consumed as by [pop]; a token of another kind gives [None], and is kept:
    the next [pop] returns it and leaves the lexer where the first [pop]
    would have, and a [maybe_match] for any kind behaves as it would have
    before the failed one. [match_] differs on a token of another kind: it
    raises, naming both kinds, and the token is consumed. *)
Theorem maybe_match_looks_ahead (fuel : nat) (kind : TokenKind) (L : Lexer.t)
    (tok : Token.t) (L0 : Lexer.t) :
  Lexer._buffer L = [] ->
  Lexer.pop fuel L = (Ok (Some tok), L0) ->
  (Token.kind tok = kind ->
   Lexer.maybe_match fuel kind L = (Ok (Some tok), L0)
   /\ Lexer.match_ fuel kind L = (Ok (Some tok), L0))
  /\ (Token.kind tok <> kind ->
      let L1 := Lexer.set_buffer [Some tok] L0 in
      Lexer.maybe_match fuel kind L = (Ok None, L1)
      /\ (forall fuel', Lexer.pop fuel' L1 = (Ok (Some tok), L0))
      /\ (forall fuel' kind', Lexer.maybe_match fuel' kind' L1 = Lexer.maybe_match fuel kind' L)
      /\ Lexer.match_ fuel kind L
         = (Raise (LogoParserError
                     ("Error trying to parse ppm file: expecting '"
                        +:+ TokenKind_name kind +:+ "' get a '"
                        +:+ Token.__str__ tok +:+ "'")
                     (Some (Lexer.position L0))), L0)).
Proof.
  intros Hb Hpop.
  pose proof (pop_keeps_buffer_empty _ _ _ _ Hb Hpop) as Hb0.
  assert (Hmm : forall f k L2, Lexer.pop f L2 = (Ok (Some tok), L0) ->
            Lexer.maybe_match f k L2
            = if bool_decide (Token.kind tok <> k)
              then (Ok None, Lexer.set_buffer [Some tok] L0)
              else (Ok (Some tok), L0)).
  { intros f k L2 Hp. unfold Lexer.maybe_match. rewrite (bind_ok _ _ _ _ _ Hp).
    destruct (bool_decide (Token.kind tok <> k)); [|reflexivity].
    unfold bind, modify, ret. rewrite Hb0. reflexivity. }
  split.
  - intros Hkind. split.
    + rewrite (Hmm _ _ _ Hpop). rewrite bool_decide_eq_false_2; [reflexivity|].
      intros Hne. exact (Hne Hkind).
    + unfold Lexer.match_. rewrite (bind_ok _ _ _ _ _ Hpop).
      rewrite bool_decide_eq_false_2; [reflexivity|]. intros Hne. exact (Hne Hkind).
  - intros Hkind L1. split; [|split; [|split]].
    + rewrite (Hmm _ _ _ Hpop). rewrite bool_decide_eq_true_2 by exact Hkind. reflexivity.
    + intros fuel'. apply pop_from_buffer. exact Hb0.
    + intros fuel' kind'. rewrite (Hmm _ _ _ Hpop).
      apply Hmm. apply pop_from_buffer. exact Hb0.
    + unfold Lexer.match_. rewrite (bind_ok _ _ _ _ _ Hpop).
      rewrite bool_decide_eq_true_2 by exact Hkind. reflexivity.
Qed.

Lemma maybe_match_looks_ahead_witness :
  let L0 := snd (Lexer.pop 1 (Lexer.new "forward 10")) in
  Lexer.maybe_match 1 TO (Lexer.new "forward 10")
  = (Ok None, Lexer.set_buffer [Some (Token.new FORWARD 1 None)] L0)
  /\ Lexer.pop 1 (Lexer.set_buffer [Some (Token.new FORWARD 1 None)] L0)
     = (Ok (Some (Token.new FORWARD 1 None)), L0).
Proof.
  cbv zeta.
  destruct (maybe_match_looks_ahead 1 TO (Lexer.new "forward 10")
              (Token.new FORWARD 1 None) (snd (Lexer.pop 1 (Lexer.new "forward 10")))
              eq_refl) as [_ Hother].
  - vm_compute. reflexivity.
  - destruct Hother as (Hmaybe & Hpop & _); [discriminate|].
    split; [exact Hmaybe | exact (Hpop 1)].
Defined.

(** ** Lines and columns *)

Lemma advance_char_spec (p : FilePosition.t) (c : ascii) :
  Lexer.advance_char p c
  = if Ascii.eqb c Str.newline
    then FilePosition.new (FilePosition.line_num p + 1) 0
    else FilePosition.new (FilePosition.line_num p) (FilePosition.char p + 1).
Proof. unfold Lexer.advance_char. destruct (Ascii.eqb c Str.newline); reflexivity. Qed.

Lemma foldl_advance_char (l : list ascii) :
  foldl Lexer.advance_char (FilePosition.new 1 0) l
  = FilePosition.new (1 + count_newlines l) (column l).
Proof.
  induction l as [|c l IH] using rev_ind; [reflexivity|].
  rewrite foldl_app. cbn [foldl]. rewrite IH, advance_char_spec.
  unfold count_newlines, column. rewrite filter_app, length_app, reverse_app.
  cbn [reverse rev_append app run_before_newline filter list_filter].
  destruct (Ascii.eqb c Str.newline) eqn:Hc.
  - apply Ascii.eqb_eq in Hc as ->. try rewrite decide_True by reflexivity.
    cbn [FilePosition.line_num length]. f_equal; lia.
  - rewrite decide_False by (intros ->; rewrite Ascii.eqb_refl in Hc; discriminate Hc).
    cbn [FilePosition.line_num FilePosition.char length]. f_equal; lia.
Qed.

(** X17. In every state a lexer reaches on a text, its position object holds
    the line and the column of the index: the line is one more than the
    number of newlines read so far, and the column is the number of
    characters read since the last of them (since the start of the text
    when there is none). A newline therefore ends at column 0 of the next
    line. *)
Theorem lexer_position_is_line_and_column (text : string) (L : Lexer.t) :
  lexes (Lexer.new text) L ->
  let read := Str.to_list (Str.slice text 0 (Lexer._index L)) in
  Lexer.heap L !! Lexer.position L
  = Some (FilePosition.new (1 + count_newlines read) (column read)).
Proof.
  intros Hreach read.
  destruct (lexes_inv _ _ Hreach (new_lexer_inv text)) as ([Htracks _] & _ & Htext).
  rewrite Htracks, Htext. unfold position_after. cbn [Lexer.new Lexer.text].
  rewrite foldl_advance_char. reflexivity.
Qed.

Lemma lexer_position_is_line_and_column_witness :
  let L := snd (Lexer.pop 2 (snd (Lexer.pop 2 (Lexer.new two_lines_text)))) in
  Lexer.heap L !! Lexer.position L = Some (FilePosition.new 2 2).
Proof.
  cbv zeta.
  assert (Hreach : lexes (Lexer.new two_lines_text)
                     (snd (Lexer.pop 2 (snd (Lexer.pop 2 (Lexer.new two_lines_text)))))).
  { eapply rtc_l; [eapply (lex_pop 2); apply surjective_pairing|].
    eapply rtc_l; [eapply (lex_pop 2); apply surjective_pairing|].
    apply rtc_refl. }
  pose proof (lexer_position_is_line_and_column two_lines_text _ Hreach) as H.
  vm_compute in H. vm_compute. exact H.
Defined.

(** ** Skipping blanks *)

Lemma comments_closed_suffix (a b : string) :
  comments_closed (a +:+ b) = true -> comments_closed b = true.
Proof.
  induction a as [|c a IH]; [intros H; exact H|].
  change (String c a +:+ b) with (String c (a +:+ b)). cbn [comments_closed].
  intros H. apply andb_prop in H as [_ H]. exact (IH H).
Qed.

Lemma has_newline_split (s : string) :
  has_newline s = true ->
  exists cm r, s = cm +:+ String Str.newline r /\ no_newline cm = true.
Proof.
  induction s as [|c s IH]; [discriminate|]. cbn [has_newline]. intros H.
  destruct (Ascii.eqb c Str.newline) eqn:Hc.
  - apply Ascii.eqb_eq in Hc as ->. exists "", s. split; reflexivity.
  - cbn [orb] in H. destruct (IH H) as (cm & r & -> & Hcm).
    exists (String c cm), r. split; [reflexivity|].
    unfold no_newline in *. cbn [Str.all_chars]. rewrite Hc, Hcm. reflexivity.
Qed.

Lemma eat_comment_to_newline (cm : string) :
  forall L r fuel,
    remaining L = cm +:+ String Str.newline r ->
    no_newline cm = true ->
    String.length cm < fuel ->
    Lexer.eat_comment fuel L = (Ok tt, advanced_by (cm +:+ String Str.newline "") L).
Proof.
  induction cm as [|c cm IH]; intros L r fuel Hrem Hno Hfuel.
  - destruct fuel as [|fuel]; [simpl in Hfuel; lia|].
    change ("" +:+ String Str.newline r) with (String Str.newline r) in Hrem.
    cbn [Lexer.eat_comment]. rewrite (bind_ok _ _ _ _ _ (pop_c_next L _ _ Hrem)).
    rewrite bool_decide_eq_true_2 by reflexivity. reflexivity.
  - destruct fuel as [|fuel]; [simpl in Hfuel; lia|].
    change (String c cm +:+ String Str.newline r)
      with (String c (cm +:+ String Str.newline r)) in Hrem.
    unfold no_newline in Hno. cbn [Str.all_chars] in Hno.
    apply andb_prop in Hno as [Hc Hcm].
    cbn [Lexer.eat_comment]. rewrite (bind_ok _ _ _ _ _ (pop_c_next L _ _ Hrem)).
    rewrite bool_decide_eq_false_2
      by (intros [= ->]; rewrite Ascii.eqb_refl in Hc; discriminate Hc).
    change (String c cm +:+ String Str.newline "")
      with (String c (cm +:+ String Str.newline "")).
    cbn [advanced_by].
    apply (IH _ r); [exact (proj2 (advance_next L _ _ Hrem)) | exact Hcm|].
    simpl in Hfuel. lia.
Qed.

Lemma length_append (s t : string) :
  String.length (s +:+ t) = String.length s + String.length t.
Proof.
  induction s as [|a s IH]; [reflexivity|].
  change (String a s +:+ t) with (String a (s +:+ t)). cbn [String.length].
  rewrite IH. reflexivity.
Qed.

Lemma space_is_no_hash (c : ascii) : Str.char_isspace c = true -> Ascii.eqb c "#" = false.
Proof.
  destruct c as [[] [] [] [] [] [] [] []]; intros H; cbv in H;
    try discriminate H; reflexivity.
Qed.

Lemma blanks_spaces (s : string) :
  Str.all_chars Str.char_isspace s = true -> blanks false s = true.
Proof.
  induction s as [|c s IH]; [reflexivity|]. cbn [Str.all_chars blanks]. intros H.
  apply andb_prop in H as [Hc Hs]. rewrite (space_is_no_hash c Hc), Hc. exact (IH Hs).
Qed.

Lemma blanks_app (a b : string) :
  forall in_comment,
    blanks in_comment a = true -> blanks false b = true ->
    blanks in_comment (a +:+ b) = true.
Proof.
  induction a as [|c a IH]; intros in_comment Ha Hb.
  - destruct in_comment; [discriminate Ha | exact Hb].
  - change (String c a +:+ b) with (String c (a +:+ b)). cbn [blanks] in *.
    destruct in_comment; [exact (IH _ Ha Hb)|].
    destruct (Ascii.eqb c "#"); [exact (IH _ Ha Hb)|].
    apply andb_prop in Ha as [Hc Ha]. rewrite Hc. exact (IH _ Ha Hb).
Qed.

Lemma blanks_comment (cm : string) :
  no_newline cm = true -> blanks true (cm +:+ String Str.newline "") = true.
Proof.
  unfold no_newline. induction cm as [|c cm IH]; [reflexivity|].
  change (String c cm +:+ String Str.newline "")
    with (String c (cm +:+ String Str.newline "")).
  cbn [Str.all_chars blanks]. intros H. apply andb_prop in H as [Hc Hs].
  rewrite Hc. exact (IH Hs).
Qed.

(** X18. Where every comment of the text still to be read is ended by a
    newline, the skipping of blanks returns, given fuel for the characters
    to be read: what it has read is made of whitespace and whole comments
    only, each from its [#] through its newline, and it stops at the end of
    the text or before a character that is neither whitespace nor [#]. *)
Theorem eat_spaces_stops_before_a_token (fuel : nat) :
  forall L,
    comments_closed (remaining L) = true ->
    String.length (remaining L) + 1 < fuel ->
    exists skipped,
      Lexer.eat_spaces fuel L = (Ok tt, advanced_by skipped L)
      /\ remaining L = skipped +:+ remaining (advanced_by skipped L)
      /\ blanks false skipped = true
      /\ stops_at blank_char (remaining (advanced_by skipped L)).
Proof.
  induction fuel as [|fuel IH]; intros L Hclosed Hfuel; [lia|].
  destruct (span_spec Str.isspace (remaining L)) as (Happ & Hall & Hstop).
  set (sp := fst (span Str.isspace (remaining L))) in *.
  set (r := snd (span Str.isspace (remaining L))) in *.
  pose proof (remaining_advanced_by sp L r Happ) as Hrem1.
  assert (Hsp : blanks false sp = true).
  { apply blanks_spaces. clearbody sp. clear -Hall.
    induction sp as [|c sp IHsp]; [reflexivity|].
    cbn [Str.all_chars] in *. apply andb_prop in Hall as [Hc Hs].
    rewrite isspace_one in Hc. rewrite Hc. exact (IHsp Hs). }
  cbn [Lexer.eat_spaces].
  assert (Hget : Lexer.get_while Str.isspace L = (Ok sp, advanced_by sp L))
    by apply get_while_spec.
  rewrite (bind_ok _ _ _ _ _ Hget).
  destruct r as [|c r'] eqn:Hr.
  - rewrite (bind_ok _ _ _ _ _ (peek_end _ Hrem1)). cbn [Str.truthy_opt negb].
    exists sp. rewrite Hrem1. split; [reflexivity|]. split; [exact Happ|].
    split; [exact Hsp | exact I].
  - rewrite (bind_ok _ _ _ _ _ (peek_next _ _ _ Hrem1)).
    cbn [Str.truthy_opt Str.truthy negb stops_at] in *. rewrite isspace_one in Hstop.
    destruct (Ascii.eqb c "#") eqn:Hhash.
    + apply Ascii.eqb_eq in Hhash as ->.
      rewrite bool_decide_eq_true_2 by reflexivity.
      destruct (advance_next _ _ _ Hrem1) as [Hadv Hrem2].
      rewrite (bind_ok _ _ _ _ _ Hadv).
      rewrite Happ in Hclosed. apply comments_closed_suffix in Hclosed.
      cbn [comments_closed Ascii.eqb Bool.eqb] in Hclosed.
      apply andb_prop in Hclosed as [Hnl Hclosed'].
      destruct (has_newline_split r' Hnl) as (cm & r'' & -> & Hcm).
      assert (Hlen : String.length (remaining L)
                     = String.length sp + S (String.length cm + S (String.length r''))).
      { rewrite Happ, length_append. cbn [String.length]. rewrite length_append.
        reflexivity. }
      assert (Hcomment : Lexer.eat_comment fuel (advanced "#" (advanced_by sp L))
                         = (Ok tt, advanced_by (cm +:+ String Str.newline "")
                                     (advanced "#" (advanced_by sp L)))).
      { apply (eat_comment_to_newline cm _ r''); [exact Hrem2 | exact Hcm | lia]. }
      rewrite (bind_ok _ _ _ _ _ Hcomment).
      set (L3 := advanced_by (cm +:+ String Str.newline "") (advanced "#" (advanced_by sp L))).
      assert (Hrem3 : remaining L3 = r'').
      { apply remaining_advanced_by. rewrite Hrem2, append_assoc. reflexivity. }
      destruct (IH L3) as (skipped & Heat & Hskip & Hblank & Hstops).
      * rewrite Hrem3. exact (comments_closed_suffix _ _ Hclosed').
      * rewrite Hrem3. lia.
      * exists (sp +:+ String "#" (cm +:+ String Str.newline "") +:+ skipped).
        assert (Hstate : advanced_by
                           (sp +:+ String "#" (cm +:+ String Str.newline "") +:+ skipped) L
                         = advanced_by skipped L3).
        { rewrite advanced_by_app.
          change (String "#" (cm +:+ String Str.newline "") +:+ skipped)
            with (String "#" ((cm +:+ String Str.newline "") +:+ skipped)).
          cbn [advanced_by]. rewrite advanced_by_app. reflexivity. }
        rewrite Hstate. split; [exact Heat|]. split; [|split; [|exact Hstops]].
        -- rewrite Hrem3 in Hskip. rewrite Happ, Hskip, !append_assoc.
           change (String "#" (cm +:+ String Str.newline "")
                   +:+ skipped +:+ remaining (advanced_by skipped L3))
             with (String "#" ((cm +:+ String Str.newline "")
                               +:+ skipped +:+ remaining (advanced_by skipped L3))).
           rewrite append_assoc. reflexivity.
        -- apply blanks_app; [exact Hsp|].
           change (String "#" (cm +:+ String Str.newline "") +:+ skipped)
             with (String "#" ((cm +:+ String Str.newline "") +:+ skipped)).
           cbn [blanks Ascii.eqb Bool.eqb].
           apply blanks_app; [exact (blanks_comment cm Hcm) | exact Hblank].
    + rewrite bool_decide_eq_false_2
        by (intros [= ->]; rewrite Ascii.eqb_refl in Hhash; discriminate Hhash).
      assert (Hdone : stops_at blank_char (remaining (advanced_by sp L))).
      { rewrite Hrem1. cbn [stops_at]. unfold blank_char. rewrite Hstop, Hhash. reflexivity. }
      destruct (Str.truthy sp) eqn:Htruthy; cbn [negb].
      * destruct fuel as [|fuel']; [lia|].
        assert (Hne : c <> "#"%char)
          by (intros ->; rewrite Ascii.eqb_refl in Hhash; discriminate Hhash).
        rewrite (eat_spaces_at_token fuel' _ _ _ Hrem1 Hstop Hne).
        exists sp. split; [reflexivity|]. rewrite Hrem1.
        split; [exact Happ|]. split; [exact Hsp|]. rewrite <- Hrem1. exact Hdone.
      * exists sp. split; [reflexivity|]. rewrite Hrem1.
        split; [exact Happ|]. split; [exact Hsp|]. rewrite <- Hrem1. exact Hdone.
Qed.

Lemma eat_spaces_stops_before_a_token_witness :
  exists skipped,
    Lexer.eat_spaces 30 (Lexer.new "  # a comment
 forward") = (Ok tt, advanced_by skipped (Lexer.new "  # a comment
 forward"))
    /\ remaining (Lexer.new "  # a comment
 forward") = skipped +:+ remaining (advanced_by skipped (Lexer.new "  # a comment
 forward"))
    /\ blanks false skipped = true
    /\ stops_at blank_char (remaining (advanced_by skipped (Lexer.new "  # a comment
 forward"))).
Proof.
  apply (eat_spaces_stops_before_a_token 30 (Lexer.new "  # a comment
 forward")); [reflexivity | vm_compute; lia].
Defined.

(** ** What [pop] reads and what it can raise *)

Lemma has_read_refl (L : Lexer.t) : has_read "" L L.
Proof. split; [reflexivity|]. split; [reflexivity | simpl; lia]. Qed.

Lemma has_read_trans (s t : string) (L L1 L2 : Lexer.t) :
  has_read s L L1 -> has_read t L1 L2 -> has_read (s +:+ t) L L2.
Proof.
  intros (Htext1 & Hrem1 & Hindex1) (Htext2 & Hrem2 & Hindex2).
  split; [congruence|]. split.
  - rewrite Hrem1, Hrem2, append_assoc. reflexivity.
  - rewrite Hindex2, Hindex1, length_append. lia.
Qed.

Lemma has_read_advanced_by (s r : string) (L : Lexer.t) :
  remaining L = s +:+ r -> has_read s L (advanced_by s L).
Proof.
  intros Hrem. split; [apply advanced_by_text|]. split; [|apply advanced_by_index].
  rewrite (remaining_advanced_by s L r Hrem). exact Hrem.
Qed.

Lemma has_read_advanced (c : ascii) (r : string) (L : Lexer.t) :
  remaining L = String c r -> has_read (String c "") L (advanced c L).
Proof. intros Hrem. exact (has_read_advanced_by (String c "") r L Hrem). Qed.

Lemma quiet_at_ret {A : Type} (a : A) (L : Lexer.t) : quiet_at (ret a) L.
Proof.
  intros r L' [= <- <-]. split; [exists ""; apply has_read_refl | discriminate].
Qed.

Lemma quiet_at_out_of_fuel {A : Type} (L : Lexer.t) : quiet_at (@out_of_fuel _ A) L.
Proof.
  intros r L' [= <- <-]. split; [exists ""; apply has_read_refl | discriminate].
Qed.

Lemma quiet_at_bind {A B : Type} (c : comp Lexer.t A) (k : A -> comp Lexer.t B)
    (L : Lexer.t) :
  quiet_at c L ->
  (forall a L1, c L = (Ok a, L1) -> quiet_at (k a) L1) ->
  quiet_at (bind c k) L.
Proof.
  intros Hc Hk r L' Hrun. unfold bind in Hrun.
  destruct (c L) as [[a|e|] L1] eqn:Hrun1.
  - destruct (Hc _ _ Hrun1) as [[s Hs] _].
    destruct (Hk a L1 eq_refl _ _ Hrun) as [[t Ht] Hquiet].
    split; [exists (s +:+ t); exact (has_read_trans _ _ _ _ _ Hs Ht) | exact Hquiet].
  - destruct (Hc _ _ Hrun1) as [_ Hquiet]. exfalso. exact (Hquiet e eq_refl).
  - injection Hrun as <- <-. destruct (Hc _ _ Hrun1) as [Hs _].
    split; [exact Hs | discriminate].
Qed.

Lemma reads_at_bind {A : Type} (c : comp Lexer.t A)
    (k : A -> comp Lexer.t (option Token.t)) (L : Lexer.t) :
  quiet_at c L ->
  (forall a L1, c L = (Ok a, L1) -> reads_at (k a) L1) ->
  reads_at (bind c k) L.
Proof.
  intros Hc Hk r L' Hrun. unfold bind in Hrun.
  destruct (c L) as [[a|e|] L1] eqn:Hrun1.
  - destruct (Hc _ _ Hrun1) as [[s Hs] _].
    destruct (Hk a L1 eq_refl _ _ Hrun) as [[t Ht] Hexn].
    split; [exists (s +:+ t); exact (has_read_trans _ _ _ _ _ Hs Ht) | exact Hexn].
  - destruct (Hc _ _ Hrun1) as [_ Hquiet]. exfalso. exact (Hquiet e eq_refl).
  - injection Hrun as <- <-. destruct (Hc _ _ Hrun1) as [Hs _].
    split; [exact Hs | exact I].
Qed.

Lemma quiet_at_is (A : Type) (c : comp Lexer.t A) (L L1 : Lexer.t) (a : A) (s : string) :
  c L = (Ok a, L1) -> has_read s L L1 -> quiet_at c L.
Proof.
  intros Hrun Hs r L' Hrun'. rewrite Hrun in Hrun'. injection Hrun' as <- <-.
  split; [exists s; exact Hs | discriminate].
Qed.

Lemma quiet_at_peek_c (L : Lexer.t) : quiet_at (Lexer._peek_c 0) L.
Proof.
  intros r L' [= <- <-]. split; [exists ""; apply has_read_refl | discriminate].
Qed.

(** What [_peek_c] returns tells what is left of the text. *)
Lemma peek_c_cases (L L1 : Lexer.t) (next : option string) :
  Lexer._peek_c 0 L = (Ok next, L1) ->
  L1 = L
  /\ match next with
     | None => remaining L = ""
     | Some x => exists c r, x = String c "" /\ remaining L = String c r
     end.
Proof.
  intros Hpeek. destruct (remaining L) as [|c r] eqn:Hrem.
  - rewrite (peek_end L Hrem) in Hpeek. injection Hpeek as <- <-. split; reflexivity.
  - rewrite (peek_next L c r Hrem) in Hpeek. injection Hpeek as <- <-.
    split; [reflexivity|]. exists c, r. split; reflexivity.
Qed.

Lemma pop_c_cases (L L1 : Lexer.t) (popped : option string) :
  Lexer._pop_c 1 L = (Ok popped, L1) ->
  match popped with
  | None => remaining L = "" /\ L1 = L
  | Some x => exists c r, x = String c "" /\ remaining L = String c r /\ L1 = advanced c L
  end.
Proof.
  intros Hpop. destruct (remaining L) as [|c r] eqn:Hrem.
  - rewrite (pop_c_end L Hrem) in Hpop. injection Hpop as <- <-. split; reflexivity.
  - rewrite (pop_c_next L c r Hrem) in Hpop. injection Hpop as <- <-.
    exists c, r. repeat split; reflexivity.
Qed.

Lemma quiet_at_advance (L : Lexer.t) (c : ascii) (r : string) :
  remaining L = String c r -> quiet_at (Lexer._advance 1) L.
Proof.
  intros Hrem.
  exact (quiet_at_is _ _ _ _ _ _ (proj1 (advance_next L c r Hrem))
           (has_read_advanced c r L Hrem)).
Qed.

Lemma quiet_at_pop_c (L : Lexer.t) : quiet_at (Lexer._pop_c 1) L.
Proof.
  destruct (remaining L) as [|c r] eqn:Hrem.
  - exact (quiet_at_is _ _ _ _ _ _ (pop_c_end L Hrem) (has_read_refl L)).
  - exact (quiet_at_is _ _ _ _ _ _ (pop_c_next L c r Hrem) (has_read_advanced c r L Hrem)).
Qed.

Lemma quiet_at_get_while (cond : string -> bool) (L : Lexer.t) :
  quiet_at (Lexer.get_while cond) L.
Proof.
  destruct (span_spec cond (remaining L)) as (Happ & _).
  exact (quiet_at_is _ _ _ _ _ _ (get_while_spec cond L)
           (has_read_advanced_by _ _ L Happ)).
Qed.

Lemma quiet_at_eat_comment (fuel : nat) : forall L, quiet_at (Lexer.eat_comment fuel) L.
Proof.
  induction fuel as [|fuel IH]; intros L; [apply quiet_at_out_of_fuel|].
  cbn [Lexer.eat_comment]. apply quiet_at_bind; [apply quiet_at_pop_c|].
  intros popped L1 _. destruct (bool_decide _); [apply quiet_at_ret | apply IH].
Qed.

Lemma quiet_at_eat_spaces (fuel : nat) : forall L, quiet_at (Lexer.eat_spaces fuel) L.
Proof.
  induction fuel as [|fuel IH]; intros L; [apply quiet_at_out_of_fuel|].
  cbn [Lexer.eat_spaces]. apply quiet_at_bind; [apply quiet_at_get_while|].
  intros spaces L1 _. apply quiet_at_bind; [apply quiet_at_peek_c|].
  intros next L2 Hpeek. apply peek_c_cases in Hpeek as [-> Hnext].
  destruct (negb (Str.truthy_opt next)); [apply quiet_at_ret|].
  destruct (bool_decide (next = Some "#")) eqn:Hhash.
  - apply bool_decide_eq_true_1 in Hhash as ->.
    destruct Hnext as (c & r & _ & Hrem).
    apply quiet_at_bind; [exact (quiet_at_advance _ _ _ Hrem)|].
    intros _ L3 _. apply quiet_at_bind; [apply quiet_at_eat_comment|].
    intros _ L4 _. apply IH.
  - destruct (negb (Str.truthy spaces)); [apply quiet_at_ret | apply IH].
Qed.

Lemma reads_at_ret (tok : option Token.t) (L : Lexer.t) : reads_at (ret tok) L.
Proof.
  intros r L' [= <- <-]. split; [exists ""; apply has_read_refl | exact I].
Qed.

Lemma reads_at_Token (kind : TokenKind) (content : option string) (L : Lexer.t) :
  reads_at (Lexer._Token kind content) L.
Proof.
  intros r L' [= <- <-]. split; [exists ""; exact (has_read_refl L) | exact I].
Qed.

Lemma reads_at_pop_number (c : string) (L : Lexer.t) : reads_at (Lexer.pop_number c) L.
Proof.
  unfold Lexer.pop_number. apply reads_at_bind.
  { destruct (bool_decide (c = "-")); [apply quiet_at_pop_c | apply quiet_at_ret]. }
  intros [c'|] L1 _.
  2: { intros r L' [= <- <-]. split; [exists ""; apply has_read_refl | left; reflexivity]. }
  destruct (Str.isnumeric c').
  - apply reads_at_bind; [apply quiet_at_get_while|]. intros digits L2 _.
    apply reads_at_bind; [apply quiet_at_peek_c|]. intros dot L3 Hpeek.
    apply peek_c_cases in Hpeek as [-> Hdot].
    apply reads_at_bind.
    + destruct (bool_decide (dot = Some ".")) eqn:Hisdot; [|apply quiet_at_ret].
      apply bool_decide_eq_true_1 in Hisdot as ->. destruct Hdot as (d & r & _ & Hrem).
      apply quiet_at_bind; [exact (quiet_at_advance _ _ _ Hrem)|].
      intros _ L4 _. apply quiet_at_bind; [apply quiet_at_get_while|].
      intros rational_part L5 _. destruct (negb _); apply quiet_at_ret.
    + intros [number_literal|] L4 _; [apply reads_at_Token | apply reads_at_ret].
  - destruct (bool_decide (c = "-")); [|apply reads_at_ret].
    intros r L' [= <- <-]. split; [exists ""; apply has_read_refl | right; reflexivity].
Qed.

(** X19. Whatever the text and the fuel, a [pop] on an empty buffer reads a
    prefix of the text still to be read and nothing else: the text is kept,
    the index moves forward by the number of characters read and stays
    within the text if it was. It never raises the [LogoParserError] of
    [_advance] ("Lexer cannot advance"): the only exceptions it can end in
    are the [AttributeError] of a [-] at the end of the text and the
    [AssertionError] of a [-] before a character that is no digit. *)
Theorem pop_reads_a_prefix (fuel : nat) (L L' : Lexer.t) (r : res (option Token.t)) :
  Lexer._buffer L = [] ->
  Lexer.pop fuel L = (r, L') ->
  (exists s, has_read s L L')
  /\ (Lexer._index L <= Lexer._text_len L -> Lexer._index L' <= Lexer._text_len L')
  /\ lexer_exception r.
Proof.
  intros Hbuffer Hpop.
  assert (Hreads : reads_at (Lexer.pop fuel) L).
  { intros r0 L0 Hrun. unfold Lexer.pop in Hrun. rewrite Hbuffer in Hrun.
    revert r0 L0 Hrun.
    apply reads_at_bind; [apply quiet_at_eat_spaces|]. intros _ L1 _.
    apply reads_at_bind; [apply quiet_at_pop_c|]. intros [c|] L2 _;
      [|apply reads_at_Token].
    destruct (negb (Str.truthy c)); [apply reads_at_Token|].
    destruct (bool_decide (c = "[")); [apply reads_at_Token|].
    destruct (bool_decide (c = "]")); [apply reads_at_Token|].
    destruct (Str.isalpha c).
    { apply reads_at_bind; [apply quiet_at_get_while|]. intros rest L3 _.
      destruct (Lexer.keyword _); apply reads_at_Token. }
    destruct (bool_decide (c = ":")).
    { apply reads_at_bind; [apply quiet_at_get_while|]. intros rest L3 _.
      apply reads_at_Token. }
    apply reads_at_pop_number. }
  destruct (Hreads r L' Hpop) as [[s Hs] Hexn].
  split; [exists s; exact Hs|]. split; [|exact Hexn].
  destruct Hs as (Htext & Hrem & Hindex). intros Hle.
  pose proof (length_remaining L) as Hlen. rewrite Hrem, length_append in Hlen.
  unfold Lexer._text_len in *. rewrite Htext. lia.
Qed.

Lemma pop_reads_a_prefix_witness :
  (exists s, has_read s (Lexer.new "- 1") (snd (Lexer.pop 1 (Lexer.new "- 1"))))
  /\ (Lexer._index (Lexer.new "- 1") <= Lexer._text_len (Lexer.new "- 1") ->
      Lexer._index (snd (Lexer.pop 1 (Lexer.new "- 1")))
      <= Lexer._text_len (snd (Lexer.pop 1 (Lexer.new "- 1"))))
  /\ lexer_exception (fst (Lexer.pop 1 (Lexer.new "- 1")))
  /\ fst (Lexer.pop 1 (Lexer.new "- 1")) = Raise AssertionError.
Proof.
  pose proof (pop_reads_a_prefix 1 (Lexer.new "- 1") (snd (Lexer.pop 1 (Lexer.new "- 1")))
                (fst (Lexer.pop 1 (Lexer.new "- 1"))) eq_refl
                (surjective_pairing _)) as (Hs & Hindex & Hexn).
  split; [exact Hs|]. split; [exact Hindex|]. split; [exact Hexn|].
  vm_compute. reflexivity.
Defined.

(** ** The parser and the token it looks at *)

Lemma maybe_match_of_pop (fuel : nat) (kind : TokenKind) (L L0 : Lexer.t) (tok : Token.t) :
  Lexer._buffer L0 = [] ->
  Lexer.pop fuel L = (Ok (Some tok), L0) ->
  Lexer.maybe_match fuel kind L
  = if bool_decide (Token.kind tok <> kind)
    then (Ok None, Lexer.set_buffer [Some tok] L0)
    else (Ok (Some tok), L0).
Proof.
  intros Hb0 Hpop. unfold Lexer.maybe_match. rewrite (bind_ok _ _ _ _ _ Hpop).
  destruct (bool_decide (Token.kind tok <> kind)); [|reflexivity].
  unfold bind, modify, ret. rewrite Hb0. reflexivity.
Qed.

Lemma maybe_match_buffered (fuel : nat) (kind : TokenKind) (L0 : Lexer.t) (tok : Token.t) :
  Lexer._buffer L0 = [] ->
  Lexer.maybe_match fuel kind (Lexer.set_buffer [Some tok] L0)
  = if bool_decide (Token.kind tok <> kind)
    then (Ok None, Lexer.set_buffer [Some tok] L0)
    else (Ok (Some tok), L0).
Proof.
  intros Hb0. apply maybe_match_of_pop; [exact Hb0|]. apply pop_from_buffer. exact Hb0.
Qed.

Lemma parse_expression_of_pop (fuel : nat) (L L0 : Lexer.t) (tok : Token.t) :
  Lexer._buffer L0 = [] ->
  Lexer.pop fuel L = (Ok (Some tok), L0) ->
  LogoParser.parse_expression fuel L
  = match Token.kind tok with
    | NUMBER => LogoParser.float_ tok L0
    | SYMBOL => (Ok (AstSymbolReference (Token.content_str tok)), L0)
    | _ => (Ok PyNone, Lexer.set_buffer [Some tok] L0)
    end.
Proof.
  intros Hb0 Hpop. unfold LogoParser.parse_expression.
  pose proof (maybe_match_of_pop _ NUMBER _ _ _ Hb0 Hpop) as Hnum.
  destruct (decide (Token.kind tok = NUMBER)) as [Hnumber|Hnumber].
  { rewrite bool_decide_eq_false_2 in Hnum by (intros Hne; exact (Hne Hnumber)).
    rewrite (bind_ok _ _ _ _ _ Hnum), Hnumber. reflexivity. }
  rewrite bool_decide_eq_true_2 in Hnum by exact Hnumber.
  rewrite (bind_ok _ _ _ _ _ Hnum).
  pose proof (maybe_match_buffered fuel SYMBOL _ tok Hb0) as Hsym.
  destruct (decide (Token.kind tok = SYMBOL)) as [Hsymbol|Hsymbol].
  { rewrite bool_decide_eq_false_2 in Hsym by (intros Hne; exact (Hne Hsymbol)).
    rewrite (bind_ok _ _ _ _ _ Hsym), Hsymbol. reflexivity. }
  rewrite bool_decide_eq_true_2 in Hsym by exact Hsymbol.
  rewrite (bind_ok _ _ _ _ _ Hsym).
  destruct (Token.kind tok); try reflexivity; congruence.
Qed.

(** X20. [parse_expression] takes at most one token. On an empty buffer,
    when the lexer's next token is a NUMBER it is consumed and converted by
    [float]; when it is a SYMBOL it is consumed and becomes a reference to
    its name; a token of any other kind gives [None] and is not consumed: the
    next [pop] returns it, and leaves the lexer as the first one would have. *)
Theorem parse_expression_takes_one_token (fuel : nat) (L L0 : Lexer.t) (tok : Token.t) :
  Lexer._buffer L = [] ->
  Lexer.pop fuel L = (Ok (Some tok), L0) ->
  (Token.kind tok = NUMBER -> LogoParser.parse_expression fuel L = LogoParser.float_ tok L0)
  /\ (Token.kind tok = SYMBOL ->
      LogoParser.parse_expression fuel L
      = (Ok (AstSymbolReference (Token.content_str tok)), L0))
  /\ (Token.kind tok <> NUMBER -> Token.kind tok <> SYMBOL ->
      LogoParser.parse_expression fuel L = (Ok PyNone, Lexer.set_buffer [Some tok] L0)
      /\ forall fuel', Lexer.pop fuel' (Lexer.set_buffer [Some tok] L0) = (Ok (Some tok), L0)).
Proof.
  intros Hb Hpop. pose proof (pop_keeps_buffer_empty _ _ _ _ Hb Hpop) as Hb0.
  pose proof (parse_expression_of_pop fuel L L0 tok Hb0 Hpop) as Hexpr.
  split; [|split].
  - intros Hkind. rewrite Hexpr, Hkind. reflexivity.
  - intros Hkind. rewrite Hexpr, Hkind. reflexivity.
  - intros Hnumber Hsymbol. split.
    + rewrite Hexpr. destruct (Token.kind tok); try reflexivity; congruence.
    + intros fuel'. apply pop_from_buffer. exact Hb0.
Qed.

Lemma parse_expression_takes_one_token_witness :
  LogoParser.parse_expression 1 (Lexer.new ":size ]")
  = (Ok (AstSymbolReference ":size"), snd (Lexer.pop 1 (Lexer.new ":size ]"))).
Proof.
  refine (proj1 (proj2 (parse_expression_takes_one_token 1 (Lexer.new ":size ]")
                          (snd (Lexer.pop 1 (Lexer.new ":size ]")))
                          (Token.new SYMBOL 1 (Some ":size")) eq_refl _)) eq_refl).
  vm_compute. reflexivity.
Defined.

(** X21. A number that is zero ends the arguments of a call, and is lost.
    The loop [while expr := self.parse_expression()] tests the expression for
    truth: when the next token is a NUMBER whose value is zero, the token is
    consumed and the loop ends with the arguments read so far; a NUMBER of
    any other value is appended and the loop goes on. *)
Theorem zero_ends_the_arguments (fuel : nat) (L L0 : Lexer.t) (tok : Token.t) (x : float)
    (arguments : list obj) :
  Lexer._buffer L = [] ->
  Lexer.pop (S fuel) L = (Ok (Some tok), L0) ->
  Token.kind tok = NUMBER ->
  Float.of_string (Token.content_str tok) = Some x ->
  LogoParser.parse_arguments (S fuel) arguments L
  = if PrimFloat.eqb x PrimFloat.zero then (Ok arguments, L0)
    else LogoParser.parse_arguments fuel (arguments ++ [PyFloat x]) L0.
Proof.
  intros Hb Hpop Hkind Hfloat. pose proof (pop_keeps_buffer_empty _ _ _ _ Hb Hpop) as Hb0.
  cbn [LogoParser.parse_arguments].
  assert (Hexpr : LogoParser.parse_expression (S fuel) L = (Ok (PyFloat x), L0)).
  { rewrite (parse_expression_of_pop _ _ _ _ Hb0 Hpop), Hkind.
    unfold LogoParser.float_. rewrite Hfloat. reflexivity. }
  rewrite (bind_ok _ _ _ _ _ Hexpr). cbn [truthy]. unfold Float.truthy.
  destruct (PrimFloat.eqb x PrimFloat.zero); reflexivity.
Qed.

Lemma zero_ends_the_arguments_witness :
  LogoParser.parse_arguments 2 [] (Lexer.new "0 10")
  = (Ok [], snd (Lexer.pop 2 (Lexer.new "0 10"))).
Proof.
  exact (zero_ends_the_arguments 1 (Lexer.new "0 10") (snd (Lexer.pop 2 (Lexer.new "0 10")))
           (Token.new NUMBER 1 (Some "0")) PrimFloat.zero [] eq_refl eq_refl eq_refl eq_refl).
Defined.

Lemma parse_instruction_of_stray (fuel : nat) (L L1 : Lexer.t) :
  (forall kind, starts_no_instruction kind = false ->
                Lexer.maybe_match (S fuel) kind L = (Ok None, L1)) ->
  (forall kind, starts_no_instruction kind = false ->
                Lexer.maybe_match (S fuel) kind L1 = (Ok None, L1)) ->
  LogoParser.parse_instruction (S fuel) L = (Ok PyNone, L1).
Proof.
  intros Hfirst Hnext. cbn [LogoParser.parse_instruction].
  rewrite (bind_ok _ _ _ _ _ (Hfirst TO eq_refl)).
  rewrite bool_decide_eq_false_2 by (intros [? [=]]).
  rewrite (bind_ok _ _ _ _ _ (Hnext ROTATE eq_refl)).
  rewrite bool_decide_eq_false_2 by (intros [? [=]]).
  rewrite (bind_ok _ _ _ _ _ (Hnext FORWARD eq_refl)).
  rewrite bool_decide_eq_false_2 by (intros [? [=]]).
  rewrite (bind_ok _ _ _ _ _ (Hnext BACKWARD eq_refl)).
  rewrite bool_decide_eq_false_2 by (intros [? [=]]).
  rewrite (bind_ok _ _ _ _ _ (Hnext PENDOWN eq_refl)).
  rewrite bool_decide_eq_false_2 by (intros [? [=]]).
  rewrite (bind_ok _ _ _ _ _ (Hnext PENUP eq_refl)).
  rewrite bool_decide_eq_false_2 by (intros [? [=]]).
  rewrite (bind_ok _ _ _ _ _ (Hnext REPEAT eq_refl)).
  rewrite bool_decide_eq_false_2 by (intros [? [=]]).
  rewrite (bind_ok _ _ _ _ _ (Hnext IDENTIFIER eq_refl)).
  reflexivity.
Qed.

Lemma maybe_match_stray (fuel : nat) (L0 : Lexer.t) (tok : Token.t) (kind : TokenKind) :
  Lexer._buffer L0 = [] ->
  starts_no_instruction (Token.kind tok) = true ->
  starts_no_instruction kind = false ->
  Lexer.maybe_match fuel kind (Lexer.set_buffer [Some tok] L0)
  = (Ok None, Lexer.set_buffer [Some tok] L0).
Proof.
  intros Hb0 Hstray Hkind. rewrite (maybe_match_buffered _ _ _ _ Hb0).
  rewrite bool_decide_eq_true_2; [reflexivity|]. intros Heq. rewrite Heq in Hstray. congruence.
Qed.

(** X22. A token no instruction starts with stops the parser for good. When
    the lexer's next token is a bracket, a NUMBER, a SYMBOL or END where an
    instruction of the file is expected, [parse_instruction] falls through
    all its tests and returns [None] without consuming the token; the loop of
    [parse] then meets the same token in the same state again, so [parse]
    does not return, whatever fuel it is given. *)
Theorem stray_token_stops_the_parser (fuel : nat) (L L0 : Lexer.t) (tok : Token.t) :
  Lexer._buffer L = [] ->
  Lexer.pop fuel L = (Ok (Some tok), L0) ->
  starts_no_instruction (Token.kind tok) = true ->
  let L1 := Lexer.set_buffer [Some tok] L0 in
  LogoParser.parse_instruction fuel L = (Ok PyNone, L1)
  /\ (forall fuel', LogoParser.parse_instruction (S fuel') L1 = (Ok PyNone, L1))
  /\ (forall fuel' file_body, LogoParser.parse_file_body fuel' file_body L1 = (OutOfFuel, L1))
  /\ LogoParser.parse fuel L = (OutOfFuel, L1).
Proof.
  intros Hb Hpop Hstray L1. pose proof (pop_keeps_buffer_empty _ _ _ _ Hb Hpop) as Hb0.
  assert (Hfirst : forall kind, starts_no_instruction kind = false ->
                     Lexer.maybe_match fuel kind L = (Ok None, L1)).
  { intros kind Hkind. rewrite (maybe_match_of_pop _ kind _ _ _ Hb0 Hpop).
    rewrite bool_decide_eq_true_2; [reflexivity|].
    intros Heq. rewrite Heq in Hstray. congruence. }
  assert (Hnext : forall fuel' kind, starts_no_instruction kind = false ->
                    Lexer.maybe_match fuel' kind L1 = (Ok None, L1)).
  { intros fuel' kind Hkind. exact (maybe_match_stray _ _ _ _ Hb0 Hstray Hkind). }
  assert (Hinstruction : forall fuel', LogoParser.parse_instruction (S fuel') L1
                                       = (Ok PyNone, L1)).
  { intros fuel'. apply parse_instruction_of_stray; intros kind Hkind; apply Hnext, Hkind. }
  assert (Hloop : forall fuel' file_body,
             LogoParser.parse_file_body fuel' file_body L1 = (OutOfFuel, L1)).
  { induction fuel' as [|fuel' IH]; intros file_body; [reflexivity|].
    cbn [LogoParser.parse_file_body].
    rewrite (bind_ok _ _ _ _ _ (Hnext (S fuel') EOF eq_refl)).
    rewrite bool_decide_eq_false_2 by (intros [? [=]]).
    rewrite (bind_ok _ _ _ _ _ (Hinstruction fuel')). apply IH. }
  destruct fuel as [|fuel].
  { unfold Lexer.pop in Hpop. rewrite Hb in Hpop. discriminate Hpop. }
  assert (Hone : LogoParser.parse_instruction (S fuel) L = (Ok PyNone, L1)).
  { apply parse_instruction_of_stray; intros kind Hkind;
      [apply Hfirst, Hkind | apply Hnext, Hkind]. }
  split; [exact Hone|]. split; [exact Hinstruction|]. split; [exact Hloop|].
  unfold LogoParser.parse. cbn [LogoParser.parse_file_body].
  assert (Hbody : (let! t := Lexer.maybe_match (S fuel) EOF in
                   if bool_decide (is_Some t) then ret []
                   else let! instruction := LogoParser.parse_instruction (S fuel) in
                        LogoParser.parse_file_body fuel ([] ++ [instruction])) L
                  = (OutOfFuel, L1)).
  { rewrite (bind_ok _ _ _ _ _ (Hfirst EOF eq_refl)).
    rewrite bool_decide_eq_false_2 by (intros [? [=]]).
    rewrite (bind_ok _ _ _ _ _ (Hinstruction fuel)). apply Hloop. }
  exact (bind_out_of_fuel _ _ _ _ Hbody).
Qed.

Lemma stray_token_stops_the_parser_witness :
  let L1 := Lexer.set_buffer [Some (Token.new NUMBER 1 (Some "10"))]
              (snd (Lexer.pop 5 (Lexer.new "10 forward 10"))) in
  LogoParser.parse_instruction 5 (Lexer.new "10 forward 10") = (Ok PyNone, L1)
  /\ (forall fuel', LogoParser.parse_instruction (S fuel') L1 = (Ok PyNone, L1))
  /\ (forall fuel' file_body, LogoParser.parse_file_body fuel' file_body L1 = (OutOfFuel, L1))
  /\ LogoParser.parse 5 (Lexer.new "10 forward 10") = (OutOfFuel, L1).
Proof.
  exact (stray_token_stops_the_parser 5 (Lexer.new "10 forward 10")
           (snd (Lexer.pop 5 (Lexer.new "10 forward 10")))
           (Token.new NUMBER 1 (Some "10")) eq_refl eq_refl eq_refl).
Defined.

(** ** Errors of the parser and of a repeat *)

(** X23. The one syntax error of the parser: a [to] that is not followed by
    a name. When the next token is TO, no other token is looked ahead, and
    the token after it is of another kind than IDENTIFIER,
    [parse_instruction] raises the [LogoParserError] of [Lexer.match], whose
    message names the expected kind and the token found and whose position is
    the lexer's position object, past the token found. *)
Theorem definition_needs_a_name (fuel : nat) (L L0 L1 : Lexer.t) (to_token tok : Token.t) :
  Lexer.pop (S fuel) L = (Ok (Some to_token), L0) ->
  Lexer._buffer L0 = [] ->
  Token.kind to_token = TO ->
  Lexer.pop (S fuel) L0 = (Ok (Some tok), L1) ->
  Token.kind tok <> IDENTIFIER ->
  LogoParser.parse_instruction (S fuel) L
  = (Raise (LogoParserError
              ("Error trying to parse ppm file: expecting '"
                 +:+ TokenKind_name IDENTIFIER +:+ "' get a '"
                 +:+ Token.__str__ tok +:+ "'")
              (Some (Lexer.position L1))), L1).
Proof.
  intros Hpop Hb0 Hto Hpop0 Hkind.
  pose proof (maybe_match_of_pop _ TO _ _ _ Hb0 Hpop) as Hmatch.
  rewrite bool_decide_eq_false_2 in Hmatch by (intros Hne; exact (Hne Hto)).
  cbn [LogoParser.parse_instruction]. rewrite (bind_ok _ _ _ _ _ Hmatch).
  rewrite bool_decide_eq_true_2 by (eexists; reflexivity).
  apply bind_raise. unfold Lexer.match_. rewrite (bind_ok _ _ _ _ _ Hpop0).
  rewrite bool_decide_eq_true_2 by exact Hkind. reflexivity.
Qed.

Lemma definition_needs_a_name_witness :
  fst (LogoParser.parse_instruction 2 (Lexer.new "to [ forward 10 ] end"))
  = Raise (LogoParserError
             "Error trying to parse ppm file: expecting 'IDENTIFIER' get a 'LBRACE'"
             (Some 0)).
Proof.
  rewrite (definition_needs_a_name 1 (Lexer.new "to [ forward 10 ] end")
             (snd (Lexer.pop 2 (Lexer.new "to [ forward 10 ] end")))
             (snd (Lexer.pop 2 (snd (Lexer.pop 2 (Lexer.new "to [ forward 10 ] end")))))
             (Token.new TO 1 None) (Token.new LBRACE 2 None)).
  - reflexivity.
  - vm_compute. reflexivity.
  - reflexivity.
  - reflexivity.
  - vm_compute. reflexivity.
  - discriminate.
Defined.

(** X24. A repeat needs a number. When the times expression evaluates to
    something that is no float ([None] for a symbol bound nowhere, or a
    syntax node), [int] raises a [TypeError]: the block is not run, no turtle
    command is sent and no environment is changed. *)
Theorem repeat_needs_a_number (fuel : nat) (times block : obj) (environment : loc)
    (st : State) :
  (forall x, value_in st environment times <> PyFloat x) ->
  run (S fuel) (AstRepeat times block) environment st = (Raise TypeError, st).
Proof.
  intros Hvalue. rewrite run_repeat.
  rewrite (bind_ok _ _ _ _ _ (evaluate_expression_value times environment st)).
  apply bind_raise. destruct (value_in st environment times); try reflexivity.
  exfalso. exact (Hvalue _ eq_refl).
Qed.

Lemma repeat_needs_a_number_witness :
  run 2 (AstRepeat (AstSymbolReference ":n") (AstBlock [AstForward (PyFloat 1)])) 0
    global_state
  = (Raise TypeError, global_state).
Proof.
  apply (repeat_needs_a_number 1 (AstSymbolReference ":n")
           (AstBlock [AstForward (PyFloat 1)]) 0 global_state).
  intros x Hvalue. vm_compute in Hvalue. discriminate Hvalue.
Defined.

(** ** The text a token was made of *)

Lemma substring_prefix_app (a s r : string) :
  String.substring 0 (String.length a + String.length s) (a +:+ s +:+ r) = a +:+ s.
Proof.
  induction a as [|c a IH].
  - change ("" +:+ s +:+ r) with (s +:+ r). change ("" +:+ s) with s.
    cbn [String.length Nat.add]. induction s as [|c s IH]; [destruct r; reflexivity|].
    change (String c s +:+ r) with (String c (s +:+ r)).
    cbn [String.length String.substring]. rewrite IH. reflexivity.
  - change (String c a +:+ s +:+ r) with (String c (a +:+ s +:+ r)).
    change (String c a +:+ s) with (String c (a +:+ s)).
    cbn [String.length Nat.add String.substring]. rewrite IH. reflexivity.
Qed.

Lemma substring_split (text : string) :
  forall i, i <= String.length text ->
    String.length (String.substring 0 i text) = i
    /\ text = String.substring 0 i text
              +:+ String.substring i (String.length text - i) text.
Proof.
  induction text as [|c text IH]; intros i Hi.
  - assert (i = 0) as -> by (simpl in Hi; lia). split; reflexivity.
  - destruct i as [|i].
    + split; [reflexivity|]. cbn [String.substring String.length Nat.sub].
      change ("" +:+ ?x) with x. destruct (IH 0 ltac:(lia)) as [_ H0].
      rewrite Nat.sub_0_r in H0. change ("" +:+ ?x) with x in H0.
      assert (Hz : String.substring 0 0 text = "") by (destruct text; reflexivity).
      rewrite Hz in H0. change ("" +:+ ?x) with x in H0. rewrite <- H0. reflexivity.
    + cbn [String.length] in Hi. destruct (IH i ltac:(lia)) as [Hlen Heq].
      cbn [String.substring String.length Nat.sub]. split; [rewrite Hlen; reflexivity|].
      change (String c ?x +:+ ?y) with (String c (x +:+ y)). rewrite <- Heq. reflexivity.
Qed.

(** What was read grows by what a call reads. *)
Lemma has_read_text (s : string) (L L' : Lexer.t) :
  has_read s L L' -> read_text L' = read_text L +:+ s.
Proof.
  intros (Htext & Hrem & Hindex). unfold read_text, Str.slice. rewrite Htext, Hindex.
  rewrite !Nat.sub_0_r. unfold remaining, Str.slice, Lexer._text_len in Hrem.
  destruct (decide (Lexer._index L <= String.length (Lexer.text L))) as [Hle|Hgt].
  - destruct (substring_split (Lexer.text L) (Lexer._index L) Hle) as [Hlen Heq].
    rewrite Hrem in Heq. rewrite Heq at 1. rewrite <- Hlen at 1.
    apply substring_prefix_app.
  - replace (String.length (Lexer.text L) - Lexer._index L) with 0 in Hrem by lia.
    assert (Hnil : String.substring (Lexer._index L) 0 (Lexer.text L) = "").
    { pose proof (length_substring_le (Lexer.text L) (Lexer._index L) 0) as Hl.
      destruct (String.substring (Lexer._index L) 0 (Lexer.text L)); [reflexivity|].
      simpl in Hl. lia. }
    rewrite Hnil in Hrem. destruct s as [|c s]; [|discriminate Hrem].
    rewrite Nat.add_0_r, append_empty_r. reflexivity.
Qed.

(** The number branch of [pop], once the first numeric character is known:
    a token it returns is a NUMBER whose content is what was read. *)
Lemma number_rest_text (L : Lexer.t) (c : string) (is_negative : bool)
    (tok : Token.t) (L' : Lexer.t) :
  (let! digits := Lexer.get_while Str.isnumeric in
   let number_literal := c +:+ digits in
   let! dot := Lexer._peek_c 0 in
   let! number_literal :=
     (if bool_decide (dot = Some ".") then
        let! _ := Lexer._advance 1 in
        let number_literal := number_literal +:+ "." in
        let! rational_part := Lexer.get_while Str.isnumeric in
        if negb (Str.truthy rational_part) then ret None
        else ret (Some (number_literal +:+ rational_part))
      else ret (Some number_literal)) in
   match number_literal with
   | None => ret None
   | Some number_literal =>
       let number_literal :=
         if is_negative then "-" +:+ number_literal else number_literal in
       Lexer._Token NUMBER (Some number_literal)
   end) L = (Ok (Some tok), L') ->
  exists t, has_read t L L'
            /\ Token.kind tok = NUMBER
            /\ Token.content tok = Some (sign is_negative +:+ c +:+ t).
Proof.
  intros Hrun.
  rewrite (bind_ok _ _ _ _ _ (get_while_spec Str.isnumeric L)) in Hrun. cbv zeta in Hrun.
  destruct (span_spec Str.isnumeric (remaining L)) as (Happ & _).
  set (digits := fst (span Str.isnumeric (remaining L))) in *.
  pose proof (has_read_advanced_by digits _ L Happ) as Hread.
  set (L1 := advanced_by digits L) in *.
  assert (Hplain : forall dot,
             dot <> Some "."%string ->
             Lexer._peek_c 0 L1 = (Ok dot, L1) ->
             exists t, has_read t L L'
                       /\ Token.kind tok = NUMBER
                       /\ Token.content tok = Some (sign is_negative +:+ c +:+ t)).
  { intros dot Hdot Hpeek. rewrite (bind_ok _ _ _ _ _ Hpeek) in Hrun.
    rewrite bool_decide_eq_false_2 in Hrun by exact Hdot.
    rewrite (bind_ok _ _ _ _ _ (eq_refl : ret (Some (c +:+ digits)) L1 = (Ok _, L1))) in Hrun.
    injection Hrun as <- <-. exists digits. split; [exact Hread|]. split; [reflexivity|].
    destruct is_negative; reflexivity. }
  destruct (remaining L1) as [|d r] eqn:Hrem1.
  - apply (Hplain None); [discriminate | exact (peek_end L1 Hrem1)].
  - destruct (decide (d = "."%char)) as [->|Hd].
    + rewrite (bind_ok _ _ _ _ _ (peek_next L1 _ _ Hrem1)) in Hrun.
      rewrite bool_decide_eq_true_2 in Hrun by reflexivity.
      destruct (advance_next L1 _ _ Hrem1) as [Hadv Hrem2].
      pose proof (has_read_advanced _ _ _ Hrem1) as Hread1.
      set (L2 := advanced "." L1) in *.
      destruct (span_spec Str.isnumeric (remaining L2)) as (Happ2 & _).
      set (rational_part := fst (span Str.isnumeric (remaining L2))) in *.
      pose proof (has_read_advanced_by rational_part _ L2 Happ2) as Hread2.
      assert (Hdot :
        (let! _ := Lexer._advance 1 in
         let! rational_part := Lexer.get_while Str.isnumeric in
         if negb (Str.truthy rational_part) then ret None
         else ret (Some (((c +:+ digits) +:+ ".") +:+ rational_part))) L1
        = (Ok (if negb (Str.truthy rational_part) then None
               else Some (((c +:+ digits) +:+ ".") +:+ rational_part)),
           advanced_by rational_part L2)).
      { rewrite (bind_ok _ _ _ _ _ Hadv).
        rewrite (bind_ok _ _ _ _ _ (get_while_spec Str.isnumeric L2)).
        fold rational_part. destruct (negb (Str.truthy rational_part)); reflexivity. }
      rewrite (bind_ok _ _ _ _ _ Hdot) in Hrun.
      destruct (negb (Str.truthy rational_part)); [discriminate Hrun|].
      injection Hrun as <- <-.
      exists (digits +:+ "." +:+ rational_part). split; [|split; [reflexivity|]].
      * exact (has_read_trans _ _ _ _ _ Hread (has_read_trans _ _ _ _ _ Hread1 Hread2)).
      * cbn [Token.content]. rewrite !append_assoc.
        destruct is_negative; reflexivity.
    + apply (Hplain (Some (String d ""))); [|exact (peek_next L1 _ _ Hrem1)].
      intros [= ->]. exact (Hd eq_refl).
Qed.

Lemma pop_number_text (a : ascii) (L : Lexer.t) (tok : Token.t) (L' : Lexer.t) :
  Lexer.pop_number (String a "") L = (Ok (Some tok), L') ->
  exists t, has_read t L L'
            /\ Token.kind tok = NUMBER
            /\ Token.content tok = Some (String a t).
Proof.
  unfold Lexer.pop_number. intros Hrun.
  destruct (bool_decide (String a "" = "-")) eqn:Hneg.
  - apply bool_decide_eq_true_1 in Hneg. injection Hneg as ->.
    destruct (remaining L) as [|d r] eqn:Hrem.
    + rewrite (bind_ok _ _ _ _ _ (pop_c_end L Hrem)) in Hrun. discriminate Hrun.
    + rewrite (bind_ok _ _ _ _ _ (pop_c_next L _ _ Hrem)) in Hrun.
      destruct (Str.isnumeric (String d "")); [|discriminate Hrun].
      destruct (number_rest_text (advanced d L) (String d "") true tok L' Hrun)
        as (t & Hread & Hkind & Hcontent).
      exists (String d t). split; [|split; [exact Hkind | exact Hcontent]].
      exact (has_read_trans _ _ _ _ _ (has_read_advanced _ _ _ Hrem) Hread).
  - rewrite (bind_ok _ _ _ _ _ (eq_refl : ret (Some (String a "")) L = (Ok _, L))) in Hrun.
    destruct (Str.isnumeric (String a "")); [|discriminate Hrun].
    destruct (number_rest_text L (String a "") false tok L' Hrun)
      as (t & Hread & Hkind & Hcontent).
    exists t. split; [exact Hread|]. split; [exact Hkind | exact Hcontent].
Qed.

(** A token [pop] makes is made of the last characters it read. *)
Lemma pop_token_text (fuel : nat) (L : Lexer.t) (tok : Token.t) (L' : Lexer.t) :
  Lexer._buffer L = [] ->
  Lexer.pop fuel L = (Ok (Some tok), L') ->
  exists skipped lexeme, has_read (skipped +:+ lexeme) L L' /\ token_text tok lexeme.
Proof.
  intros Hbuffer Hpop. unfold Lexer.pop in Hpop. rewrite Hbuffer in Hpop.
  destruct (Lexer.eat_spaces fuel L) as [[[]| |] L1] eqn:Heat;
    [|rewrite (bind_raise _ _ _ _ _ Heat) in Hpop; discriminate Hpop
     |rewrite (bind_out_of_fuel _ _ _ _ Heat) in Hpop; discriminate Hpop].
  rewrite (bind_ok _ _ _ _ _ Heat) in Hpop.
  destruct (quiet_at_eat_spaces fuel L _ _ Heat) as [[skipped Hskip] _].
  exists skipped.
  assert (Hdone : forall lexeme L2,
             has_read lexeme L1 L2 ->
             Lexer.text L' = Lexer.text L2 -> Lexer._index L' = Lexer._index L2 ->
             has_read (skipped +:+ lexeme) L L').
  { intros lexeme L2 Hread Htext Hindex.
    destruct (has_read_trans _ _ _ _ _ Hskip Hread) as (H1 & H2 & H3).
    split; [congruence|]. split; [|congruence].
    rewrite H2. unfold remaining, Lexer._text_len. rewrite Htext, Hindex. reflexivity. }
  destruct (remaining L1) as [|a r] eqn:Hrem.
  { rewrite (bind_ok _ _ _ _ _ (pop_c_end L1 Hrem)) in Hpop. injection Hpop as <- <-.
    exists "". split; [|reflexivity].
    exact (Hdone "" L1 (has_read_refl L1) eq_refl eq_refl). }
  rewrite (bind_ok _ _ _ _ _ (pop_c_next L1 _ _ Hrem)) in Hpop.
  pose proof (has_read_advanced _ _ _ Hrem) as Hone.
  set (L2 := advanced a L1) in *. cbn [Str.truthy negb] in Hpop.
  destruct (bool_decide (String a "" = "[")) eqn:Hl.
  { apply bool_decide_eq_true_1 in Hl. injection Hl as ->. injection Hpop as <- <-.
    exists "[". split; [|reflexivity]. exact (Hdone _ L2 Hone eq_refl eq_refl). }
  destruct (bool_decide (String a "" = "]")) eqn:Hr.
  { apply bool_decide_eq_true_1 in Hr. injection Hr as ->. injection Hpop as <- <-.
    exists "]". split; [|reflexivity]. exact (Hdone _ L2 Hone eq_refl eq_refl). }
  assert (Hword : forall cond,
             exists w, Lexer.get_while cond L2 = (Ok w, advanced_by w L2)
                       /\ has_read (String a w) L1 (advanced_by w L2)).
  { intros cond. exists (fst (span cond (remaining L2))).
    split; [apply get_while_spec|].
    destruct (span_spec cond (remaining L2)) as (Happ & _).
    exact (has_read_trans _ _ _ _ _ Hone (has_read_advanced_by _ _ L2 Happ)). }
  destruct (Str.isalpha (String a "")).
  { destruct (Hword Lexer.is_identifier_char) as (w & Hget & Hread).
    rewrite (bind_ok _ _ _ _ _ Hget) in Hpop. cbv zeta in Hpop.
    change (String a "" +:+ w) with (String a w) in Hpop.
    exists (String a w).
    destruct (Lexer.keyword (String a w)) as [kind|] eqn:Hkeyword;
      injection Hpop as <- <-;
      (split; [exact (Hdone _ _ Hread eq_refl eq_refl)|]).
    - apply keyword_spec in Hkeyword as [Hin Hfold]. unfold token_text.
      cbn [Token.kind]. unfold keyword_kinds in Hin.
      destruct kind; try exact Hfold; exfalso;
        repeat (apply elem_of_cons in Hin as [Hin|Hin]; [discriminate Hin|]);
        apply elem_of_nil in Hin; exact Hin.
    - reflexivity. }
  destruct (bool_decide (String a "" = ":")) eqn:Hcolon.
  { destruct (Hword Lexer.is_identifier_char) as (w & Hget & Hread).
    rewrite (bind_ok _ _ _ _ _ Hget) in Hpop. injection Hpop as <- <-.
    exists (String a w). split; [exact (Hdone _ _ Hread eq_refl eq_refl) | reflexivity]. }
  destruct (pop_number_text a L2 tok L' Hpop) as (t & Hread & Hkind & Hcontent).
  exists (String a t). split.
  - exact (Hdone _ L' (has_read_trans _ _ _ _ _ Hone Hread) eq_refl eq_refl).
  - unfold token_text. rewrite Hkind. exact Hcontent.
Qed.

Lemma pop_read (fuel : nat) (L : Lexer.t) (r : res (option Token.t)) (L' : Lexer.t) :
  Lexer.pop fuel L = (r, L') ->
  buffer_read L ->
  buffer_read L'
  /\ forall tok, r = Ok (Some tok) -> ends_with_token (read_text L') tok.
Proof.
  intros Hpop Hbuffer. destruct (Lexer._buffer L) as [|o rest] eqn:Hb.
  - split.
    + unfold buffer_read. rewrite (pop_keeps_buffer_empty _ _ _ _ Hb Hpop). constructor.
    + intros tok ->. destruct (pop_token_text _ _ _ _ Hb Hpop) as (s & lexeme & Hread & Htext).
      exists (read_text L +:+ s), lexeme. split; [|exact Htext].
      rewrite (has_read_text _ _ _ Hread), append_assoc. reflexivity.
  - unfold Lexer.pop in Hpop. rewrite Hb in Hpop. injection Hpop as <- <-.
    unfold buffer_read in Hbuffer. rewrite Hb in Hbuffer.
    apply Forall_cons in Hbuffer as [Hhead Hrest].
    split; [exact Hrest|]. intros tok [= ->]. exact Hhead.
Qed.

Lemma buffer_read_push (L : Lexer.t) (o : option Token.t) :
  buffer_read L ->
  match o with Some tok => ends_with_token (read_text L) tok | None => True end ->
  buffer_read (Lexer.set_buffer (Lexer._buffer L ++ [o]) L).
Proof.
  intros Hbuffer Ho. unfold buffer_read. cbn [Lexer.set_buffer Lexer._buffer].
  apply Forall_app. split; [exact Hbuffer|]. constructor; [exact Ho | constructor].
Qed.

Lemma lex_step_read (L L' : Lexer.t) : lex_step L L' -> buffer_read L -> buffer_read L'.
Proof.
  intros Hstep Hinv. destruct Hstep as [fuel L L' r Hrun|fuel L L' r Hrun
                                        |fuel kind L L' r Hrun|fuel kind L L' r Hrun].
  - exact (proj1 (pop_read _ _ _ _ Hrun Hinv)).
  - unfold Lexer.peek in Hrun. destruct (Lexer._buffer L) as [|o rest] eqn:Hb.
    + unfold bind in Hrun. destruct (Lexer.pop fuel L) as [[o| |] L1] eqn:Hpop;
        destruct (pop_read _ _ _ _ Hpop Hinv) as [Hbuf Htok];
        injection Hrun as _ <-; [|exact Hbuf..].
      apply buffer_read_push; [exact Hbuf|]. destruct o as [tok|]; [|exact I].
      apply Htok. reflexivity.
    + injection Hrun as _ <-. exact Hinv.
  - unfold Lexer.match_, bind in Hrun.
    destruct (Lexer.pop fuel L) as [[o| |] L1] eqn:Hpop;
      destruct (pop_read _ _ _ _ Hpop Hinv) as [Hbuf _];
      [|injection Hrun as _ <-; exact Hbuf..].
    destruct o as [tok|]; [|injection Hrun as _ <-; exact Hbuf].
    destruct (bool_decide _); injection Hrun as _ <-; exact Hbuf.
  - unfold Lexer.maybe_match, bind in Hrun.
    destruct (Lexer.pop fuel L) as [[o| |] L1] eqn:Hpop;
      destruct (pop_read _ _ _ _ Hpop Hinv) as [Hbuf Htok];
      [|injection Hrun as _ <-; exact Hbuf..].
    destruct o as [tok|]; [|injection Hrun as _ <-; exact Hbuf].
    destruct (bool_decide _); injection Hrun as _ <-; [|exact Hbuf].
    apply buffer_read_push; [exact Hbuf|]. apply Htok. reflexivity.
Qed.

Lemma lexes_read (L L' : Lexer.t) : lexes L L' -> buffer_read L -> buffer_read L'.
Proof.
  intros Hlexes. induction Hlexes as [L|L1 L2 L3 Hstep _ IH]; intros Hinv; [exact Hinv|].
  apply IH. exact (lex_step_read _ _ Hstep Hinv).
Qed.

(** ** The position stored in a token *)

(** C10. In any state a lexer reaches on a text, a token returned by [pop]
    refers to a position object of its own, which is not the lexer's. What
    the lexer has read of the text by then ends with the text of the token,
    and the object holds the line and the column of that point, immediately
    past the token's text: the line is one more than the number of newlines
    read, the column the number of characters read since the last of them.
    No later call of the lexer changes the object. A bracket at the start of
    the text is stored at line 1, column 1; in a text whose second line is
    [ forward], the token FORWARD is stored at line 2, column 8. *)
Theorem token_position_is_own_copy (text : string) (L : Lexer.t) (fuel : nat)
    (tok : Token.t) (L' : Lexer.t) :
  lexes (Lexer.new text) L ->
  Lexer.pop fuel L = (Ok (Some tok), L') ->
  let read := Str.slice text 0 (Lexer._index L') in
  Token.position tok <> Lexer.position L'
  /\ ends_with_token read tok
  /\ Lexer.heap L' !! Token.position tok
     = Some (FilePosition.new (1 + count_newlines (Str.to_list read))
               (column (Str.to_list read)))
  /\ (forall L'', lexes L' L'' ->
        Lexer.heap L'' !! Token.position tok = Lexer.heap L' !! Token.position tok)
  /\ (let result := Lexer.pop 1 (Lexer.new "[") in
      fst result = Ok (Some (Token.new LBRACE 1 None))
      /\ Lexer.heap (snd result) !! 1 = Some (FilePosition.new 1 1))
  /\ (let result := Lexer.pop 2 (snd (Lexer.pop 1 (Lexer.new bracket_then_forward))) in
      fst result = Ok (Some (Token.new FORWARD 2 None))
      /\ Lexer.heap (snd result) !! 2 = Some (FilePosition.new 2 8)).
Proof.
  intros Hreach Hpop read.
  destruct (lexes_inv _ _ Hreach (new_lexer_inv text)) as (Hinv & _ & Htext).
  destruct (pop_inv _ _ _ _ Hpop Hinv) as (Hinv' & _ & Htext' & Htok).
  destruct (Htok tok eq_refl) as (Hvalid & Hne & Hsame).
  assert (Hbuffer : buffer_read L) by (apply (lexes_read _ _ Hreach); constructor).
  destruct (pop_read _ _ _ _ Hpop Hbuffer) as [_ Hends].
  assert (Hread : read_text L' = read).
  { unfold read_text, read. rewrite Htext', Htext. reflexivity. }
  split; [exact Hne|]. split; [|split; [|split; [|split]]].
  - rewrite <- Hread. apply Hends. reflexivity.
  - rewrite Hsame. destruct Hinv' as [Htracks _]. rewrite Htracks.
    unfold position_after. rewrite foldl_advance_char.
    fold (read_text L'). rewrite Hread. reflexivity.
  - intros L'' Hlater.
    destruct (lexes_inv _ _ Hlater Hinv') as (_ & (Hp & _ & Hkept) & _).
    apply Hkept; assumption.
  - split; reflexivity.
  - split; vm_compute; reflexivity.
Qed.

Lemma token_position_is_own_copy_witness :
  let L := snd (Lexer.pop 1 (Lexer.new bracket_then_forward)) in
  let L' := snd (Lexer.pop 2 L) in
  let read := Str.slice bracket_then_forward 0 (Lexer._index L') in
  2 <> Lexer.position L'
  /\ ends_with_token read (Token.new FORWARD 2 None)
  /\ Lexer.heap L' !! 2
     = Some (FilePosition.new (1 + count_newlines (Str.to_list read))
               (column (Str.to_list read)))
  /\ Str.to_list read = Str.to_list bracket_then_forward.
Proof.
  cbv zeta.
  assert (Hreach : lexes (Lexer.new bracket_then_forward)
                     (snd (Lexer.pop 1 (Lexer.new bracket_then_forward)))).
  { eapply rtc_l; [eapply (lex_pop 1); apply surjective_pairing | apply rtc_refl]. }
  assert (Hpop : Lexer.pop 2 (snd (Lexer.pop 1 (Lexer.new bracket_then_forward)))
                 = (Ok (Some (Token.new FORWARD 2 None)),
                    snd (Lexer.pop 2 (snd (Lexer.pop 1 (Lexer.new bracket_then_forward))))))
    by (vm_compute; reflexivity).
  destruct (token_position_is_own_copy bracket_then_forward _ 2 _ _ Hreach Hpop)
    as (Hne & Hends & Hposition & _).
  split; [exact Hne|]. split; [exact Hends|]. split; [exact Hposition|].
  vm_compute. reflexivity.
Defined.
